(** * Sorting-Algorithm-Visualizer: the recording sort engine, the move
    player and the validator of [array-visualizer.ts], and the counter
    handlers of [app.component.ts], as a shallow embedding.

    JavaScript arrays are modelled as property maps with a [length]
    ([jsarray]): reading a missing index gives [undefined] ([None]),
    writing at or past [length] extends the array, and a write at a
    negative index only adds a property.  Numbers are the integers of
    the generated arrays ([Z]); the counting table may also hold [NaN]. *)

From stdpp Require Import base numbers option list sorting gmap.

Local Open Scope Z_scope.

(** ** JavaScript arrays *)

Record jsarray (A : Type) := JsArray { elems : gmap Z A; len : Z }.
Arguments JsArray {A} _ _.
Arguments elems {A} _.
Arguments len {A} _.

(** [array[i]]; [None] is [undefined]. *)
Global Instance jsarray_lookup {A} : Lookup Z A (jsarray A) :=
  λ i a, elems a !! i.

(** [array[i] = v].  Assigning [undefined] leaves a slot that reads
    [undefined] again; the length grows when [i] is at or past it.  (The
    arrays here stay far below the 2^32 - 1 indices of a JavaScript
    array; every integer from 0 is taken as an index.) *)
Definition store {A} (a : jsarray A) (i : Z) (v : option A) : jsarray A :=
  {| elems := match v with
              | Some x => <[i := x]> (elems a)
              | None => delete i (elems a)
              end;
     len := if bool_decide (len a ≤ i) then i + 1 else len a |}.

(** The empty array literal []. *)
Definition empty_array {A} : jsarray A := JsArray ∅ 0.

(** A dense array holding the elements of [l]. *)
Definition array_of {A} (l : list A) : jsarray A :=
  JsArray (map_seqZ 0 l) (Z.of_nat (length l)).

(** The elements at the indices [0 .. length-1]. *)
Definition items {A} (a : jsarray A) : list (option A) :=
  (λ i, a !! i) <$> seqZ 0 (len a).

(** The elements at [n] consecutive indices from [lo]. *)
Definition slice {A} (a : jsarray A) (lo : Z) (n : nat) : list (option A) :=
  (λ i, a !! i) <$> seqZ lo (Z.of_nat n).

(** Relational operators on values that may be [undefined]: a comparison
    with [undefined] is false. *)
Definition js_gt (x y : option Z) : bool :=
  match x, y with
  | Some u, Some v => bool_decide (v < u)
  | _, _ => false
  end.

Definition js_le (x y : option Z) : bool :=
  match x, y with
  | Some u, Some v => bool_decide (u ≤ v)
  | _, _ => false
  end.

(** Numbers of the counting table. *)
Inductive jsnum := Num (z : Z) | NaN.

Global Instance jsnum_eq_dec : EqDecision jsnum.
Proof. solve_decision. Defined.

(** ** Counted loops *)

(** [for (let i = from; i < to; i++) body] with [to] fixed. *)
Fixpoint for_up {S} (n : nat) (i : Z) (body : Z → S → S) (s : S) : S :=
  match n with
  | O => s
  | S n' => for_up n' (i + 1) body (body i s)
  end.

Definition for_range {S} (from to : Z) (body : Z → S → S) (s : S) : S :=
  for_up (Z.to_nat (to - from)) from body s.

(** [for (let i = from; i >= to; i--) body]. *)
Fixpoint for_down_n {S} (n : nat) (i : Z) (body : Z → S → S) (s : S) : S :=
  match n with
  | O => s
  | S n' => for_down_n n' (i - 1) body (body i s)
  end.

Definition for_down {S} (from to : Z) (body : Z → S → S) (s : S) : S :=
  for_down_n (Z.to_nat (from - to + 1)) from body s.

(** ** Move records

    The objects pushed on [this.animations], one shape per routine. *)
Inductive Move :=
| BubbleSwap (lo hi : Z)                      (* { lo, hi } *)
| MergeSet (index : Z) (value : option Z)     (* { index, value } *)
| CountingSet (index : jsnum) (newValue : option Z) (* { index, newValue } *)
| SwapElement (index1 index2 : Z)             (* name: 'swap-element' *)
| SwapPivot (pivotIndex swapIndex : Z).       (* name: 'swap-pivot' *)

Global Instance Move_eq_dec : EqDecision Move.
Proof. solve_decision. Defined.

(** [animations.push(m)] *)
Definition push {A} (l : list A) (m : A) : list A := l ++ [m].

(** ** Sort engine *)

(** [swap(array, index1, index2)] *)
Definition swap {A} (array : jsarray A) (index1 index2 : Z) : jsarray A :=
  let temporary := array !! index1 in
  let array := store array index1 (array !! index2) in
  store array index2 temporary.

(** *** Bubble sort *)

Definition bubble_body (i : Z) (st : jsarray Z * list Move)
  : jsarray Z * list Move :=
  let '(array, animations) := st in
  if js_gt (array !! i) (array !! (i + 1))
  then (swap array i (i + 1), push animations (BubbleSwap i (i + 1)))
  else (array, animations).

(** [bubble(array, lo, hi)] *)
Definition bubble (array : jsarray Z) (animations : list Move) (lo hi : Z)
  : jsarray Z * list Move :=
  for_range lo hi bubble_body (array, animations).

(** [bubbleSort(array)]: [for (let i = array.length - 1; i > 0; i--)]. *)
Definition bubbleSort (array : jsarray Z) (animations : list Move)
  : jsarray Z * list Move :=
  for_down (len array - 1) 1
    (λ i st, bubble (fst st) (snd st) 0 i) (array, animations).

(** *** Merge sort *)

Record merge_state := MergeState {
  ms_a : jsarray Z;
  ms_animations : list Move;
  ms_i : Z;
  ms_j : Z
}.

Definition merge_body (aux : jsarray Z) (mid hi : Z) (k : Z) (st : merge_state)
  : merge_state :=
  let '(MergeState a animations i j) := st in
  if bool_decide (i > mid) then
    MergeState (store a k (aux !! j)) (push animations (MergeSet k (aux !! j)))
               i (j + 1)
  else if bool_decide (j > hi) then
    MergeState (store a k (aux !! i)) (push animations (MergeSet k (aux !! i)))
               (i + 1) j
  else if js_gt (aux !! i) (aux !! j) then
    MergeState (store a k (aux !! j)) (push animations (MergeSet k (aux !! j)))
               i (j + 1)
  else
    MergeState (store a k (aux !! i)) (push animations (MergeSet k (aux !! i)))
               (i + 1) j.

(** [merge(a, aux, lo, mid, hi)]; [a] and [aux] are distinct arrays.
    Returns the arrays and the log. *)
Definition merge (a aux : jsarray Z) (animations : list Move) (lo mid hi : Z)
  : jsarray Z * jsarray Z * list Move :=
  let aux := for_range lo (hi + 1) (λ i aux, store aux i (a !! i)) aux in
  let st := for_range lo (hi + 1) (merge_body aux mid hi)
              (MergeState a animations lo (mid + 1)) in
  (ms_a st, aux, ms_animations st).

(** [Math.floor(lo + (hi - lo) / 2)]: the floor of the rational
    [(2 lo + (hi - lo)) / 2]. *)
Definition midpoint (lo hi : Z) : Z := (2 * lo + (hi - lo)) `div` 2.

(** [mergeSort(a, aux, lo, hi)], with the recursion depth bounded by
    [fuel]; [None] when the bound is reached. *)
Fixpoint mergeSort (fuel : nat) (a aux : jsarray Z)
    (animations : list Move) (lo hi : Z)
  : option (jsarray Z * jsarray Z * list Move) :=
  match fuel with
  | O => None
  | S fuel' =>
    if bool_decide (hi ≤ lo) then Some (a, aux, animations)
    else
      let mid := midpoint lo hi in
      '(a, aux, animations) ← mergeSort fuel' a aux animations lo mid;
      '(a, aux, animations) ← mergeSort fuel' a aux animations (mid + 1) hi;
      Some (merge a aux animations lo mid hi)
  end.

(** *** Quick sort *)

(** [while (array[start] <= pivot) { if (start >= hi) break; start++; }] *)
Fixpoint advance_start (fuel : nat) (array : jsarray Z) (pivot : option Z)
    (hi start : Z) : option Z :=
  match fuel with
  | O => None
  | S fuel' =>
    if js_le (array !! start) pivot then
      if bool_decide (start >= hi) then Some start
      else advance_start fuel' array pivot hi (start + 1)
    else Some start
  end.

(** [while (array[end] > pivot) end--;] *)
Fixpoint retreat_end (fuel : nat) (array : jsarray Z) (pivot : option Z)
    (end_ : Z) : option Z :=
  match fuel with
  | O => None
  | S fuel' =>
    if js_gt (array !! end_) pivot then retreat_end fuel' array pivot (end_ - 1)
    else Some end_
  end.

(** The [while (true)] loop of [partition]; returns the array, the log
    and the final [end]. *)
Fixpoint partition_loop (fuel : nat) (array : jsarray Z)
    (animations : list Move) (pivot : option Z) (hi start end_ : Z)
  : option (jsarray Z * list Move * Z) :=
  match fuel with
  | O => None
  | S fuel' =>
    start ← advance_start fuel array pivot hi start;
    end_ ← retreat_end fuel array pivot end_;
    if bool_decide (start >= end_) then Some (array, animations, end_)
    else
      partition_loop fuel' (swap array start end_)
        (push animations (SwapElement start end_)) pivot hi start end_
  end.

(** [partition(array, lo, hi)]: every loop runs at most [fuel] rounds. *)
Definition partition (fuel : nat) (array : jsarray Z) (animations : list Move)
    (lo hi : Z) : option (jsarray Z * list Move * Z) :=
  let pivot := array !! lo in
  '(array, animations, end_) ←
    partition_loop fuel array animations pivot hi lo hi;
  Some (swap array lo end_, push animations (SwapPivot lo end_), end_).

(** [quickSort(array, lo, hi)] *)
Fixpoint quickSort (fuel : nat) (array : jsarray Z) (animations : list Move)
    (lo hi : Z) : option (jsarray Z * list Move) :=
  match fuel with
  | O => None
  | S fuel' =>
    if bool_decide (lo >= hi) then Some (array, animations)
    else
      '(array, animations, partitionLocation) ←
        partition fuel' array animations lo hi;
      '(array, animations) ←
        quickSort fuel' array animations lo (partitionLocation - 1);
      quickSort fuel' array animations (partitionLocation + 1) hi
  end.

(** *** Counting sort *)

(** The value of [Math.max(...array)]: [-Infinity] for no argument, [NaN]
    as soon as one argument is [undefined]. *)
Inductive maxval := NegInfinity | MaxNum (z : Z) | MaxNaN.

Definition max_step (acc : maxval) (x : option Z) : maxval :=
  match acc, x with
  | MaxNaN, _ | _, None => MaxNaN
  | NegInfinity, Some v => MaxNum v
  | MaxNum m, Some v => MaxNum (Z.max m v)
  end.

Definition math_max (xs : list (option Z)) : maxval :=
  foldl max_step NegInfinity xs.

(** [c++], [--c] and [c + d] on table entries; an entry that is missing
    ([undefined]) or [NaN] gives [NaN]. *)
Definition js_incr (c : option jsnum) : jsnum :=
  match c with Some (Num n) => Num (n + 1) | _ => NaN end.

Definition js_decr (c : option jsnum) : jsnum :=
  match c with Some (Num n) => Num (n - 1) | _ => NaN end.

Definition js_plus (c d : option jsnum) : jsnum :=
  match c, d with Some (Num n), Some (Num m) => Num (n + m) | _, _ => NaN end.

(** [for (let i = 0; i < max + 1; i++) count[i] = 0] *)
Definition count_init (max : maxval) : jsarray jsnum :=
  match max with
  | MaxNum m => for_range 0 (m + 1) (λ i count, store count i (Some (Num 0)))
                  empty_array
  | _ => empty_array
  end.

(** [count[key]++]; the key [undefined] names a property that is not an
    index. *)
Definition count_key (array : jsarray Z) (i : Z) (count : jsarray jsnum)
  : jsarray jsnum :=
  match array !! i with
  | Some key => store count key (Some (js_incr (count !! key)))
  | None => count
  end.

(** [count[i + 1] += count[i]] *)
Definition accumulate (i : Z) (count : jsarray jsnum) : jsarray jsnum :=
  let delta := count !! i in
  store count (i + 1) (Some (js_plus (count !! (i + 1)) delta)).

(** The body of the placement loop: [sortedPosition = --count[key]],
    [aux[sortedPosition] = key], and the move pushed.  [aux[NaN] = key]
    sets a property that is never read. *)
Definition place (array : jsarray Z) (i : Z)
    (st : jsarray jsnum * jsarray Z * list Move)
  : jsarray jsnum * jsarray Z * list Move :=
  let '(count, aux, animations) := st in
  let key := array !! i in
  let sortedPosition :=
    match key with Some k => js_decr (count !! k) | None => NaN end in
  let count :=
    match key with
    | Some k => store count k (Some sortedPosition)
    | None => count
    end in
  let aux :=
    match sortedPosition with
    | Num p => store aux p key
    | NaN => aux
    end in
  (count, aux, push animations (CountingSet sortedPosition key)).

(** [countingSort(array)] *)
Definition countingSort (array : jsarray Z) (animations : list Move)
  : jsarray Z * list Move :=
  let max := math_max (items array) in
  let count := count_init max in
  let count := for_range 0 (len array) (count_key array) count in
  let count := for_range 0 (len count - 1) accumulate count in
  let aux := for_range 0 (len array) (λ i aux, store aux i (Some 0))
               empty_array in
  let '(count, aux, animations) :=
    for_down (len array - 1) 0 (place array) (count, aux, animations) in
  let array := for_range 0 (len aux) (λ i array, store array i (aux !! i))
                 array in
  (array, animations).

(** ** Display state, move player and validator *)

(** The result of a callback: it returns, or throws a [TypeError]; either
    way the component is left in a state. *)
Inductive outcome (S : Type) := Done (s : S) | Threw (s : S).
Arguments Done {S} _.
Arguments Threw {S} _.

Definition state_of {S} (o : outcome S) : S :=
  match o with Done s | Threw s => s end.

Definition threw {S} (o : outcome S) : bool :=
  match o with Done _ => false | Threw _ => true end.

(** The four sorting options. *)
Inductive sort_option := BubbleSort | MergeSort | CountingSort | QuickSort.

Section Display.
(** The scales are d3's; the component only calls them. *)
Context {Width Height Color : Type}.
Variable heightScale : option Z → Height.
Variable colorScale : Height → Color.

Record bin := Bin {
  value : option Z;
  width : Width;
  height : Height;
  color : Color
}.

(** [calculateBinDimensions(array)] *)
Definition calculateBinDimensions (fixedWidth : Width)
    (generatedArray : jsarray Z) : jsarray bin :=
  for_range 0 (len generatedArray)
    (λ i binDimensions,
       let element := generatedArray !! i in
       let heightScaled := heightScale element in
       let scaledColor := colorScale heightScaled in
       store binDimensions i
         (Some (Bin element fixedWidth heightScaled scaledColor)))
    empty_array.

(** [calculateBinDimension(i, value)]: throws when there is no bin
    at [i]. *)
Definition calculateBinDimension (i : Z) (v : option Z)
    (binDimensions : jsarray bin) : outcome (jsarray bin) :=
  let heightScaled := heightScale v in
  let color := colorScale heightScaled in
  match binDimensions !! i with
  | Some b => Done (store binDimensions i
                      (Some (Bin v (width b) heightScaled color)))
  | None => Threw binDimensions
  end.

(** What a tick of each player does with the action it popped.  An
    action of another routine's shape has the fields read here
    [undefined]. *)
Definition bubble_action (action : Move) (binDimensions : jsarray bin)
  : outcome (jsarray bin) :=
  match action with
  | BubbleSwap lo hi => Done (swap binDimensions lo hi)
  | _ => Done binDimensions
  end.

Definition merge_action (action : Move) (binDimensions : jsarray bin)
  : outcome (jsarray bin) :=
  match action with
  | MergeSet index v => calculateBinDimension index v binDimensions
  | CountingSet (Num index) _ => calculateBinDimension index None binDimensions
  | _ => Threw binDimensions
  end.

Definition counting_action (action : Move) (binDimensions : jsarray bin)
  : outcome (jsarray bin) :=
  match action with
  | CountingSet (Num index) v => calculateBinDimension index v binDimensions
  | MergeSet index _ => calculateBinDimension index None binDimensions
  | _ => Threw binDimensions
  end.

Definition quick_action (action : Move) (binDimensions : jsarray bin)
  : outcome (jsarray bin) :=
  match action with
  | SwapElement index1 index2 => Done (swap binDimensions index1 index2)
  | SwapPivot pivotIndex swapIndex =>
      Done (swap binDimensions pivotIndex swapIndex)
  | _ => Done binDimensions
  end.

Definition action_of (o : sort_option)
  : Move → jsarray bin → outcome (jsarray bin) :=
  match o with
  | BubbleSort => bubble_action
  | MergeSort => merge_action
  | CountingSort => counting_action
  | QuickSort => quick_action
  end.

(** The component: the fields the sort, the replay and the validation
    read and write. *)
Record component := Component {
  generatedArray : jsarray Z;
  generatedArrayUnsorted : list Z;
  binDimensions : jsarray bin;
  animations : list Move;
  validationAnimations : list (Z * Color);
  auxiliaryArray : jsarray Z;
  (** ticks that threw, and whether the interval was cleared *)
  uncaught : nat;
  cleared : bool
}.

(** [animations.pop()] *)
Definition pop {A} (l : list A) : option A * list A :=
  (last l, removelast l).

(** One tick of the interval started by the player of [o], up to the
    call of [validate].  A tick that throws is counted in [uncaught]
    and does not stop the interval. *)
Definition tick (o : sort_option) (this : component) : component :=
  match pop (animations this) with
  | (Some action, rest) =>
      let r := action_of o action (binDimensions this) in
      Component (generatedArray this) (generatedArrayUnsorted this)
        (state_of r) rest (validationAnimations this) (auxiliaryArray this)
        (if threw r then S (uncaught this) else uncaught this) false
  | (None, rest) =>
      Component (generatedArray this) (generatedArrayUnsorted this)
        (binDimensions this) rest (validationAnimations this)
        (auxiliaryArray this) (uncaught this) true
  end.

(** [n] ticks of the interval. *)
Fixpoint ticks (n : nat) (o : sort_option) (this : component) : component :=
  match n with
  | O => this
  | S n' => ticks n' o (tick o this)
  end.

(** A player run until its interval is cleared: one tick per move of
    the log, and the tick that finds the log empty. *)
Definition play (o : sort_option) (this : component) : component :=
  ticks (S (length (animations this))) o this.

(** [bubbleSortAnimation()], [animateMergeSort()],
    [animateCountingSort()] and [animateQuickSort()]. *)
Definition bubbleSortAnimation : component → component := play BubbleSort.
Definition animateMergeSort : component → component := play MergeSort.
Definition animateCountingSort : component → component := play CountingSort.
Definition animateQuickSort : component → component := play QuickSort.

(** [onOptionClicked(option)] up to the start of the player: the sort
    runs and the log is reversed.  [getArray] is what
    [arrayService.getArray()] returns. *)
Definition onOptionClicked (fuel : nat) (o : sort_option) (getArray : list Z)
    (this : component) : option component :=
  let animations := [] in
  let validationAnimations := [] in
  let auxiliaryArray := empty_array in
  '(array, aux, animations) ←
    match o with
    | BubbleSort =>
        let '(array, animations) :=
          bubbleSort (generatedArray this) animations in
        Some (array, auxiliaryArray, animations)
    | MergeSort =>
        mergeSort fuel (generatedArray this) auxiliaryArray animations
          0 (len (generatedArray this) - 1)
    | CountingSort =>
        let '(array, animations) :=
          countingSort (generatedArray this) animations in
        Some (array, auxiliaryArray, animations)
    | QuickSort =>
        '(array, animations) ←
          quickSort fuel (generatedArray this) animations
            0 (len (generatedArray this) - 1);
        Some (array, auxiliaryArray, animations)
    end;
  Some (Component array getArray (binDimensions this) (reverse animations)
          validationAnimations aux (uncaught this) false).

(** The loop of [validateArray] over [sorted], from index [i]. *)
Fixpoint validate_loop (sorted : list Z) (i : Z)
    (binDimensions : jsarray bin) (validationAnimations : list (Z * Color))
  : outcome (list (Z * Color)) :=
  match sorted with
  | [] => Done validationAnimations
  | s :: sorted' =>
    match binDimensions !! i with
    | None => Threw validationAnimations
    | Some b =>
      if bool_decide (value b = Some s)
      then validate_loop sorted' (i + 1) binDimensions
             (push validationAnimations (i, color b))
      else Done validationAnimations
    end
  end.

(** [validateArray()]; [generatedArrayUnsorted.sort((a, b) => a - b)]
    sorts the retained array in place, ascending. *)
Definition validateArray (this : component) : outcome component :=
  let sorted := merge_sort Z.le (generatedArrayUnsorted this) in
  let r := validate_loop sorted 0 (binDimensions this)
             (validationAnimations this) in
  let this' :=
    Component (generatedArray this) sorted (binDimensions this)
      (animations this) (state_of r) (auxiliaryArray this)
      (uncaught this) (cleared this) in
  if threw r then Threw this' else Done this'.
End Display.

Arguments bin : clear implicits.
Arguments component : clear implicits.

(** ** Counters of the root component *)

Record AppComponent := App {
  optionClicked : bool;
  arrayAccessCount : Z;
  comparisonCount : Z;
  currentArraySize : Z
}.

(** The subscriber of [updateArrayAccessCountSubj]. *)
Definition onArrayAccessCount (newCount : Z) (this : AppComponent)
  : AppComponent :=
  App (optionClicked this) newCount (comparisonCount this)
      (currentArraySize this).

(** The subscriber of [updateComparisonCountSubj]:
    [this.comparisonCount = this.comparisonCount]. *)
Definition onComparisonCount (newCount : Z) (this : AppComponent)
  : AppComponent :=
  App (optionClicked this) (arrayAccessCount this) (comparisonCount this)
      (currentArraySize this).

(** ** The validation animation *)

Section Validation.
Context {Width Height Color : Type}.
(** The colour ['green']. *)
Variable green : Color.
Abbreviation bin := (bin Width Height Color).
Abbreviation component := (component Width Height Color).

(** [this.binDimensions[index].color = c]: throws when there is no
    bin at [index]. *)
Definition set_color (index : Z) (c : Color) (binDimensions : jsarray bin)
  : outcome (jsarray bin) :=
  match binDimensions !! index with
  | Some b => Done (store binDimensions index
                      (Some (Bin (value b) (width b) (height b) c)))
  | None => Threw binDimensions
  end.

(** The fields [animateValidation] works on, with its timers: the
    timeouts that are pending, each with the [index] and the
    [originalColor] its closure holds, whether the interval is still
    running, how often [validatedSubj] has emitted and how many
    callbacks threw. *)
Record validation := Validation {
  v_binDimensions : jsarray bin;
  v_validationAnimations : list (Z * Color);
  timeouts : list (Z * Color);
  running : bool;
  validated : nat;
  v_uncaught : nat
}.

(** [validate()]: [validateArray()], [validationAnimations.reverse()]
    and [animateValidation()], which starts the interval.  When
    [validateArray] throws, nothing is reversed and no interval is
    started. *)
Definition validate (this : component) : outcome validation :=
  match validateArray this with
  | Done this' =>
      Done (Validation (binDimensions this')
              (reverse (validationAnimations this')) [] true 0 0)
  | Threw this' =>
      Threw (Validation (binDimensions this') (validationAnimations this')
               [] false 0 0)
  end.

(** The callback of the interval of [animateValidation]. *)
Definition animateValidation_tick (s : validation) : validation :=
  match pop (v_validationAnimations s) with
  | (Some (index, originalColor), rest) =>
      match set_color index green (v_binDimensions s) with
      | Done d =>
          Validation d rest (push (timeouts s) (index, originalColor))
            (running s) (validated s) (v_uncaught s)
      | Threw d =>
          Validation d rest (timeouts s) (running s) (validated s)
            (S (v_uncaught s))
      end
  | (None, rest) =>
      Validation (v_binDimensions s) rest (timeouts s) false
        (S (validated s)) (v_uncaught s)
  end.

(** The callback of a timeout: it sets the colour its closure holds. *)
Definition restore (t : Z * Color) (s : validation) : validation :=
  let r := set_color t.1 t.2 (v_binDimensions s) in
  Validation (state_of r) (v_validationAnimations s) (timeouts s)
    (running s) (validated s)
    (if threw r then S (v_uncaught s) else v_uncaught s).

(** A timer that fires: the interval, or the pending timeout number
    [n]. *)
Inductive timer := IntervalFires | TimeoutFires (n : nat).

(** The timer fires, when it is there to fire: the interval while it
    is running, a timeout while it is pending. *)
Definition fire (t : timer) (s : validation) : option validation :=
  match t with
  | IntervalFires =>
      if running s then Some (animateValidation_tick s) else None
  | TimeoutFires n =>
      t ← timeouts s !! n;
      Some (restore t
              (Validation (v_binDimensions s) (v_validationAnimations s)
                 (delete n (timeouts s)) (running s) (validated s)
                 (v_uncaught s)))
  end.

(** A schedule: the timers in the order they fire.  Any order in
    which each timer is there to fire is a schedule; the order of a
    browser, which fires timeouts of equal delay in the order they
    were set, is one of them. *)
Fixpoint run (schedule : list timer) (s : validation) : option validation :=
  match schedule with
  | [] => Some s
  | t :: schedule' => s' ← fire t s; run schedule' s'
  end.

(** The schedule in which every timeout fires before the next tick of
    the interval, for a log of [n] records. *)
Fixpoint alternate (n : nat) : list timer :=
  match n with
  | O => [IntervalFires]
  | S n' => IntervalFires :: TimeoutFires 0 :: alternate n'
  end.
End Validation.

Arguments validation : clear implicits.

(** ** The counter service ([counter.service.ts]) *)

Record CounterService := Counter {
  numberOfComparisons : Z;
  numberOfArrayAccess : Z
}.

(** [n++] on a count of [0 .. 2^53]: the numbers are doubles, and
    [2^53 + 1] rounds back to [2^53]. *)
Definition js_succ (n : Z) : Z :=
  if bool_decide (n < 2 ^ 53) then n + 1 else n.

Definition getComparisonCount (this : CounterService) : Z :=
  numberOfComparisons this.

Definition getArrayAccessCount (this : CounterService) : Z :=
  numberOfArrayAccess this.

Definition incrementComparisonCount (this : CounterService) : CounterService :=
  Counter (js_succ (numberOfComparisons this)) (numberOfArrayAccess this).

Definition incrementArrayAccessCount (this : CounterService)
  : CounterService :=
  Counter (numberOfComparisons this) (js_succ (numberOfArrayAccess this)).

Definition reset (this : CounterService) : CounterService := Counter 0 0.

(** A call of the service. *)
Inductive counter_call :=
| Call_incrementComparisonCount
| Call_incrementArrayAccessCount
| Call_reset.

Global Instance counter_call_eq_dec : EqDecision counter_call.
Proof. solve_decision. Defined.

Definition call (this : CounterService) (c : counter_call) : CounterService :=
  match c with
  | Call_incrementComparisonCount => incrementComparisonCount this
  | Call_incrementArrayAccessCount => incrementArrayAccessCount this
  | Call_reset => reset this
  end.

(** ** The root component ([app.component.ts]) *)

(** The component and the service as their field initialisers leave
    them. *)
Definition new_AppComponent : AppComponent := App false 0 0 150.
Definition new_CounterService : CounterService := Counter 0 0.

(** The subscriber of [optionClickedSubj]. *)
Definition onOptionClickedSubj (st : AppComponent * CounterService)
  : AppComponent * CounterService :=
  let '(this, counterService) := st in
  (App true 0 0 (currentArraySize this), reset counterService).

(** The subscriber of [validatedSubj]. *)
Definition onValidatedSubj (this : AppComponent) : AppComponent :=
  App false (arrayAccessCount this) (comparisonCount this)
      (currentArraySize this).

(** [onRangeChange(currentValue)]; the value is emitted on
    [sliderChangeSubj]. *)
Definition onRangeChange (currentValue : Z) (this : AppComponent)
  : AppComponent * Z :=
  (App (optionClicked this) (arrayAccessCount this) (comparisonCount this)
       currentValue,
   currentValue).

(** [onGenerateArray()]: the value emitted on [generateArraySubj]. *)
Definition onGenerateArray (this : AppComponent) : Z :=
  currentArraySize this.

(** What reaches the root component: a value emitted on one of the four
    subjects it subscribes to, or the slider being moved. *)
Inductive app_event :=
| UpdateArrayAccessCount (newCount : Z)
| UpdateComparisonCount (newCount : Z)
| OptionClickedEmitted
| ValidatedEmitted
| RangeChange (currentValue : Z).

Global Instance app_event_eq_dec : EqDecision app_event.
Proof. solve_decision. Defined.

Definition app_react (st : AppComponent * CounterService) (e : app_event)
  : AppComponent * CounterService :=
  match e with
  | UpdateArrayAccessCount newCount => (onArrayAccessCount newCount st.1, st.2)
  | UpdateComparisonCount newCount => (onComparisonCount newCount st.1, st.2)
  | OptionClickedEmitted => onOptionClickedSubj st
  | ValidatedEmitted => (onValidatedSubj st.1, st.2)
  | RangeChange currentValue => ((onRangeChange currentValue st.1).1, st.2)
  end.

(** ** The option buttons ([options.component.ts]) *)

Module Options.
(** A button of the template: whether it carries the class ['active']
    and the attribute ['disabled']. *)
Record button := Button { active : bool; disabled : bool }.

(** The four [ViewChild] elements. *)
Inductive button_ref :=
  bubble_button | merge_button | counting_button | quick_button.

Global Instance button_ref_eq_dec : EqDecision button_ref.
Proof. solve_decision. Defined.

(** The buttons in the document. *)
Record document := Document {
  bubbleSortButton : button;
  mergeSortButton : button;
  countingSortButton : button;
  quickSortButton : button
}.

Definition element (r : button_ref) (doc : document) : button :=
  match r with
  | bubble_button => bubbleSortButton doc
  | merge_button => mergeSortButton doc
  | counting_button => countingSortButton doc
  | quick_button => quickSortButton doc
  end.

Definition render (r : button_ref) (f : button → button) (doc : document)
  : document :=
  match r with
  | bubble_button =>
      Document (f (bubbleSortButton doc)) (mergeSortButton doc)
        (countingSortButton doc) (quickSortButton doc)
  | merge_button =>
      Document (bubbleSortButton doc) (f (mergeSortButton doc))
        (countingSortButton doc) (quickSortButton doc)
  | counting_button =>
      Document (bubbleSortButton doc) (mergeSortButton doc)
        (f (countingSortButton doc)) (quickSortButton doc)
  | quick_button =>
      Document (bubbleSortButton doc) (mergeSortButton doc)
        (countingSortButton doc) (f (quickSortButton doc))
  end.

(** [render.addClass(_, 'active')], [render.removeClass(_, 'active')],
    [render.setAttribute(_, 'disabled', 'true')] and
    [render.removeAttribute(_, 'disabled')]. *)
Definition addClass_active (b : button) : button := Button true (disabled b).
Definition removeClass_active (b : button) : button :=
  Button false (disabled b).
Definition setAttribute_disabled (b : button) : button :=
  Button (active b) true.
Definition removeAttribute_disabled (b : button) : button :=
  Button (active b) false.

Record OptionsComponent := Component {
  activeOptionIndex : option Z;
  currentArraySize : option Z;
  buttonLocalRefs : list button_ref
}.

Definition options : list sort_option :=
  [BubbleSort; MergeSort; CountingSort; QuickSort].

(** The component as its field initialisers leave it. *)
Definition new_OptionsComponent : OptionsComponent := Component None None [].

(** [ngAfterViewInit()] *)
Definition ngAfterViewInit (this : OptionsComponent) : OptionsComponent :=
  Component (activeOptionIndex this) (currentArraySize this)
    [bubble_button; merge_button; counting_button; quick_button].

(** [for (let i = 0; i < this.buttonLocalRefs.length; i++) body] over
    the document. *)
Definition for_buttons (this : OptionsComponent)
    (body : Z → button_ref → document → document) (doc : document)
  : document :=
  for_range 0 (Z.of_nat (length (buttonLocalRefs this)))
    (λ i doc, match buttonLocalRefs this !! Z.to_nat i with
              | Some r => body i r doc
              | None => doc
              end) doc.

(** [onOptionClicked(index)]; returns the option emitted on
    [optionClickedSubj], [None] for [undefined]. *)
Definition onOptionClicked (index : Z) (st : OptionsComponent * document)
  : OptionsComponent * document * option sort_option :=
  let '(this, doc) := st in
  let this := Component (Some index) (currentArraySize this)
                (buttonLocalRefs this) in
  let doc :=
    for_buttons this
      (λ i r doc,
         if bool_decide (i = index) then render r addClass_active doc
         else render r setAttribute_disabled doc) doc in
  (this, doc,
   if bool_decide (0 ≤ index) then options !! Z.to_nat index else None).

(** The subscriber of [validatedSubj]. *)
Definition onValidated (st : OptionsComponent * document)
  : OptionsComponent * document :=
  let '(this, doc) := st in
  let doc :=
    for_buttons this
      (λ i r doc,
         if bool_decide (Some i = activeOptionIndex this)
         then render r removeClass_active doc
         else render r removeAttribute_disabled doc) doc in
  let doc :=
    if js_gt (currentArraySize this) (Some 200)
    then render bubble_button setAttribute_disabled doc
    else doc in
  (this, doc).

(** The subscriber of [sliderChangeSubj]. *)
Definition onSliderChange (st : OptionsComponent * document)
    (currentRangeValue : Z) : OptionsComponent * document :=
  let '(this, doc) := st in
  let this := Component (activeOptionIndex this) (Some currentRangeValue)
                (buttonLocalRefs this) in
  let doc :=
    if js_gt (Some currentRangeValue) (Some 200)
    then render bubble_button setAttribute_disabled doc
    else render bubble_button removeAttribute_disabled doc in
  (this, doc).

(** No sort is running: no button is active, the buttons of merge,
    counting and quick sort are enabled, and the button of bubble sort
    is disabled exactly when the array size is above 200. *)
Definition idle (st : OptionsComponent * document) : Prop :=
  let '(this, doc) := st in
  buttonLocalRefs this =
    [bubble_button; merge_button; counting_button; quick_button] ∧
  (∀ r, active (element r doc) = false) ∧
  (∀ r, r ≠ bubble_button → disabled (element r doc) = false) ∧
  disabled (bubbleSortButton doc) = js_gt (currentArraySize this) (Some 200).

(** The position of a button in [buttonLocalRefs]. *)
Definition position (r : button_ref) : Z :=
  match r with
  | bubble_button => 0
  | merge_button => 1
  | counting_button => 2
  | quick_button => 3
  end.

(** The sort of the button at [index] is running: that button is the
    active one, and of the other buttons of merge, counting and quick
    sort every one is disabled. *)
Definition sorting (index : Z) (st : OptionsComponent * document) : Prop :=
  let '(this, doc) := st in
  buttonLocalRefs this =
    [bubble_button; merge_button; counting_button; quick_button] ∧
  activeOptionIndex this = Some index ∧
  (∀ r, active (element r doc) = bool_decide (position r = index)) ∧
  (∀ r, r ≠ bubble_button →
     disabled (element r doc) = bool_decide (position r ≠ index)) ∧
  (index = 0 →
     disabled (bubbleSortButton doc)
       = js_gt (currentArraySize this) (Some 200)).
End Options.

(** ** Subscriptions of the components *)

(** The subjects of [ArrayService] and [CounterService]. *)
Inductive subject :=
| generateArraySubj
| optionClickedSubj
| sliderChangeSubj
| validatedSubj
| updateComparisonCountSubj
| updateArrayAccessCountSubj.

Global Instance subject_eq_dec : EqDecision subject.
Proof. solve_decision. Defined.

(** The subscriptions that are open, oldest first, each with the
    subject it observes; [next_subscription] numbers the next one. *)
Record subjects := Subjects {
  observers : list (nat * subject);
  next_subscription : nat
}.

(** [subject.subscribe(handler)]: returns the subscription. *)
Definition subscribe (s : subject) (b : subjects) : nat * subjects :=
  (next_subscription b,
   Subjects (observers b ++ [(next_subscription b, s)])
            (S (next_subscription b))).

(** [subscription.unsubscribe()]; on a field that is [undefined] the
    call throws. *)
Definition unsubscribe (subscription : option nat) (b : subjects)
  : outcome subjects :=
  match subscription with
  | Some id =>
      Done (Subjects (filter (λ o, o.1 ≠ id) (observers b))
                     (next_subscription b))
  | None => Threw b
  end.

(** Statements in sequence: a throw ends the method. *)
Definition and_then {S} (o : outcome S) (k : S → outcome S) : outcome S :=
  match o with
  | Done s => k s
  | Threw s => Threw s
  end.

(** The subscription fields of [ArrayVisualizerComponent]. *)
Record visualizer_subscriptions := VisualizerSubscriptions {
  generateArrayClickedSub : option nat;
  optionClickedSub_v : option nat;
  sliderChangedSub : option nat
}.

(** [ArrayVisualizerComponent.ngOnInit()] *)
Definition visualizer_ngOnInit (b : subjects)
  : visualizer_subscriptions * subjects :=
  let '(generateArrayClickedSub, b) := subscribe generateArraySubj b in
  let '(optionClickedSub, b) := subscribe optionClickedSubj b in
  let '(sliderChangedSub, b) := subscribe sliderChangeSubj b in
  (VisualizerSubscriptions (Some generateArrayClickedSub)
     (Some optionClickedSub) (Some sliderChangedSub), b).

(** [ArrayVisualizerComponent.ngOnDestroy()] *)
Definition visualizer_ngOnDestroy (this : visualizer_subscriptions)
    (b : subjects) : outcome subjects :=
  and_then (unsubscribe (generateArrayClickedSub this) b) (λ b,
  and_then (unsubscribe (optionClickedSub_v this) b) (λ b,
  unsubscribe (sliderChangedSub this) b)).

(** The subscription fields of [AppComponent]. *)
Record app_subscriptions := AppSubscriptions {
  comparisonCountSub : option nat;
  arrayAccessCountSub : option nat;
  optionClickedSub : option nat;
  validatedSub : option nat
}.

(** [AppComponent.ngOnInit()], the subscriptions. *)
Definition app_ngOnInit (b : subjects) : app_subscriptions * subjects :=
  let '(arrayAccessCountSub, b) := subscribe updateArrayAccessCountSubj b in
  let '(comparisonCountSub, b) := subscribe updateComparisonCountSubj b in
  let '(optionClickedSub, b) := subscribe optionClickedSubj b in
  let '(validatedSub, b) := subscribe validatedSubj b in
  (AppSubscriptions (Some comparisonCountSub) (Some arrayAccessCountSub)
     (Some optionClickedSub) (Some validatedSub), b).

(** [AppComponent.ngOnDestroy()] *)
Definition app_ngOnDestroy (this : app_subscriptions) (b : subjects)
  : outcome subjects :=
  and_then (unsubscribe (arrayAccessCountSub this) b) (λ b,
  and_then (unsubscribe (comparisonCountSub this) b) (λ b,
  and_then (unsubscribe (optionClickedSub this) b) (λ b,
  unsubscribe (validatedSub this) b))).

(** The subscription field of [OptionsComponent]; the subscription to
    [sliderChangeSubj] is not kept. *)
Record options_subscriptions := OptionsSubscriptions {
  validatedSubscription : option nat
}.

(** [OptionsComponent.ngOnInit()], the subscriptions. *)
Definition options_ngOnInit (b : subjects) : options_subscriptions * subjects :=
  let '(validatedSubscription, b) := subscribe validatedSubj b in
  let '(_, b) := subscribe sliderChangeSubj b in
  (OptionsSubscriptions (Some validatedSubscription), b).

(** [OptionsComponent.ngOnDestroy()] *)
Definition options_ngOnDestroy (this : options_subscriptions) (b : subjects)
  : outcome subjects :=
  unsubscribe (validatedSubscription this) b.

(** [ngOnDestroy()] as the copy of the component in [unnamed/part_000]
    has it: it also unsubscribes [sliderChangeSubscription], a field
    that no method assigns. *)
Definition options_ngOnDestroy_part_000 (this : options_subscriptions)
    (b : subjects) : outcome subjects :=
  let sliderChangeSubscription : option nat := None in
  and_then (unsubscribe (validatedSubscription this) b) (λ b,
  unsubscribe sliderChangeSubscription b).

(** * Specification vocabulary *)

(** ** Ranges of an array *)

(** Every index of [lo..hi] holds a number. *)
Definition defined_on (a : jsarray Z) (lo hi : Z) : Prop :=
  ∀ k, lo ≤ k ≤ hi → is_Some (a !! k).

(** [a'] is [a] with the elements of [lo..hi] permuted. *)
Definition rearranged (a' a : jsarray Z) (lo hi : Z) : Prop :=
  len a' = len a ∧
  (∀ k, ¬ (lo ≤ k ≤ hi) → a' !! k = a !! k) ∧
  slice a' lo (Z.to_nat (hi - lo + 1)) ≡ₚ slice a lo (Z.to_nat (hi - lo + 1)).

(** The numbers at [lo..hi] ascend. *)
Definition sorted_on (a : jsarray Z) (lo hi : Z) : Prop :=
  ∀ i j x y, lo ≤ i → i ≤ j → j ≤ hi →
    a !! i = Some x → a !! j = Some y → x ≤ y.

(** ** Replay of a log on a display *)

Section Replay.
Context {Width Height Color : Type}.
Abbreviation bin := (bin Width Height Color).

(** The moves of a log applied oldest first, with the number of ticks
    that threw. *)
Definition replay (act : Move → jsarray bin → outcome (jsarray bin))
    (ms : list Move) (s : jsarray bin * nat) : jsarray bin * nat :=
  foldl (λ s m, let r := act m s.1 in
                (state_of r, if threw r then S s.2 else s.2)) s ms.

(** The display shows the array: a bin wherever the array holds a
    number, with that number as its value. *)
Definition mirror (d : jsarray bin) (a : jsarray Z) : Prop :=
  len d = len a ∧ ∀ k, value <$> (d !! k) = Some <$> (a !! k).

(** The values shown, by index. *)
Definition shown (d : jsarray bin) : list (option Z) :=
  (λ b, b ≫= value) <$> items d.

(** The log from [animations] to [animations'] takes a display of [a]
    to a display of [a'] without a throw. *)
Definition recorded (act : Move → jsarray bin → outcome (jsarray bin))
    (a : jsarray Z) (animations : list Move)
    (a' : jsarray Z) (animations' : list Move) : Prop :=
  ∃ ms, animations' = animations ++ ms ∧
    ∀ d e, mirror d a → ∃ d', replay act ms (d, e) = (d', e) ∧ mirror d' a'.
End Replay.

(** ** Logs of the copy-based sorts *)

(** The moves [merge] records for writing [M] from index [lo] on. *)
Definition merge_moves (lo : Z) (M : list Z) : list Move :=
  imap (λ n v, MergeSet (lo + Z.of_nat n) (Some v)) M.

(** How many numbers of [l] are below, equal to, or at most [v]. *)
Definition count_lt (v : Z) (l : list Z) : Z :=
  Z.of_nat (length (filter (λ x, x < v) l)).
Definition count_eq (v : Z) (l : list Z) : Z :=
  Z.of_nat (length (filter (λ x, x = v) l)).
Definition count_le (v : Z) (l : list Z) : Z :=
  Z.of_nat (length (filter (λ x, x ≤ v) l)).

(** The slot of a stable sort for the element at index [i]: after the
    smaller numbers and the equal numbers that come before it. *)
Definition slot (l : list Z) (i : nat) : Z :=
  match l !! i with
  | Some v => count_lt v l + count_eq v (take i l)
  | None => 0
  end.

(** The counting table holds [f k] at every [k] of [0 .. mx], and nothing
    else. *)
Definition table (count : jsarray jsnum) (mx : Z) (f : Z → Z) : Prop :=
  len count = mx + 1 ∧
  ∀ k, count !! k = if decide (0 ≤ k ≤ mx) then Some (Num (f k)) else None.

(** The moves [countingSort] records on [l]: the last element first. *)
Definition counting_moves (l : list Z) : list Move :=
  (λ i, CountingSet (Num (slot l i)) (l !! i)) <$> reverse (seq 0 (length l)).

(** The moves of the last [n] elements, the last one first. *)
Definition placed (l : list Z) (n : nat) : list Move :=
  (λ i, CountingSet (Num (slot l i)) (l !! i))
    <$> reverse (seq (length l - n) n).

(** * The claims' vocabulary *)

(** The state of [bubbleSort] after the passes with outer index
    [array.length - 1] down to [i]. *)
Definition bubbleSort_until (array : jsarray Z) (animations : list Move)
    (i : Z) : jsarray Z * list Move :=
  for_down (len array - 1) i
    (λ i st, bubble (fst st) (snd st) 0 i) (array, animations).

(** The target index of a placement. *)
Definition target (m : Move) : option Z :=
  match m with
  | CountingSet (Num p) _ => Some p
  | _ => None
  end.

Section claims.
Context {Width Height Color : Type}.
Variable heightScale : option Z → Height.
Variable colorScale : Height → Color.

(** Clicking option [o] on a component whose display shows the array
    [l] sorts the array, and playing the reversed log to the end leaves
    the display showing the reference sort of [l]. *)
Definition sorts_by_replay (o : sort_option) (l : list Z) : Prop :=
  ∀ (this : component Width Height Color) (getArray : list Z) (fuel : nat),
    generatedArray this = array_of l →
    mirror (binDimensions this) (array_of l) →
    (length l + 3 ≤ fuel)%nat →
    ∃ this',
      onOptionClicked fuel o getArray this = Some this' ∧
      generatedArray this' = array_of (merge_sort Z.le l) ∧
      let final := play heightScale colorScale o this' in
      shown (binDimensions final) = Some <$> merge_sort Z.le l ∧
      uncaught final = uncaught this ∧
      animations final = [] ∧ cleared final = true.
End claims.

(** * Vocabulary of the further properties *)

(** Every element of the array lies below its length. *)
Definition well_formed {A} (a : jsarray A) : Prop :=
  ∀ k, is_Some (a !! k) → k < len a.

(** The inversions of [l]: the pairs of positions whose numbers
    descend. *)
Fixpoint inversions (l : list Z) : nat :=
  match l with
  | [] => 0
  | x :: l' => length (filter (λ y, y < x) l') + inversions l'
  end.

(** The state of a bubble sort of [l] that has paid one inversion for
    each move it recorded. *)
Definition paid (l : list Z) (animations : list Move)
    (st : jsarray Z * list Move) : Prop :=
  ∃ l', st.1 = array_of l' ∧ length l' = length l ∧
        (inversions l' + length st.2 = inversions l + length animations)%nat.



(** The moves [mergeSort] records on a range of [n] indices, with the
    recursion bounded as in [mergeSort]: one per index for every merge,
    of a left half of [(n + 1) / 2] and a right half of [n / 2]
    indices. *)
Fixpoint merge_log_length (fuel : nat) (n : Z) : Z :=
  match fuel with
  | O => 0
  | S fuel' =>
    if bool_decide (n ≤ 1) then 0
    else merge_log_length fuel' ((n + 1) `div` 2)
         + merge_log_length fuel' (n `div` 2) + n
  end.

(** How often [c] is called in [cs]. *)
Definition calls_of (c : counter_call) (cs : list counter_call) : Z :=
  Z.of_nat (length (filter (λ c', c' = c) cs)).

(** The counts emitted on [updateArrayAccessCountSubj], and the values
    of the slider, in the order of the events. *)
Definition access_updates (es : list app_event) : list Z :=
  omap (λ e, match e with UpdateArrayAccessCount n => Some n | _ => None end)
       es.

Definition range_changes (es : list app_event) : list Z :=
  omap (λ e, match e with RangeChange v => Some v | _ => None end) es.

(** The subscriptions of [b] are numbered below [next_subscription]. *)
Definition numbered (b : subjects) : Prop :=
  Forall (λ o, (o.1 < next_subscription b)%nat) (observers b).

Section display_vocabulary.
Context {Width Height Color : Type}.
Variable green : Color.
Abbreviation bin := (bin Width Height Color).
Abbreviation validation := (validation Width Height Color).

(** The bin [b] in the colour [c]. *)
Definition recolor (c : Color) (b : bin) : bin :=
  Bin (value b) (width b) (height b) c.

(** The animation in flight on the display [d0]: the bins with a
    pending timeout are green, all others are as in [d0]; every record
    still queued or pending names a bin of [d0] once, with the colour
    it has there. *)
Definition in_flight (d0 : jsarray bin) (s : validation) : Prop :=
  len (v_binDimensions s) = len d0 ∧
  NoDup ((v_validationAnimations s).*1 ++ (timeouts s).*1) ∧
  (∀ i c, (i, c) ∈ v_validationAnimations s ++ timeouts s →
     ∃ b, d0 !! i = Some b ∧ color b = c) ∧
  (∀ k, v_binDimensions s !! k =
     if decide (k ∈ (timeouts s).*1) then recolor green <$> d0 !! k
     else d0 !! k) ∧
  v_uncaught s = 0%nat ∧
  validated s = (if running s then 0%nat else 1%nat) ∧
  (running s = false → v_validationAnimations s = []).

(** A display with the bins of [d] at the same indices and in the same
    widths. *)
Definition same_bins (d' d : jsarray bin) : Prop :=
  len d' = len d ∧ ∀ k, width <$> d' !! k = width <$> d !! k.
End display_vocabulary.

(** * Proofs *)

(** ** Arrays *)

Section arrays.
Context {A : Type}.
Implicit Types (a b : jsarray A) (i j k : Z) (v : option A).

Lemma lookup_unfold a i : a !! i = elems a !! i.
Proof. reflexivity. Qed.

Lemma jsarray_eq a b :
  len a = len b → (∀ i, a !! i = b !! i) → a = b.
Proof.
  destruct a as [ea la], b as [eb lb]; simpl; intros -> H.
  f_equal. apply map_eq, H.
Qed.

Lemma lookup_store a i v j :
  store a i v !! j = if decide (i = j) then v else a !! j.
Proof.
  rewrite !lookup_unfold. unfold store; simpl.
  destruct v; case_decide; subst;
    rewrite ?lookup_insert_eq, ?lookup_delete_eq,
      ?lookup_insert_ne, ?lookup_delete_ne; done.
Qed.

Lemma lookup_store_eq a i v : store a i v !! i = v.
Proof. rewrite lookup_store. by rewrite decide_True. Qed.

Lemma lookup_store_ne a i v j : i ≠ j → store a i v !! j = a !! j.
Proof. intros. rewrite lookup_store. by rewrite decide_False. Qed.

Lemma len_store a i v :
  len (store a i v) = if bool_decide (len a ≤ i) then i + 1 else len a.
Proof. reflexivity. Qed.

Lemma len_store_lt a i v : i < len a → len (store a i v) = len a.
Proof. intros. rewrite len_store, bool_decide_eq_false_2; [done | lia]. Qed.

Lemma lookup_swap a i j k :
  swap a i j !! k =
    if decide (k = j) then a !! i
    else if decide (k = i) then a !! j else a !! k.
Proof.
  unfold swap. rewrite !lookup_store.
  repeat case_decide; subst; done.
Qed.

Lemma len_swap a i j :
  i < len a → j < len a → len (swap a i j) = len a.
Proof.
  intros. unfold swap. rewrite len_store_lt; rewrite len_store_lt; done.
Qed.

Lemma swap_same_len a (B : Type) (d : jsarray B) i j :
  len d = len a → len (swap d i j) = len (swap a i j).
Proof. intros H. unfold swap, store; simpl. by rewrite H. Qed.

Lemma lookup_array_of (l : list A) i :
  array_of l !! i = if decide (0 ≤ i) then l !! Z.to_nat i else None.
Proof.
  rewrite lookup_unfold; simpl. rewrite lookup_map_seqZ.
  case_decide.
  - by rewrite option_guard_True, Z.sub_0_r.
  - by rewrite option_guard_False.
Qed.

Lemma lookup_array_of_nat (l : list A) (n : nat) :
  array_of l !! Z.of_nat n = l !! n.
Proof.
  rewrite lookup_array_of, decide_True by lia. by rewrite Nat2Z.id.
Qed.

Lemma len_array_of (l : list A) : len (array_of l) = Z.of_nat (length l).
Proof. reflexivity. Qed.

Lemma lookup_empty_array i : (empty_array : jsarray A) !! i = None.
Proof. rewrite lookup_unfold. apply lookup_empty. Qed.

Lemma length_slice a lo n : length (slice a lo n) = n.
Proof. unfold slice. rewrite length_fmap, length_seqZ. lia. Qed.

Lemma lookup_slice a lo n (m : nat) :
  (m < n)%nat → slice a lo n !! m = Some (a !! (lo + Z.of_nat m)).
Proof.
  intros. unfold slice. rewrite list_lookup_fmap.
  rewrite (lookup_seqZ_lt _ _ _) by lia. done.
Qed.

Lemma slice_0 a lo : slice a lo 0 = [].
Proof. reflexivity. Qed.

Lemma slice_S a lo n : slice a lo (S n) = a !! lo :: slice a (lo + 1) n.
Proof.
  unfold slice. rewrite Nat2Z.inj_succ, seqZ_cons by lia.
  rewrite fmap_cons. do 3 f_equal; lia.
Qed.

Lemma slice_app a lo n m :
  slice a lo (n + m) = slice a lo n ++ slice a (lo + Z.of_nat n) m.
Proof.
  revert lo. induction n as [|n IH]; intros lo; simpl.
  - f_equal; lia.
  - rewrite !slice_S, IH. simpl. do 3 f_equal. lia.
Qed.

Lemma slice_snoc a lo n :
  slice a lo (S n) = slice a lo n ++ [a !! (lo + Z.of_nat n)].
Proof.
  replace (S n) with (n + 1)%nat by lia. rewrite slice_app.
  by rewrite slice_S, slice_0.
Qed.

Lemma slice_ext a b lo n :
  (∀ k, lo ≤ k < lo + Z.of_nat n → a !! k = b !! k) →
  slice a lo n = slice b lo n.
Proof.
  intros H. apply list_eq; intros m.
  destruct (decide (m < n)%nat).
  - rewrite !lookup_slice by done. f_equal. apply H. lia.
  - rewrite !lookup_ge_None_2; [done | rewrite length_slice; lia ..].
Qed.

Lemma slice_Forall (P : option A → Prop) a lo n :
  Forall P (slice a lo n) ↔ ∀ k, lo ≤ k < lo + Z.of_nat n → P (a !! k).
Proof.
  rewrite Forall_lookup. split.
  - intros H k Hk. apply (H (Z.to_nat (k - lo))).
    rewrite lookup_slice by lia. do 2 f_equal. lia.
  - intros H m x Hm.
    assert (m < n)%nat.
    { apply lookup_lt_Some in Hm. by rewrite length_slice in Hm. }
    rewrite lookup_slice in Hm by done. injection Hm as <-. apply H. lia.
Qed.

Lemma items_slice a : items a = slice a 0 (Z.to_nat (len a)).
Proof.
  unfold items, slice. destruct (decide (0 ≤ len a)).
  - by rewrite Z2Nat.id.
  - rewrite !seqZ_nil; [done | lia ..].
Qed.

Lemma slice_array_of (l : list A) :
  slice (array_of l) 0 (length l) = Some <$> l.
Proof.
  apply list_eq; intros m. rewrite list_lookup_fmap.
  destruct (decide (m < length l)%nat).
  - rewrite lookup_slice by done. rewrite Z.add_0_l, lookup_array_of_nat.
    by destruct (lookup_lt_is_Some_2 l m) as [x ->].
  - rewrite !lookup_ge_None_2; [done | lia | rewrite length_slice; lia].
Qed.

Lemma items_array_of (l : list A) : items (array_of l) = Some <$> l.
Proof.
  rewrite items_slice, len_array_of, Nat2Z.id. apply slice_array_of.
Qed.

(** Exchanging two slots of a range permutes the range. *)
Lemma slice_swap a lo n i j :
  lo ≤ i < lo + Z.of_nat n → lo ≤ j < lo + Z.of_nat n →
  slice (swap a i j) lo n ≡ₚ slice a lo n.
Proof.
  intros Hi Hj. apply Permutation_inj. split.
  { by rewrite !length_slice. }
  set (i' := Z.to_nat (i - lo)). set (j' := Z.to_nat (j - lo)).
  exists (λ m, if decide (m = j') then i'
               else if decide (m = i') then j' else m).
  split.
  - intros x y. repeat case_decide; lia.
  - intros m. subst i' j'. destruct (decide (m < n)%nat).
    + rewrite lookup_slice by done. rewrite lookup_swap.
      repeat case_decide; try lia;
        (rewrite lookup_slice by lia); f_equal; f_equal; lia.
    + rewrite lookup_ge_None_2 by (rewrite length_slice; lia).
      rewrite decide_False, decide_False by lia.
      by rewrite lookup_ge_None_2 by (rewrite length_slice; lia).
Qed.
End arrays.

Lemma js_gt_Some (u v : Z) : js_gt (Some u) (Some v) = bool_decide (v < u).
Proof. reflexivity. Qed.

Lemma js_le_Some (u v : Z) : js_le (Some u) (Some v) = bool_decide (u ≤ v).
Proof. reflexivity. Qed.

(** ** Loops *)

Section loops.
Context {S : Type}.
Implicit Types (body : Z → S → S) (s : S).

Lemma for_up_snoc n i body s :
  for_up (Datatypes.S n) i body s =
    body (i + Z.of_nat n) (for_up n i body s).
Proof.
  revert i s. induction n as [|n IH]; intros i s.
  - simpl. f_equal. lia.
  - change (for_up (Datatypes.S (Datatypes.S n)) i body s)
      with (for_up (Datatypes.S n) (i + 1) body (body i s)).
    rewrite IH. f_equal. lia.
Qed.

(** The invariant rule of a counted loop. *)
Lemma for_range_inv (I : Z → S → Prop) from to body s :
  from ≤ to →
  I from s →
  (∀ k s, from ≤ k < to → I k s → I (k + 1) (body k s)) →
  I to (for_range from to body s).
Proof.
  intros Hle H0 Hstep. unfold for_range.
  replace to with (from + Z.of_nat (Z.to_nat (to - from))) at 1 by lia.
  assert (Hn : from + Z.of_nat (Z.to_nat (to - from)) ≤ to) by lia.
  revert Hn. generalize (Z.to_nat (to - from)) as n.
  induction n as [|n IH]; intros Hn.
  - simpl. by rewrite Z.add_0_r.
  - rewrite for_up_snoc.
    replace (from + Z.of_nat (Datatypes.S n))
      with (from + Z.of_nat n + 1) by lia.
    apply Hstep; [lia|]. apply IH. lia.
Qed.

Lemma for_range_empty from to body s :
  to ≤ from → for_range from to body s = s.
Proof.
  intros. unfold for_range. by replace (Z.to_nat (to - from)) with 0%nat by lia.
Qed.

Lemma for_down_n_snoc n i body s :
  for_down_n (Datatypes.S n) i body s =
    body (i - Z.of_nat n) (for_down_n n i body s).
Proof.
  revert i s. induction n as [|n IH]; intros i s.
  - simpl. f_equal. lia.
  - change (for_down_n (Datatypes.S (Datatypes.S n)) i body s)
      with (for_down_n (Datatypes.S n) (i - 1) body (body i s)).
    rewrite IH. f_equal. lia.
Qed.

(** The invariant rule of a descending loop: [I k] holds before the
    round with index [k]. *)
Lemma for_down_inv (I : Z → S → Prop) from to body s :
  to - 1 ≤ from →
  I from s →
  (∀ k s, to ≤ k ≤ from → I k s → I (k - 1) (body k s)) →
  I (to - 1) (for_down from to body s).
Proof.
  intros Hle H0 Hstep. unfold for_down.
  replace (to - 1) with (from - Z.of_nat (Z.to_nat (from - to + 1))) at 1
    by lia.
  assert (Hn : to - 1 ≤ from - Z.of_nat (Z.to_nat (from - to + 1))) by lia.
  revert Hn. generalize (Z.to_nat (from - to + 1)) as n.
  induction n as [|n IH]; intros Hn.
  - simpl. by rewrite Z.sub_0_r.
  - rewrite for_down_n_snoc.
    replace (from - Z.of_nat (Datatypes.S n))
      with (from - Z.of_nat n - 1) by lia.
    apply Hstep; [lia|]. apply IH. lia.
Qed.

Lemma for_down_empty from to body s :
  from < to → for_down from to body s = s.
Proof.
  intros. unfold for_down.
  by replace (Z.to_nat (from - to + 1)) with 0%nat by lia.
Qed.
End loops.

(** ** Rearranged and sorted ranges *)

Section ranges.
Implicit Types (a b c : jsarray Z) (lo hi i j k : Z).

Lemma rearranged_refl a lo hi : rearranged a a lo hi.
Proof. by split_and!. Qed.

Lemma rearranged_trans a b c lo hi :
  rearranged a b lo hi → rearranged b c lo hi → rearranged a c lo hi.
Proof.
  intros (?&H1&?) (?&H2&?). split_and!.
  - congruence.
  - intros k Hk. rewrite H1, H2; done.
  - by etrans.
Qed.

Lemma rearranged_swap a lo hi i j :
  lo ≤ i ≤ hi → lo ≤ j ≤ hi → hi < len a →
  rearranged (swap a i j) a lo hi.
Proof.
  intros Hi Hj Hlen. split_and!.
  - apply len_swap; lia.
  - intros k Hk. rewrite lookup_swap.
    rewrite decide_False, decide_False by lia. done.
  - apply slice_swap; lia.
Qed.

Lemma rearranged_widen a b lo hi lo' hi' :
  lo' ≤ lo → hi ≤ hi' →
  rearranged a b lo hi → rearranged a b lo' hi'.
Proof.
  intros Hlo Hhi (Hlen&Hout&Hperm). split_and!; [done| |].
  { intros k Hk. apply Hout. lia. }
  destruct (decide (lo ≤ hi + 1)) as [Hne|Hempty].
  - replace (Z.to_nat (hi' - lo' + 1))
      with (Z.to_nat (lo - lo') + (Z.to_nat (hi - lo + 1)
              + Z.to_nat (hi' - hi)))%nat by lia.
    rewrite !slice_app.
    replace (lo' + Z.of_nat (Z.to_nat (lo - lo'))) with lo by lia.
    rewrite (slice_ext a b lo'), (slice_ext a b (lo + _)), Hperm; [done|..];
      intros k Hk; apply Hout; lia.
  - rewrite (slice_ext a b lo'); [done|].
    intros k Hk. apply Hout. lia.
Qed.

(** A property of all elements of the range is kept. *)
Lemma rearranged_Forall (P : option Z → Prop) a b lo hi :
  rearranged a b lo hi →
  (∀ k, lo ≤ k ≤ hi → P (b !! k)) → ∀ k, lo ≤ k ≤ hi → P (a !! k).
Proof.
  intros (_&_&Hperm) Hb k Hk.
  assert (HF : Forall P (slice a lo (Z.to_nat (hi - lo + 1)))).
  { rewrite Hperm. apply slice_Forall. intros ??. apply Hb. lia. }
  rewrite slice_Forall in HF. apply HF. lia.
Qed.

Lemma rearranged_defined a b lo hi :
  rearranged a b lo hi → defined_on b lo hi → defined_on a lo hi.
Proof. intros H Hb k Hk. by apply (rearranged_Forall is_Some a b lo hi). Qed.

Lemma rearranged_sym a b lo hi :
  rearranged a b lo hi → rearranged b a lo hi.
Proof.
  intros (?&H1&?). split_and!; [done| |done].
  intros k Hk. by rewrite H1.
Qed.
End ranges.

(** ** Replay and the display *)

Section replay_proofs.
Context {Width Height Color : Type}.
Variable heightScale : option Z → Height.
Variable colorScale : Height → Color.
Abbreviation bin := (bin Width Height Color).
Implicit Types (act : Move → jsarray bin → outcome (jsarray bin)).
Implicit Types (d : jsarray bin) (a : jsarray Z).

Lemma replay_app act ms1 ms2 s :
  replay act (ms1 ++ ms2) s = replay act ms2 (replay act ms1 s).
Proof. apply foldl_app. Qed.

Lemma recorded_refl act a animations : recorded act a animations a animations.
Proof.
  exists []. rewrite app_nil_r. split; [done|]. intros d e ?. by exists d.
Qed.

Lemma recorded_trans act a0 l0 a1 l1 a2 l2 :
  recorded act a0 l0 a1 l1 → recorded act a1 l1 a2 l2 →
  recorded act a0 l0 a2 l2.
Proof.
  intros (ms1&->&H1) (ms2&->&H2). exists (ms1 ++ ms2).
  split; [by rewrite app_assoc|]. intros d e Hd.
  destruct (H1 d e Hd) as (d1&E1&Hd1).
  destruct (H2 d1 e Hd1) as (d2&E2&Hd2).
  exists d2. by rewrite replay_app, E1, E2.
Qed.

Lemma mirror_swap d a i j : mirror d a → mirror (swap d i j) (swap a i j).
Proof.
  intros [Hlen Hv]. split.
  - by apply swap_same_len.
  - intros k. rewrite !lookup_swap. repeat case_decide; apply Hv.
Qed.

Lemma mirror_set d a k x :
  mirror d a → is_Some (a !! k) →
  ∃ d', calculateBinDimension heightScale colorScale k (Some x) d = Done d' ∧
        mirror d' (store a k (Some x)).
Proof.
  intros [Hlen Hv] [y Hy]. unfold calculateBinDimension.
  pose proof (Hv k) as Hk. rewrite Hy in Hk.
  destruct (d !! k) as [b|] eqn:Hb; [|done].
  eexists; split; [done|]. split.
  - rewrite !len_store. by rewrite Hlen.
  - intros k'. rewrite !lookup_store. case_decide; [done|apply Hv].
Qed.

Lemma mirror_shown d a : mirror d a → shown d = items a.
Proof.
  intros [Hlen Hv]. unfold shown, items. rewrite Hlen, <-list_fmap_compose.
  apply list_fmap_ext. intros _ k _. simpl.
  specialize (Hv k). destruct (d !! k), (a !! k); simplify_eq/=; done.
Qed.

Lemma lookup_calculateBinDimensions (w : Width) (a : jsarray Z) k :
  value <$> (calculateBinDimensions heightScale colorScale w a !! k) =
    if decide (0 ≤ k < len a) then Some (a !! k) else None.
Proof.
  unfold calculateBinDimensions.
  set (body := λ i binDimensions, store binDimensions i _).
  destruct (decide (0 ≤ len a)) as [Hlen|Hlen]; cycle 1.
  { rewrite for_range_empty by lia. rewrite lookup_empty_array.
    by rewrite decide_False by lia. }
  refine (for_range_inv (λ i d, ∀ k,
           value <$> (d !! k) =
             if decide (0 ≤ k < i) then Some (a !! k) else None)
           0 (len a) body empty_array Hlen _ _ k); clear k.
  - intros k. rewrite lookup_empty_array. by rewrite decide_False by lia.
  - intros i d Hi Hd k. unfold body. rewrite lookup_store.
    case_decide; subst.
    + by rewrite decide_True by lia.
    + rewrite Hd. repeat case_decide; try done; lia.
Qed.

Lemma len_calculateBinDimensions (w : Width) (a : jsarray Z) :
  0 ≤ len a → len (calculateBinDimensions heightScale colorScale w a) = len a.
Proof.
  intros Hlen. unfold calculateBinDimensions.
  set (body := λ i binDimensions, store binDimensions i _).
  refine (for_range_inv (λ i d, len d = i) 0 (len a) body empty_array
            Hlen _ _); [done|].
  intros i d Hi Hd. unfold body. rewrite len_store.
  rewrite bool_decide_eq_true_2; lia.
Qed.

Lemma mirror_calculateBinDimensions (w : Width) (l : list Z) :
  mirror (calculateBinDimensions heightScale colorScale w (array_of l))
         (array_of l).
Proof.
  split.
  - apply len_calculateBinDimensions. rewrite len_array_of. lia.
  - intros k. rewrite lookup_calculateBinDimensions, len_array_of.
    rewrite lookup_array_of. repeat case_decide; try lia.
    + destruct (lookup_lt_is_Some_2 l (Z.to_nat k)) as [x ->]; [lia|done].
    + by rewrite lookup_ge_None_2 by lia.
    + done.
Qed.
End replay_proofs.

(** ** Bubble sort *)

Section bubble_proofs.
Implicit Types (a : jsarray Z) (lo hi i j k : Z).

(** One pass: the range is permuted and its maximum ends at [hi]. *)
Lemma bubble_pass a animations lo hi :
  lo ≤ hi → hi < len a → defined_on a lo hi →
  rearranged (bubble a animations lo hi).1 a lo hi ∧
  ∀ k x y, lo ≤ k ≤ hi →
    (bubble a animations lo hi).1 !! k = Some x →
    (bubble a animations lo hi).1 !! hi = Some y → x ≤ y.
Proof.
  intros Hle Hlen Hdef. unfold bubble.
  refine (for_range_inv (λ i st,
            rearranged st.1 a lo hi ∧
            ∀ k x y, lo ≤ k ≤ i → st.1 !! k = Some x →
                     st.1 !! i = Some y → x ≤ y)
            lo hi bubble_body (a, animations) Hle _ _).
  - split; [apply rearranged_refl|]. simpl. intros k x y Hk Hx Hy.
    assert (k = lo) as -> by lia. simplify_eq. lia.
  - intros i [a1 l1] Hi [Hre Hmax]; simpl in *.
    pose proof (rearranged_defined _ _ _ _ Hre Hdef) as Hdef1.
    destruct (Hdef1 i) as [u Hu]; [lia|].
    destruct (Hdef1 (i + 1)) as [v Hv]; [lia|].
    rewrite Hu, Hv, js_gt_Some. case_bool_decide; simpl.
    + split.
      * eapply rearranged_trans; [|done].
        apply rearranged_swap; destruct Hre; lia.
      * intros k x y Hk. rewrite !lookup_swap.
        rewrite (decide_True (P := i + 1 = i + 1)) by done.
        rewrite Hu. intros Hx [= <-].
        repeat case_decide; simplify_eq; try lia.
        eapply Hmax; [|done|done]. lia.
    + split; [done|]. intros k x y Hk Hx Hy. simplify_eq.
      destruct (decide (k = i + 1)) as [->|]; [simplify_eq; lia|].
      trans u; [|lia]. eapply Hmax; [|done|done]. lia.
Qed.

(** The passes with outer index [len - 1] down to [i]. *)
Lemma bubbleSort_passes a animations i :
  1 ≤ i → i ≤ len a → defined_on a 0 (len a - 1) →
  let a' := (for_down (len a - 1) i
               (λ i st, bubble st.1 st.2 0 i) (a, animations)).1 in
  rearranged a' a 0 (len a - 1) ∧
  sorted_on a' i (len a - 1) ∧
  (∀ p q x y, 0 ≤ p < i → i ≤ q < len a →
     a' !! p = Some x → a' !! q = Some y → x ≤ y).
Proof.
  intros Hi Hlen Hdef. simpl.
  pose proof (for_down_inv (λ k st,
            rearranged st.1 a 0 (len a - 1) ∧
            sorted_on st.1 (k + 1) (len a - 1) ∧
            (∀ p q x y, 0 ≤ p < k + 1 → k + 1 ≤ q < len a →
               st.1 !! p = Some x → st.1 !! q = Some y → x ≤ y))
            (len a - 1) i (λ i st, bubble st.1 st.2 0 i) (a, animations))
    as Hinv.
  cbv beta in Hinv. replace (i - 1 + 1) with i in Hinv by lia.
  apply Hinv; clear Hinv; [lia|..].
  - split_and!; [apply rearranged_refl|..].
    + intros p q x y ???. lia.
    + intros; lia.
  - intros k [a1 l1] Hk (Hre&Hsort&Hsplit); simpl in *.
    pose proof (rearranged_defined _ _ _ _ Hre Hdef) as Hdef1.
    assert (Hlen1 : len a1 = len a) by apply Hre.
    destruct (bubble_pass a1 l1 0 k) as [Hre2 Hmax]; [lia|lia| |].
    { intros ??. apply Hdef1. lia. }
    set (a2 := (bubble a1 l1 0 k).1) in *.
    assert (Hout : ∀ q, k < q → a2 !! q = a1 !! q).
    { intros q Hq. apply Hre2. lia. }
    (* every element of the pass's range was in the range before *)
    assert (Hin : ∀ p q x y, 0 ≤ p ≤ k → k < q < len a →
              a2 !! p = Some x → a1 !! q = Some y → x ≤ y).
    { intros p q x y Hp Hq Hx Hy.
      apply (rearranged_Forall
               (λ v, ∀ x, v = Some x → x ≤ y) a2 a1 0 k Hre2) with p;
        [|lia|done].
      intros p' Hp' x' Hx'. eapply Hsplit; [| |done|done]; lia. }
    split_and!.
    + eapply rearranged_trans; [|done].
      eapply rearranged_widen; [| |done]; lia.
    + replace (k - 1 + 1) with k by lia.
      intros p q x y Hp Hpq Hq Hx Hy.
      destruct (decide (p = k)) as [->|].
      * destruct (decide (q = k)) as [->|]; [simplify_eq; lia|].
        rewrite Hout in Hy by lia. eapply Hin; [| |done|done]; lia.
      * rewrite !Hout in * by lia. eapply Hsort; [| | |done|done]; lia.
    + replace (k - 1 + 1) with k by lia.
      intros p q x y Hp Hq Hx Hy.
      destruct (decide (q = k)) as [->|].
      * eapply Hmax; [|done|done]. lia.
      * rewrite Hout in Hy by lia. eapply Hin; [| |done|done]; lia.
Qed.
End bubble_proofs.

(** ** From a sorted range to the reference sort *)

Section reference.
Implicit Types (a : jsarray Z) (l : list Z).

Lemma Forall_is_Some_fmap {A} (xs : list (option A)) :
  Forall is_Some xs → ∃ ys : list A, xs = Some <$> ys.
Proof.
  induction 1 as [|o xs [x ->] _ [ys ->]].
  - by exists [].
  - by exists (x :: ys).
Qed.

Lemma fmap_Some_Permutation {A} (xs ys : list A) :
  Some <$> xs ≡ₚ Some <$> ys → xs ≡ₚ ys.
Proof.
  intros H. apply (omap_Permutation id) in H.
  assert (E : ∀ zs : list A, omap id (Some <$> zs) = zs).
  { induction zs as [|x zs IH]; simpl; [done|]. by f_equal. }
  by rewrite !E in H.
Qed.

Lemma StronglySorted_pointwise l :
  (∀ (i j : nat) x y, (i ≤ j)%nat → l !! i = Some x → l !! j = Some y → x ≤ y) →
  StronglySorted Z.le l.
Proof.
  induction l as [|x l IH]; intros H; constructor.
  - apply IH. intros i j u v Hij Hu Hv.
    apply (H (S i) (S j)); [lia|done|done].
  - apply Forall_lookup. intros j y Hy.
    apply (H 0%nat (S j)); [lia|done|done].
Qed.

(** An array that rearranges a dense array is dense, and holds a
    permutation of its elements. *)
Lemma rearranged_array_of l a lo hi :
  0 ≤ lo → hi < Z.of_nat (length l) →
  rearranged a (array_of l) lo hi →
  ∃ l', a = array_of l' ∧ l' ≡ₚ l.
Proof.
  intros Hlo Hhi Hre.
  apply (rearranged_widen _ _ _ _ 0 (Z.of_nat (length l) - 1)) in Hre;
    [|lia..].
  destruct Hre as (Hlen&Hout&Hperm).
  replace (Z.to_nat (Z.of_nat (length l) - 1 - 0 + 1)) with (length l)
    in Hperm by lia.
  rewrite slice_array_of in Hperm.
  destruct (Forall_is_Some_fmap (slice a 0 (length l))) as [l' Hl'].
  { rewrite Hperm. apply Forall_fmap, Forall_true. by eexists. }
  rewrite Hl' in Hperm. apply fmap_Some_Permutation in Hperm.
  assert (Hlen' : length l' = length l) by by apply Permutation_length.
  exists l'. split; [|done].
  assert (Hlk : ∀ n : nat, (n < length l)%nat → a !! Z.of_nat n = l' !! n).
  { intros n Hn.
    assert (E : slice a 0 (length l) !! n = (Some <$> l') !! n)
      by by rewrite Hl'.
    rewrite lookup_slice, list_lookup_fmap in E by done.
    rewrite Z.add_0_l in E.
    destruct (lookup_lt_is_Some_2 l' n) as [x Hx]; [lia|].
    rewrite Hx in E |- *. simpl in E. congruence. }
  apply jsarray_eq.
  - by rewrite Hlen, !len_array_of, Hlen'.
  - intros k. destruct (decide (0 ≤ k ≤ Z.of_nat (length l) - 1)) as [Hk|Hk].
    + replace k with (Z.of_nat (Z.to_nat k)) by lia.
      rewrite Hlk, lookup_array_of_nat by lia. done.
    + rewrite Hout by done. rewrite !lookup_array_of.
      case_decide; [|done]. rewrite !lookup_ge_None_2 by lia. done.
Qed.

Lemma sorted_on_array_of l lo hi :
  0 ≤ lo → hi = Z.of_nat (length l) - 1 →
  sorted_on (array_of l) lo hi → lo = 0 → StronglySorted Z.le l.
Proof.
  intros _ -> Hsort ->. apply StronglySorted_pointwise.
  intros i j x y Hij Hx Hy.
  pose proof (lookup_lt_Some _ _ _ Hx). pose proof (lookup_lt_Some _ _ _ Hy).
  apply (Hsort (Z.of_nat i) (Z.of_nat j)); [lia|lia|lia| |].
  - by rewrite lookup_array_of_nat.
  - by rewrite lookup_array_of_nat.
Qed.

(** An array whose indices [0 .. length-1] hold the numbers of [l]
    rearranged in ascending order is the sorted array. *)
Lemma sorted_array_of l a :
  rearranged a (array_of l) 0 (Z.of_nat (length l) - 1) →
  sorted_on a 0 (Z.of_nat (length l) - 1) →
  a = array_of (merge_sort Z.le l).
Proof.
  intros Hre Hsort.
  destruct (rearranged_array_of l a 0 (Z.of_nat (length l) - 1))
    as (l'&->&Hperm); [lia|lia|done|].
  f_equal. apply (Sorted_unique Z.le).
  - apply StronglySorted_Sorted.
    apply (sorted_on_array_of l' 0 (Z.of_nat (length l) - 1)); [lia| |done|done].
    by rewrite Hperm.
  - apply Sorted_merge_sort; apply _.
  - by rewrite merge_sort_Permutation.
Qed.
End reference.

(** ** The player *)

Section player_proofs.
Context {Width Height Color : Type}.
Variable heightScale : option Z → Height.
Variable colorScale : Height → Color.
Abbreviation bin := (bin Width Height Color).
Abbreviation component := (component Width Height Color).
Abbreviation recorded :=
  (recorded (Width:=Width) (Height:=Height) (Color:=Color)).

(** Popping the reversed log replays the moves oldest first. *)
Lemma ticks_reverse o ms (this : component) :
  animations this = reverse ms →
  ticks heightScale colorScale (S (length ms)) o this =
    let r := replay (action_of heightScale colorScale o) ms
               (binDimensions this, uncaught this) in
    Component (generatedArray this) (generatedArrayUnsorted this) r.1 []
      (validationAnimations this) (auxiliaryArray this) r.2 true.
Proof.
  revert this. induction ms as [|m ms IH]; intros this Hthis.
  - simpl. unfold tick. rewrite Hthis. done.
  - change (ticks heightScale colorScale (S (length (m :: ms))) o this)
      with (ticks heightScale colorScale (S (length ms)) o
              (tick heightScale colorScale o this)).
    unfold tick at 1. rewrite Hthis, reverse_cons. unfold pop.
    rewrite last_snoc, removelast_last.
    rewrite IH by done. simpl. done.
Qed.

Lemma play_reverse o ms (this : component) :
  animations this = reverse ms →
  play heightScale colorScale o this =
    let r := replay (action_of heightScale colorScale o) ms
               (binDimensions this, uncaught this) in
    Component (generatedArray this) (generatedArrayUnsorted this) r.1 []
      (validationAnimations this) (auxiliaryArray this) r.2 true.
Proof.
  intros H. unfold play. rewrite H, length_reverse. by apply ticks_reverse.
Qed.

Lemma recorded_push act a animations a' m :
  (∀ d, mirror d a → ∃ d', act m d = Done d' ∧ mirror d' a') →
  recorded act a animations a' (push animations m).
Proof.
  intros H. exists [m]. split; [done|]. intros d e Hd.
  destruct (H d Hd) as (d'&E&Hd'). exists d'. split; [|done].
  unfold replay; simpl. by rewrite E.
Qed.

Lemma bubble_recorded a animations lo hi :
  recorded bubble_action a animations
    (bubble a animations lo hi).1 (bubble a animations lo hi).2.
Proof.
  unfold bubble. destruct (decide (lo ≤ hi)) as [Hle|]; cycle 1.
  { rewrite for_range_empty by lia. apply recorded_refl. }
  refine (for_range_inv (λ _ st,
            recorded bubble_action a animations st.1 st.2)
            lo hi bubble_body (a, animations) Hle _ _).
  - apply recorded_refl.
  - intros k [a1 l1] _ Hrec; simpl in *.
    destruct (js_gt _ _); [|done]. simpl.
    eapply recorded_trans; [done|]. apply recorded_push.
    intros d Hd. eexists; split; [done|]. by apply mirror_swap.
Qed.
End player_proofs.

(** ** Quick sort *)

Section quick_proofs.
Context {Width Height Color : Type}.
Abbreviation recordedq :=
  (recorded (Width:=Width) (Height:=Height) (Color:=Color) quick_action).
Implicit Types (a : jsarray Z) (lo hi i j k : Z) (fuel : nat).

(** The low cursor stops at or before any index [b] that is [hi] or
    holds a number above the pivot. *)
Lemma advance_start_spec fuel a pv hi start b :
  start ≤ b → b ≤ hi → defined_on a start b →
  (b = hi ∨ ∃ x, a !! b = Some x ∧ pv < x) →
  b - start + 1 ≤ Z.of_nat fuel →
  ∃ s, advance_start fuel a (Some pv) hi start = Some s ∧
    start ≤ s ≤ b ∧
    (∀ k x, start ≤ k < s → a !! k = Some x → x ≤ pv) ∧
    (s = hi ∨ ∃ x, a !! s = Some x ∧ pv < x).
Proof.
  revert start. induction fuel as [|fuel IH]; intros start Hsb Hbh Hdef Hb Hf;
    [lia|].
  simpl. destruct (Hdef start) as [u Hu]; [lia|].
  rewrite Hu, js_le_Some. case_bool_decide as Hle.
  - case_bool_decide as Hge.
    + exists start. split_and!; [done|lia|lia|intros; lia|left; lia].
    + assert (start ≠ b).
      { intros ->. destruct Hb as [->|(x&Hx&?)]; [lia|]. simplify_eq. lia. }
      destruct (IH (start + 1)) as (s&Hs&?&Hbelow&?); [lia|done| |done|lia|].
      { intros k Hk. apply Hdef. lia. }
      exists s. split_and!; [done|lia|lia| |done].
      intros k x Hk Hx. destruct (decide (k = start)) as [->|].
      * simplify_eq. done.
      * apply (Hbelow k); [lia|done].
  - exists start. split_and!; [done|lia|lia|intros; lia|].
    right. exists u. split; [done|lia].
Qed.

(** The high cursor stops at or after any index [b] holding a number
    that is not above the pivot. *)
Lemma retreat_end_spec fuel a pv end_ b :
  b ≤ end_ → defined_on a b end_ →
  (∃ x, a !! b = Some x ∧ x ≤ pv) →
  end_ - b + 1 ≤ Z.of_nat fuel →
  ∃ e, retreat_end fuel a (Some pv) end_ = Some e ∧
    b ≤ e ≤ end_ ∧
    (∃ x, a !! e = Some x ∧ x ≤ pv) ∧
    (∀ k x, e < k ≤ end_ → a !! k = Some x → pv < x).
Proof.
  revert end_. induction fuel as [|fuel IH]; intros end_ Hbe Hdef Hb Hf; [lia|].
  simpl. destruct (Hdef end_) as [u Hu]; [lia|].
  rewrite Hu, js_gt_Some. case_bool_decide as Hgt.
  - assert (end_ ≠ b).
    { intros ->. destruct Hb as (x&Hx&?). simplify_eq. lia. }
    destruct (IH (end_ - 1)) as (e&He&?&?&Habove); [lia| |done|lia|].
    { intros k Hk. apply Hdef. lia. }
    exists e. split_and!; [done|lia|lia|done|].
    intros k x Hk Hx. destruct (decide (k = end_)) as [->|].
    + simplify_eq. done.
    + apply (Habove k); [lia|done].
  - exists end_. split_and!; [done|lia|lia| |intros; lia].
    exists u. split; [done|lia].
Qed.

Lemma recorded_swap_element a animations i j :
  recordedq a animations (swap a i j) (push animations (SwapElement i j)).
Proof.
  apply recorded_push. intros d Hd. eexists; split; [done|].
  by apply mirror_swap.
Qed.

Lemma recorded_swap_pivot a animations i j :
  recordedq a animations (swap a i j) (push animations (SwapPivot i j)).
Proof.
  apply recorded_push. intros d Hd. eexists; split; [done|].
  by apply mirror_swap.
Qed.

Lemma partition_loop_spec a0 lo hi pv fuel a animations start end_ :
  hi < len a0 → defined_on a0 lo hi →
  rearranged a a0 lo hi →
  lo ≤ start → start ≤ end_ → end_ ≤ hi →
  a !! lo = Some pv →
  (∃ x, a !! start = Some x ∧ x ≤ pv) →
  (∀ k x, lo ≤ k < start → a !! k = Some x → x ≤ pv) →
  (∀ k x, end_ < k ≤ hi → a !! k = Some x → pv < x) →
  end_ - start + 2 ≤ Z.of_nat fuel →
  ∃ a' animations' e,
    partition_loop fuel a animations (Some pv) hi start end_
      = Some (a', animations', e) ∧
    rearranged a' a0 lo hi ∧ lo ≤ e ≤ hi ∧ a' !! lo = Some pv ∧
    (∀ k x, lo ≤ k ≤ e → a' !! k = Some x → x ≤ pv) ∧
    (∀ k x, e < k ≤ hi → a' !! k = Some x → pv < x) ∧
    recordedq a animations a' animations'.
Proof.
  intros Hlen Hdef0.
  revert a animations start end_.
  induction fuel as [|fuel IH];
    intros a animations start end_ Hre Hls Hse Heh Hpv Hst Hbelow Habove Hf;
    [lia|].
  pose proof (rearranged_defined _ _ _ _ Hre Hdef0) as Hdef.
  set (b := if decide (end_ < hi) then end_ + 1 else hi).
  destruct (advance_start_spec (S fuel) a pv hi start b)
    as (s&Hs&Hsb&Hs1&Hs2).
  { unfold b; case_decide; lia. }
  { unfold b; case_decide; lia. }
  { intros k Hk. apply Hdef. unfold b in Hk; case_decide; lia. }
  { unfold b. case_decide; [|by left]. right.
    destruct (Hdef (end_ + 1)) as [x Hx]; [lia|].
    exists x. split; [done|]. apply (Habove (end_ + 1)); [lia|done]. }
  { unfold b; case_decide; lia. }
  destruct (retreat_end_spec (S fuel) a pv end_ start)
    as (e&He&Hee&(ve&Hve&Hvele)&He2); [done| |done|lia|].
  { intros k Hk. apply Hdef. lia. }
  cbn [partition_loop]. rewrite Hs, He. cbn [mbind option_bind].
  case_bool_decide as Hcross.
  - exists a, animations, e.
    split_and!; [done|done|lia|lia|done| | |apply recorded_refl].
    + intros k x Hk Hx. destruct (decide (k = e)) as [->|]; [by simplify_eq|].
      destruct (decide (k < start)); [apply (Hbelow k); [lia|done]|].
      apply (Hs1 k); [lia|done].
    + intros k x Hk Hx. destruct (decide (k ≤ end_)).
      * apply (He2 k); [lia|done].
      * apply (Habove k); [lia|done].
  - assert (Hs' : ∃ vs, a !! s = Some vs ∧ pv < vs).
    { destruct Hs2 as [->|?]; [|done]. unfold b in Hsb. lia. }
    destruct Hs' as (vs&Hvs&Hvsgt).
    assert (s ≠ start).
    { intros ->. destruct Hst as (x&Hx&?). simplify_eq. lia. }
    assert (lo ≠ s) by lia. assert (lo ≠ e) by lia.
    destruct (IH (swap a s e) (push animations (SwapElement s e)) s e)
      as (a'&l'&e'&Hrun&?&?&?&?&?&Hrec).
    + eapply rearranged_trans; [|done].
      apply rearranged_swap; [lia|lia|]. destruct Hre as [-> _]. lia.
    + lia.
    + lia.
    + lia.
    + rewrite lookup_swap. by rewrite !decide_False by done.
    + exists ve. rewrite lookup_swap.
      rewrite decide_False, decide_True by lia. done.
    + intros k x Hk. rewrite lookup_swap.
      rewrite !decide_False by lia. intros Hx.
      destruct (decide (k < start)); [apply (Hbelow k); [lia|done]|].
      apply (Hs1 k); [lia|done].
    + intros k x Hk. rewrite lookup_swap.
      rewrite !decide_False by lia. intros Hx.
      destruct (decide (k ≤ end_)).
      * apply (He2 k); [lia|done].
      * apply (Habove k); [lia|done].
    + lia.
    + exists a', l', e'. split_and!; [done|done|lia|lia|done|done|done|].
      eapply recorded_trans; [|done]. apply recorded_swap_element.
Qed.

(** [partition] returns, with the pivot at the returned index, nothing
    larger before it and only larger numbers after it. *)
Lemma partition_spec fuel a animations lo hi :
  lo ≤ hi → hi < len a → defined_on a lo hi →
  hi - lo + 2 ≤ Z.of_nat fuel →
  ∃ a' animations' p pv,
    partition fuel a animations lo hi = Some (a', animations', p) ∧
    rearranged a' a lo hi ∧ lo ≤ p ≤ hi ∧ a' !! p = Some pv ∧
    (∀ k x, lo ≤ k < p → a' !! k = Some x → x ≤ pv) ∧
    (∀ k x, p < k ≤ hi → a' !! k = Some x → pv < x) ∧
    recordedq a animations a' animations'.
Proof.
  intros Hle Hlen Hdef Hf.
  destruct (Hdef lo) as [pv Hpv]; [lia|].
  destruct (partition_loop_spec a lo hi pv fuel a animations lo hi)
    as (a1&l1&e&Hrun&Hre&He&Hlo&Hbelow&Habove&Hrec);
    [done|done|apply rearranged_refl|lia|lia|lia|done| | | |lia|].
  { exists pv. split; [done|lia]. }
  { intros; lia. }
  { intros; lia. }
  exists (swap a1 lo e), (push l1 (SwapPivot lo e)), e, pv.
  unfold partition. rewrite Hpv, Hrun. cbn [mbind option_bind].
  split_and!; [done| |lia|lia| | | |].
  - eapply rearranged_trans; [|done].
    apply rearranged_swap; [lia|lia|]. destruct Hre as [-> _]. lia.
  - rewrite lookup_swap. by rewrite decide_True.
  - intros k x Hk. rewrite lookup_swap.
    rewrite decide_False by lia. case_decide; intros Hx.
    + apply (Hbelow e); [lia|done].
    + apply (Hbelow k); [lia|done].
  - intros k x Hk. rewrite lookup_swap.
    rewrite !decide_False by lia. intros Hx. apply (Habove k); [lia|done].
  - eapply recorded_trans; [done|]. apply recorded_swap_pivot.
Qed.

(** [quickSort] returns, with the range sorted. *)
Lemma quickSort_spec fuel a animations lo hi :
  hi < len a → defined_on a lo hi →
  (1 ≤ fuel)%nat → hi - lo + 3 ≤ Z.of_nat fuel →
  ∃ a' animations',
    quickSort fuel a animations lo hi = Some (a', animations') ∧
    rearranged a' a lo hi ∧ sorted_on a' lo hi ∧
    recordedq a animations a' animations'.
Proof.
  revert a animations lo hi.
  induction fuel as [|fuel IH]; intros a animations lo hi Hlen Hdef H1 Hf;
    [lia|].
  cbn [quickSort]. case_bool_decide as Hge.
  { exists a, animations.
    split_and!; [done|apply rearranged_refl| |apply recorded_refl].
    intros i j x y ??? Hx Hy. assert (i = j) as -> by lia.
    simplify_eq. lia. }
  destruct (partition_spec fuel a animations lo hi)
    as (a1&l1&p&pv&Hpart&Hre1&Hp&Hpv&Hbelow&Habove&Hrec1);
    [lia|done|done|lia|].
  rewrite Hpart. cbn [mbind option_bind].
  assert (Hlen1 : len a1 = len a) by apply Hre1.
  pose proof (rearranged_defined _ _ _ _ Hre1 Hdef) as Hdef1.
  destruct (IH a1 l1 lo (p - 1))
    as (a2&l2&Hleft&Hre2&Hsort2&Hrec2); [lia| |lia|lia|].
  { intros k Hk. apply Hdef1. lia. }
  rewrite Hleft. cbn [mbind option_bind].
  assert (Hlen2 : len a2 = len a1) by apply Hre2.
  assert (Hre2' : rearranged a2 a1 lo hi).
  { eapply rearranged_widen; [| |done]; lia. }
  pose proof (rearranged_defined _ _ _ _ Hre2' Hdef1) as Hdef2.
  destruct (IH a2 l2 (p + 1) hi)
    as (a3&l3&Hright&Hre3&Hsort3&Hrec3); [lia| |lia|lia|].
  { intros k Hk. apply Hdef2. lia. }
  rewrite Hright. exists a3, l3.
  assert (Hre3' : rearranged a3 a2 lo hi).
  { eapply rearranged_widen; [| |done]; lia. }
  split_and!; [done| | |].
  - eapply rearranged_trans; [done|]. by eapply rearranged_trans.
  - assert (H32 : ∀ k, k ≤ p → a3 !! k = a2 !! k).
    { intros k Hk. apply Hre3. lia. }
    assert (H21 : ∀ k, p ≤ k → a2 !! k = a1 !! k).
    { intros k Hk. apply Hre2. lia. }
    assert (Hp3 : a3 !! p = Some pv).
    { by rewrite H32, H21 by lia. }
    assert (Hl : ∀ k x, lo ≤ k < p → a3 !! k = Some x → x ≤ pv).
    { intros k x Hk. rewrite H32 by lia. intros Hx.
      apply (rearranged_Forall
               (λ v, ∀ x, v = Some x → x ≤ pv) a2 a1 lo (p - 1) Hre2)
        with k; [|lia|done].
      intros k' Hk' x' Hx'. apply (Hbelow k'); [lia|done]. }
    assert (Hr : ∀ k x, p < k ≤ hi → a3 !! k = Some x → pv < x).
    { intros k x Hk Hx.
      apply (rearranged_Forall
               (λ v, ∀ x, v = Some x → pv < x) a3 a2 (p + 1) hi Hre3)
        with k; [|lia|done].
      intros k' Hk' x'. rewrite H21 by lia. intros Hx'.
      apply (Habove k'); [lia|done]. }
    intros i j x y Hi Hij Hj Hx Hy.
    destruct (decide (j < p)).
    { rewrite H32 in Hx, Hy by lia.
      apply (Hsort2 i j); [lia|lia|lia|done|done]. }
    destruct (decide (p < i)).
    { apply (Hsort3 i j); [lia|lia|lia|done|done]. }
    assert (x ≤ pv).
    { destruct (decide (i = p)) as [->|]; [simplify_eq; lia|].
      apply (Hl i); [lia|done]. }
    assert (pv ≤ y); [|lia].
    destruct (decide (j = p)) as [->|]; [simplify_eq; lia|].
    apply Z.lt_le_incl, (Hr j); [lia|done].
  - eapply recorded_trans; [done|]. by eapply recorded_trans.
Qed.
End quick_proofs.

(** ** Merge sort *)

Section merge_proofs.
Context {Width Height Color : Type}.
Variable heightScale : option Z → Height.
Variable colorScale : Height → Color.
Abbreviation recordedm :=
  (recorded (Width:=Width) (Height:=Height) (Color:=Color)
     (merge_action heightScale colorScale)).
Implicit Types (a aux : jsarray Z) (lo mid hi i j k : Z) (L R M : list Z).

Lemma drop_cons_inv {A} (xs : list A) n v t :
  drop n xs = v :: t → xs !! n = Some v ∧ drop (S n) xs = t.
Proof.
  intros H. split.
  - rewrite <-(Nat.add_0_r n), <-lookup_drop, H. done.
  - replace (S n) with (n + 1)%nat by lia.
    rewrite <-(drop_drop xs 1 n), H. done.
Qed.

(** The copy loop of [merge]. *)
Lemma merge_copy a aux lo hi k :
  lo ≤ k ≤ hi →
  for_range lo (hi + 1) (λ i aux, store aux i (a !! i)) aux !! k = a !! k.
Proof.
  intros Hk.
  pose proof (for_range_inv (λ i aux1, ∀ k, lo ≤ k ≤ hi → k < i →
            aux1 !! k = a !! k) lo (hi + 1)
            (λ i aux, store aux i (a !! i)) aux) as Hinv.
  cbv beta in Hinv. apply Hinv; [lia|intros; lia| |lia|lia].
  intros i aux1 Hi IH k' Hk' Hki. rewrite lookup_store.
  case_decide; [by subst|]. apply IH; lia.
Qed.

(** One round of the merge loop, with [ni] and [nj] elements taken
    from the runs [L] and [R] that [aux] holds. *)
Lemma merge_body_step aux lo mid hi L R (ni nj : nat) a animations k :
  Z.of_nat (length L) = mid + 1 - lo → Z.of_nat (length R) = hi - mid →
  (∀ n : nat, (n < length L)%nat → aux !! (lo + Z.of_nat n) = L !! n) →
  (∀ n : nat, (n < length R)%nat → aux !! (mid + 1 + Z.of_nat n) = R !! n) →
  (ni ≤ length L)%nat → (nj ≤ length R)%nat →
  (ni + nj < length L + length R)%nat →
  ∃ v (ni' nj' : nat),
    merge_body aux mid hi k
      (MergeState a animations (lo + Z.of_nat ni) (mid + 1 + Z.of_nat nj)) =
    MergeState (store a k (Some v)) (push animations (MergeSet k (Some v)))
      (lo + Z.of_nat ni') (mid + 1 + Z.of_nat nj') ∧
    list_merge Z.le (drop ni L) (drop nj R) =
      v :: list_merge Z.le (drop ni' L) (drop nj' R) ∧
    (ni' + nj' = S (ni + nj))%nat ∧
    (ni' ≤ length L)%nat ∧ (nj' ≤ length R)%nat.
Proof.
  intros HL HR HauxL HauxR Hni Hnj Hlt. unfold merge_body.
  case_bool_decide as Hi.
  { assert (ni = length L) as -> by lia.
    destruct (lookup_lt_is_Some_2 R nj) as [y Hy]; [lia|].
    exists y, (length L), (S nj).
    rewrite HauxR, Hy by lia. split_and!; [|  |lia|lia|lia].
    - f_equal; lia.
    - rewrite drop_all, !list_merge_nil_l. by apply drop_S. }
  case_bool_decide as Hj.
  { assert (nj = length R) as -> by lia.
    destruct (lookup_lt_is_Some_2 L ni) as [x Hx]; [lia|].
    exists x, (S ni), (length R).
    rewrite HauxL, Hx by lia. split_and!; [| |lia|lia|lia].
    - f_equal; lia.
    - rewrite drop_all, !list_merge_nil_r. by apply drop_S. }
  destruct (lookup_lt_is_Some_2 L ni) as [x Hx]; [lia|].
  destruct (lookup_lt_is_Some_2 R nj) as [y Hy]; [lia|].
  rewrite HauxL, HauxR, Hx, Hy by lia. rewrite js_gt_Some.
  rewrite (drop_S L x ni Hx), (drop_S R y nj Hy), list_merge_cons.
  case_bool_decide.
  - exists y, ni, (S nj). rewrite decide_False by lia.
    rewrite <-(drop_S L x ni Hx).
    split_and!; [|done|lia|lia|lia]. f_equal; lia.
  - exists x, (S ni), nj. rewrite decide_True by lia.
    rewrite <-(drop_S R y nj Hy).
    split_and!; [|done|lia|lia|lia]. f_equal; lia.
Qed.

Lemma slice_Some_lookup a lo L (n : nat) :
  slice a lo (length L) = Some <$> L → (n < length L)%nat →
  a !! (lo + Z.of_nat n) = L !! n.
Proof.
  intros Hs Hn.
  assert (E : slice a lo (length L) !! n = (Some <$> L) !! n) by by rewrite Hs.
  rewrite lookup_slice, list_lookup_fmap in E by done.
  destruct (lookup_lt_is_Some_2 L n) as [x Hx]; [lia|].
  rewrite Hx in E |- *. simpl in E. congruence.
Qed.

Lemma slice_Some_intro a lo L :
  (∀ n : nat, (n < length L)%nat → a !! (lo + Z.of_nat n) = L !! n) →
  slice a lo (length L) = Some <$> L.
Proof.
  intros H. apply list_eq. intros n. rewrite list_lookup_fmap.
  destruct (decide (n < length L)%nat).
  - rewrite lookup_slice, H by done.
    by destruct (lookup_lt_is_Some_2 L n) as [x ->].
  - rewrite !lookup_ge_None_2; [done|lia|rewrite length_slice; lia].
Qed.

Lemma length_list_merge L R :
  length (list_merge Z.le L R) = (length L + length R)%nat.
Proof. by rewrite merge_Permutation, length_app. Qed.

(** [merge] writes the left-biased merge of the two runs over them and
    records each write. *)
Lemma merge_spec a aux animations lo mid hi L R :
  hi < len a →
  Z.of_nat (length L) = mid + 1 - lo → Z.of_nat (length R) = hi - mid →
  slice a lo (length L) = Some <$> L →
  slice a (mid + 1) (length R) = Some <$> R →
  ∃ a' aux',
    merge a aux animations lo mid hi =
      (a', aux', animations ++ merge_moves lo (list_merge Z.le L R)) ∧
    len a' = len a ∧
    (∀ p, ¬ (lo ≤ p ≤ hi) → a' !! p = a !! p) ∧
    slice a' lo (length (list_merge Z.le L R))
      = Some <$> list_merge Z.le L R ∧
    recordedm a animations a'
      (animations ++ merge_moves lo (list_merge Z.le L R)).
Proof.
  intros Hlen HL HR HsL HsR. set (M := list_merge Z.le L R).
  assert (HM : length M = (length L + length R)%nat)
    by apply length_list_merge.
  unfold merge.
  set (aux' := for_range lo (hi + 1) (λ i aux, store aux i (a !! i)) aux).
  assert (HauxL : ∀ n : nat, (n < length L)%nat →
            aux' !! (lo + Z.of_nat n) = L !! n).
  { intros n Hn. unfold aux'. rewrite merge_copy by lia.
    by apply slice_Some_lookup. }
  assert (HauxR : ∀ n : nat, (n < length R)%nat →
            aux' !! (mid + 1 + Z.of_nat n) = R !! n).
  { intros n Hn. unfold aux'. rewrite merge_copy by lia.
    by apply slice_Some_lookup. }
  assert (Hdef : ∀ k, lo ≤ k ≤ hi → is_Some (a !! k)).
  { intros k Hk. destruct (decide (k ≤ mid)).
    - replace k with (lo + Z.of_nat (Z.to_nat (k - lo))) by lia.
      rewrite (slice_Some_lookup a lo L) by (done || lia).
      apply lookup_lt_is_Some_2. lia.
    - replace k with (mid + 1 + Z.of_nat (Z.to_nat (k - mid - 1))) by lia.
      rewrite (slice_Some_lookup a (mid + 1) R) by (done || lia).
      apply lookup_lt_is_Some_2. lia. }
  pose proof (for_range_inv (λ k st, ∃ ni nj : nat,
      ms_i st = lo + Z.of_nat ni ∧ ms_j st = mid + 1 + Z.of_nat nj ∧
      k = lo + Z.of_nat (ni + nj) ∧
      (ni ≤ length L)%nat ∧ (nj ≤ length R)%nat ∧
      drop (ni + nj) M = list_merge Z.le (drop ni L) (drop nj R) ∧
      (∀ m : nat, (m < ni + nj)%nat →
         ms_a st !! (lo + Z.of_nat m) = M !! m) ∧
      (∀ p, ¬ (lo ≤ p < k) → ms_a st !! p = a !! p) ∧
      len (ms_a st) = len a ∧
      ms_animations st = animations ++ merge_moves lo (take (ni + nj) M) ∧
      recordedm a animations (ms_a st) (ms_animations st))
    lo (hi + 1) (merge_body aux' mid hi)
    (MergeState a animations lo (mid + 1))) as Hinv.
  cbv beta in Hinv. destruct Hinv as
    (ni&nj&Hi&Hj&Hk&Hni&Hnj&Hdrop&Hwritten&Hout&Hlen'&Hlog&Hrec); [lia|..].
  { exists 0%nat, 0%nat. simpl.
    split_and!; [lia|lia|lia|lia|lia|done|intros; lia|done|done| |].
    - unfold merge_moves. by rewrite take_0, app_nil_r.
    - apply recorded_refl. }
  { intros k [a1 l1 i j] Hk
      (ni&nj&Hi&Hj&Hk'&Hni&Hnj&Hdrop&Hwritten&Hout&Hlen'&Hlog&Hrec).
    cbn [ms_a ms_animations ms_i ms_j] in *. subst i j.
    destruct (merge_body_step aux' lo mid hi L R ni nj a1 l1 k)
      as (v&ni'&nj'&Hbody&Hmerge&Hsum&Hni'&Hnj'); [done..|lia|].
    rewrite Hbody. exists ni', nj'. cbn [ms_a ms_animations ms_i ms_j].
    rewrite Hmerge in Hdrop. apply drop_cons_inv in Hdrop as [Hv Hdrop].
    rewrite Hsum.
    split_and!; [done|done|lia|done|done|done| | | | |].
    - intros m Hm. rewrite lookup_store. case_decide.
      + assert (m = (ni + nj)%nat) as -> by lia. done.
      + apply Hwritten. lia.
    - intros p Hp. rewrite lookup_store_ne by lia. apply Hout. lia.
    - rewrite len_store_lt; lia.
    - rewrite Hlog. unfold push, merge_moves.
      rewrite (take_S_r _ _ _ Hv), imap_app, app_assoc. simpl.
      rewrite length_take_le by (apply lookup_lt_Some in Hv; lia).
      do 3 f_equal. lia.
    - eapply recorded_trans; [done|]. apply recorded_push.
      intros d Hd.
      apply (mirror_set heightScale colorScale d a1 k v Hd).
      rewrite Hout by lia. apply Hdef. lia. }
  assert (ni = length L ∧ nj = length R) as [-> ->] by lia.
  rewrite <-HM, firstn_all in Hlog.
  eexists _, _. split; [by rewrite Hlog|].
  split_and!; [done| | |by rewrite <-Hlog].
  - intros p Hp. apply Hout. lia.
  - apply slice_Some_intro. intros n Hn. apply Hwritten. lia.
Qed.

Lemma StronglySorted_lookup_le L (m n : nat) x y :
  StronglySorted Z.le L → (m ≤ n)%nat →
  L !! m = Some x → L !! n = Some y → x ≤ y.
Proof.
  intros HL. revert m n.
  induction HL as [|z L HL IH HF]; intros m n Hmn Hx Hy; [done|].
  destruct m as [|m], n as [|n]; simplify_eq/=; try lia.
  - rewrite Forall_lookup in HF. by apply (HF n).
  - apply (IH m n); [lia|done|done].
Qed.

Lemma defined_slice a lo (n : nat) :
  defined_on a lo (lo + Z.of_nat n - 1) →
  ∃ L, length L = n ∧ slice a lo (length L) = Some <$> L.
Proof.
  intros Hdef. destruct (Forall_is_Some_fmap (slice a lo n)) as [L HL].
  { apply slice_Forall. intros k Hk. apply Hdef. lia. }
  assert (length L = n).
  { by rewrite <-(length_fmap Some), <-HL, length_slice. }
  exists L. split; [done|]. congruence.
Qed.

Lemma slice_sorted_on a lo L :
  slice a lo (length L) = Some <$> L →
  sorted_on a lo (lo + Z.of_nat (length L) - 1) ↔ StronglySorted Z.le L.
Proof.
  intros Hs. split.
  - intros Hsort. apply StronglySorted_pointwise. intros m n x y Hmn Hx Hy.
    pose proof (lookup_lt_Some _ _ _ Hx). pose proof (lookup_lt_Some _ _ _ Hy).
    apply (Hsort (lo + Z.of_nat m) (lo + Z.of_nat n)); [lia|lia|lia| |].
    + by rewrite (slice_Some_lookup a lo L).
    + by rewrite (slice_Some_lookup a lo L).
  - intros HL i j x y Hi Hij Hj.
    replace i with (lo + Z.of_nat (Z.to_nat (i - lo))) by lia.
    replace j with (lo + Z.of_nat (Z.to_nat (j - lo))) by lia.
    rewrite !(slice_Some_lookup a lo L) by (done || lia).
    apply StronglySorted_lookup_le; [done|lia].
Qed.

(** On sorted runs [merge] leaves the range sorted; [M] is what it
    wrote. *)
Lemma merge_sorted a aux animations lo mid hi :
  lo ≤ mid + 1 → mid ≤ hi → hi < len a → defined_on a lo hi →
  sorted_on a lo mid → sorted_on a (mid + 1) hi →
  ∃ a' aux' L R,
    slice a lo (length L) = Some <$> L ∧
    slice a (mid + 1) (length R) = Some <$> R ∧
    Z.of_nat (length L) = mid + 1 - lo ∧ Z.of_nat (length R) = hi - mid ∧
    merge a aux animations lo mid hi =
      (a', aux', animations ++ merge_moves lo (list_merge Z.le L R)) ∧
    slice a' lo (length (list_merge Z.le L R))
      = Some <$> list_merge Z.le L R ∧
    rearranged a' a lo hi ∧ sorted_on a' lo hi ∧
    recordedm a animations a'
      (animations ++ merge_moves lo (list_merge Z.le L R)).
Proof.
  intros Hlm Hmh Hlen Hdef HsL HsR.
  destruct (defined_slice a lo (Z.to_nat (mid + 1 - lo))) as (L&HlenL&HL).
  { intros k Hk. apply Hdef. lia. }
  destruct (defined_slice a (mid + 1) (Z.to_nat (hi - mid))) as (R&HlenR&HR).
  { intros k Hk. apply Hdef. lia. }
  destruct (merge_spec a aux animations lo mid hi L R)
    as (a'&aux'&Hrun&Hlen'&Hout&Hs&Hrec); [done|lia|lia|done|done|].
  exists a', aux', L, R.
  pose proof (length_list_merge L R) as HM.
  split_and!; [done|done|lia|lia|done|done|split_and!| |done].
  - done.
  - done.
  - replace (Z.to_nat (hi - lo + 1))
      with (length (list_merge Z.le L R)) by lia.
    rewrite Hs, HM, slice_app, HL, merge_Permutation, fmap_app.
    replace (lo + Z.of_nat (length L)) with (mid + 1) by lia.
    by rewrite HR.
  - replace hi with (lo + Z.of_nat (length (list_merge Z.le L R)) - 1) by lia.
    apply slice_sorted_on; [done|].
    apply Sorted_StronglySorted; [apply _|].
    apply Sorted_list_merge; [apply _| |]; apply StronglySorted_Sorted.
    + apply (slice_sorted_on a lo L HL).
      by replace (lo + Z.of_nat (length L) - 1) with mid by lia.
    + apply (slice_sorted_on a (mid + 1) R HR).
      by replace (mid + 1 + Z.of_nat (length R) - 1) with hi by lia.
Qed.

(** On a tie the loop takes the element of the left run. *)
Lemma merge_body_tie aux mid hi k st x :
  ms_i st ≤ mid → ms_j st ≤ hi →
  aux !! ms_i st = Some x → aux !! ms_j st = Some x →
  merge_body aux mid hi k st =
    MergeState (store (ms_a st) k (Some x))
      (push (ms_animations st) (MergeSet k (Some x)))
      (ms_i st + 1) (ms_j st).
Proof.
  intros Hi Hj Hx Hy. destruct st as [a1 l1 i j]; simpl in *.
  unfold merge_body. rewrite !bool_decide_eq_false_2 by lia.
  rewrite Hx, Hy, js_gt_Some, bool_decide_eq_false_2 by lia. done.
Qed.

Lemma midpoint_bounds lo hi :
  lo < hi → lo ≤ midpoint lo hi < hi.
Proof.
  intros H. unfold midpoint.
  replace (2 * lo + (hi - lo)) with (lo * 2 + (hi - lo)) by lia.
  rewrite Z.div_add_l by lia.
  pose proof (Z.div_pos (hi - lo) 2). pose proof (Z.div_lt (hi - lo) 2).
  lia.
Qed.

(** [mergeSort] returns, with the range sorted. *)
Lemma mergeSort_spec fuel a aux animations lo hi :
  hi < len a → defined_on a lo hi →
  (1 ≤ fuel)%nat → hi - lo + 1 ≤ Z.of_nat fuel →
  ∃ a' aux' animations',
    mergeSort fuel a aux animations lo hi = Some (a', aux', animations') ∧
    rearranged a' a lo hi ∧ sorted_on a' lo hi ∧
    recordedm a animations a' animations'.
Proof.
  revert a aux animations lo hi.
  induction fuel as [|fuel IH]; intros a aux animations lo hi Hlen Hdef H1 Hf;
    [lia|].
  cbn [mergeSort]. case_bool_decide as Hle.
  { exists a, aux, animations.
    split_and!; [done|apply rearranged_refl| |apply recorded_refl].
    intros i j x y ??? Hx Hy. assert (i = j) as -> by lia.
    simplify_eq. lia. }
  pose proof (midpoint_bounds lo hi) as Hmid.
  set (mid := midpoint lo hi) in *.
  destruct (IH a aux animations lo mid)
    as (a1&aux1&l1&Hrun1&Hre1&Hsort1&Hrec1); [lia| |lia|lia|].
  { intros k Hk. apply Hdef. lia. }
  rewrite Hrun1. cbn [mbind option_bind].
  assert (Hre1' : rearranged a1 a lo hi).
  { eapply rearranged_widen; [| |done]; lia. }
  pose proof (rearranged_defined _ _ _ _ Hre1' Hdef) as Hdef1.
  assert (Hlen1 : len a1 = len a) by apply Hre1.
  destruct (IH a1 aux1 l1 (mid + 1) hi)
    as (a2&aux2&l2&Hrun2&Hre2&Hsort2&Hrec2); [lia| |lia|lia|].
  { intros k Hk. apply Hdef1. lia. }
  rewrite Hrun2. cbn [mbind option_bind].
  assert (Hre2' : rearranged a2 a1 lo hi).
  { eapply rearranged_widen; [| |done]; lia. }
  pose proof (rearranged_defined _ _ _ _ Hre2' Hdef1) as Hdef2.
  assert (Hlen2 : len a2 = len a1) by apply Hre2.
  destruct (merge_sorted a2 aux2 l2 lo mid hi)
    as (a3&aux3&L&R&_&_&_&_&Hrun3&_&Hre3&Hsort3&Hrec3);
    [lia|lia|lia|done| |done|].
  { intros i j x y Hi Hij Hj.
    destruct Hre2 as (_&Hout&_). rewrite !Hout by lia.
    by apply Hsort1. }
  rewrite Hrun3. eexists a3, aux3, _.
  split_and!; [done| |done|].
  - eapply rearranged_trans; [done|]. by eapply rearranged_trans.
  - eapply recorded_trans; [done|]. by eapply recorded_trans.
Qed.
End merge_proofs.

(** ** Counting sort *)

Section counting.
Implicit Types (l : list Z) (v w : Z) (i j : nat).

Lemma count_eq_nil v : count_eq v [] = 0.
Proof. reflexivity. Qed.

Lemma count_eq_cons v x l :
  count_eq v (x :: l) = (if decide (x = v) then 1 else 0) + count_eq v l.
Proof.
  unfold count_eq. rewrite filter_cons. case_decide; simpl; lia.
Qed.

Lemma count_eq_app v l1 l2 :
  count_eq v (l1 ++ l2) = count_eq v l1 + count_eq v l2.
Proof. unfold count_eq. rewrite filter_app, length_app. lia. Qed.

Lemma count_eq_nonneg v l : 0 ≤ count_eq v l.
Proof. unfold count_eq. lia. Qed.

Lemma count_lt_nonneg v l : 0 ≤ count_lt v l.
Proof. unfold count_lt. lia. Qed.

Lemma count_le_split v l : count_le v l = count_lt v l + count_eq v l.
Proof.
  unfold count_le, count_lt, count_eq.
  induction l as [|x l IH]; [done|].
  rewrite !filter_cons. repeat case_decide; simpl in *; lia.
Qed.

Lemma count_le_lt v w l : v < w → count_le v l ≤ count_lt w l.
Proof.
  intros Hvw. unfold count_le, count_lt.
  induction l as [|x l IH]; [done|].
  rewrite !filter_cons. repeat case_decide; simpl in *; lia.
Qed.

Lemma count_le_length v l : count_le v l ≤ Z.of_nat (length l).
Proof.
  unfold count_le. pose proof (length_filter (λ x, x ≤ v) l). lia.
Qed.

Lemma count_le_succ v l : count_le (v + 1) l = count_le v l + count_eq (v + 1) l.
Proof.
  unfold count_le, count_eq.
  induction l as [|x l IH]; [done|].
  rewrite !filter_cons. repeat case_decide; simpl in *; lia.
Qed.

Lemma count_le_0 l : Forall (λ x, 0 ≤ x) l → count_le 0 l = count_eq 0 l.
Proof.
  unfold count_le, count_eq. induction 1 as [|x l Hx _ IH]; [done|].
  rewrite !filter_cons. repeat case_decide; simpl in *; lia.
Qed.

Lemma count_eq_take_drop v l i :
  count_eq v l = count_eq v (take i l) + count_eq v (drop i l).
Proof. by rewrite <-count_eq_app, take_drop. Qed.

Lemma count_eq_drop v l i :
  l !! i = Some v → count_eq v (drop i l) = 1 + count_eq v (drop (S i) l).
Proof.
  intros H. rewrite (drop_S _ _ _ H), count_eq_cons. by rewrite decide_True.
Qed.

Lemma count_eq_drop_ne v w l i :
  l !! i = Some w → w ≠ v → count_eq v (drop i l) = count_eq v (drop (S i) l).
Proof.
  intros H ?. rewrite (drop_S _ _ _ H), count_eq_cons. by rewrite decide_False.
Qed.

Lemma count_eq_take_S v l i :
  l !! i = Some v → count_eq v (take (S i) l) = count_eq v (take i l) + 1.
Proof.
  intros H. rewrite (take_S_r _ _ _ H), count_eq_app, count_eq_cons.
  rewrite decide_True by done. rewrite count_eq_nil. lia.
Qed.

Lemma count_eq_take_mono v l i j :
  (i ≤ j)%nat → count_eq v (take i l) ≤ count_eq v (take j l).
Proof.
  intros Hij. rewrite (count_eq_take_drop v (take j l) i), take_take.
  replace (i `min` j)%nat with i by lia.
  pose proof (count_eq_nonneg v (drop i (take j l))). lia.
Qed.

Lemma slot_eq l i v :
  l !! i = Some v → slot l i = count_lt v l + count_eq v (take i l).
Proof. unfold slot. by intros ->. Qed.

(** The slot lies before the end of the block of its value. *)
Lemma slot_lt_count_le l i v :
  l !! i = Some v → slot l i < count_le v l.
Proof.
  intros H. rewrite (slot_eq l i v H), count_le_split.
  rewrite (count_eq_take_drop v l i), (count_eq_drop v l i H).
  pose proof (count_eq_nonneg v (drop (S i) l)). lia.
Qed.

Lemma slot_ge_count_lt l i v : l !! i = Some v → count_lt v l ≤ slot l i.
Proof.
  intros H. rewrite (slot_eq l i v H).
  pose proof (count_eq_nonneg v (take i l)). lia.
Qed.

Lemma slot_bounds l i :
  (i < length l)%nat → 0 ≤ slot l i < Z.of_nat (length l).
Proof.
  intros Hi. destruct (lookup_lt_is_Some_2 l i Hi) as [v Hv].
  pose proof (slot_lt_count_le l i v Hv).
  pose proof (slot_ge_count_lt l i v Hv).
  pose proof (count_lt_nonneg v l). pose proof (count_le_length v l). lia.
Qed.

(** Equal numbers keep their order. *)
Lemma slot_stable l i j v :
  (i < j)%nat → l !! i = Some v → l !! j = Some v → slot l i < slot l j.
Proof.
  intros Hij Hi Hj. rewrite (slot_eq l i v Hi), (slot_eq l j v Hj).
  pose proof (count_eq_take_mono v l (S i) j).
  rewrite (count_eq_take_S v l i Hi) in *. lia.
Qed.

(** A smaller number gets a smaller slot. *)
Lemma slot_lt l i j v w :
  l !! i = Some v → l !! j = Some w → v < w → slot l i < slot l j.
Proof.
  intros Hi Hj Hvw.
  pose proof (slot_lt_count_le l i v Hi).
  pose proof (slot_ge_count_lt l j w Hj).
  pose proof (count_le_lt v w l Hvw). lia.
Qed.

Lemma slot_inj l i j :
  (i < length l)%nat → (j < length l)%nat → slot l i = slot l j → i = j.
Proof.
  intros Hi Hj Heq.
  destruct (lookup_lt_is_Some_2 l i Hi) as [v Hv].
  destruct (lookup_lt_is_Some_2 l j Hj) as [w Hw].
  destruct (Z.lt_total v w) as [?|[->|?]].
  - pose proof (slot_lt l i j v w Hv Hw). lia.
  - destruct (Nat.lt_total i j) as [Hlt|[?|Hlt]]; [|done|].
    + pose proof (slot_stable l i j w Hlt Hv Hw). lia.
    + pose proof (slot_stable l j i w Hlt Hw Hv). lia.
  - pose proof (slot_lt l j i w v Hw Hv). lia.
Qed.

(** The order of slots is the order of the numbers. *)
Lemma slot_le_value l i j v w :
  l !! i = Some v → l !! j = Some w → slot l i ≤ slot l j → v ≤ w.
Proof.
  intros Hi Hj Hle. destruct (decide (v ≤ w)); [done|].
  pose proof (slot_lt l j i w v Hj Hi). lia.
Qed.

(** The slots of all indices are the indices, each once. *)
Lemma slots_nat_Permutation l :
  (λ i, Z.to_nat (slot l i)) <$> seq 0 (length l) ≡ₚ seq 0 (length l).
Proof.
  apply submseteq_length_Permutation.
  - apply NoDup_submseteq.
    + apply NoDup_fmap_2_strong; [|apply NoDup_seq].
      intros i j Hi%elem_of_seq Hj%elem_of_seq Heq.
      pose proof (slot_bounds l i). pose proof (slot_bounds l j).
      apply (slot_inj l); lia.
    + intros x (i&->&Hi%elem_of_seq)%list_elem_of_fmap.
      apply elem_of_seq. pose proof (slot_bounds l i). lia.
  - by rewrite length_fmap.
Qed.

Lemma slots_Permutation l :
  slot l <$> seq 0 (length l) ≡ₚ seqZ 0 (Z.of_nat (length l)).
Proof.
  pose proof (slots_nat_Permutation l) as Hnat.
  apply (fmap_Permutation Z.of_nat) in Hnat.
  rewrite <-list_fmap_compose in Hnat.
  assert (E1 : Z.of_nat ∘ (λ i, Z.to_nat (slot l i)) <$> seq 0 (length l)
               = slot l <$> seq 0 (length l)).
  { apply list_fmap_ext. intros _ i Hi%list_elem_of_lookup_2%elem_of_seq.
    simpl. pose proof (slot_bounds l i). lia. }
  assert (E2 : seqZ 0 (Z.of_nat (length l)) = Z.of_nat <$> seq 0 (length l)).
  { unfold seqZ. rewrite Nat2Z.id. apply list_fmap_ext. intros; lia. }
  by rewrite E2, <-E1.
Qed.

(** Every index below the length is the slot of one element. *)
Lemma slot_surj l (p : nat) :
  (p < length l)%nat → ∃ i, (i < length l)%nat ∧ slot l i = Z.of_nat p.
Proof.
  intros Hp.
  assert (Hin : p ∈ (λ i, Z.to_nat (slot l i)) <$> seq 0 (length l)).
  { rewrite slots_nat_Permutation. apply elem_of_seq. lia. }
  apply list_elem_of_fmap in Hin as (i&Hi&Hin%elem_of_seq).
  exists i. split; [lia|]. pose proof (slot_bounds l i). lia.
Qed.
End counting.

(** *** The phases of [countingSort] *)

Lemma math_max_from m0 (xs : list Z) :
  ∃ m, foldl max_step (MaxNum m0) (Some <$> xs) = MaxNum m ∧
       m0 ≤ m ∧ Forall (λ x, x ≤ m) xs.
Proof.
  revert m0. induction xs as [|x xs IH]; intros m0.
  - exists m0. by split_and!.
  - cbn [fmap list_fmap foldl].
    change (max_step (MaxNum m0) (Some x)) with (MaxNum (Z.max m0 x)).
    destruct (IH (Z.max m0 x)) as (m&->&?&HF). exists m.
    split_and!; [done|lia|]. constructor; [lia|done].
Qed.

Lemma count_init_table (l : list Z) :
  Forall (λ x, 0 ≤ x) l →
  ∃ mx, -1 ≤ mx ∧ Forall (λ x, 0 ≤ x ≤ mx) l ∧
    table (count_init (math_max (items (array_of l)))) mx (λ _, 0).
Proof.
  intros Hnonneg. rewrite items_array_of. destruct l as [|x xs].
  { exists (-1). split_and!; [done|done|]. split; [done|].
    intros k. simpl. rewrite lookup_empty_array. by rewrite decide_False by lia. }
  unfold math_max. cbn [fmap list_fmap foldl].
  change (max_step NegInfinity (Some x)) with (MaxNum x).
  destruct (math_max_from x xs) as (m&->&Hxm&HF).
  apply Forall_cons in Hnonneg as [Hx Hxs].
  exists m. split_and!; [lia| |].
  { constructor; [lia|].
    eapply Forall_impl; [apply Forall_and; split; [exact Hxs|exact HF]|].
    simpl. intros; lia. }
  unfold count_init.
  pose proof (for_range_inv (λ i c, len c = i ∧ ∀ k,
      c !! k = if decide (0 ≤ k < i) then Some (Num 0) else None)
    0 (m + 1) (λ i count, store count i (Some (Num 0))) empty_array) as Hinv.
  cbv beta in Hinv. destruct Hinv as [Hlen Hlk]; [lia| |..].
  - split; [done|]. intros k. rewrite lookup_empty_array.
    by rewrite decide_False by lia.
  - intros i c Hi [Hlen Hlk]. split.
    + rewrite len_store, bool_decide_eq_true_2; lia.
    + intros k. rewrite lookup_store, Hlk.
      repeat case_decide; try done; lia.
  - split; [done|]. intros k. rewrite Hlk.
    repeat case_decide; try done; lia.
Qed.

Section counting_sort.
Variable l : list Z.
Hypothesis Hnonneg : Forall (λ x, 0 ≤ x) l.
Abbreviation a := (array_of l).
Abbreviation N := (length l).

Lemma lookup_a (i : nat) : a !! Z.of_nat i = l !! i.
Proof. apply lookup_array_of_nat. Qed.

Lemma count_eq_take_S_ne v w (i : nat) :
  l !! i = Some w → w ≠ v → count_eq v (take (S i) l) = count_eq v (take i l).
Proof.
  intros H ?. rewrite (take_S_r _ _ _ H), count_eq_app, count_eq_cons.
  rewrite decide_False by done. rewrite count_eq_nil. lia.
Qed.

(** The tally loop. *)
Lemma count_key_table mx count :
  Forall (λ x, 0 ≤ x ≤ mx) l → table count mx (λ _, 0) →
  table (for_range 0 (Z.of_nat N) (count_key a) count) mx (λ k, count_eq k l).
Proof.
  intros Hmx Htab.
  pose proof (for_range_inv (λ i c,
      table c mx (λ k, count_eq k (take (Z.to_nat i) l)))
    0 (Z.of_nat N) (count_key a) count) as Hinv.
  cbv beta in Hinv. rewrite Nat2Z.id, firstn_all in Hinv.
  apply Hinv; [lia|done|]. clear Hinv.
  intros i c Hi [Hlen Hlk].
  destruct (lookup_lt_is_Some_2 l (Z.to_nat i)) as [key Hkey]; [lia|].
  assert (0 ≤ key ≤ mx).
  { rewrite Forall_lookup in Hmx. by apply (Hmx _ _ Hkey). }
  unfold count_key. replace i with (Z.of_nat (Z.to_nat i)) at 1 by lia.
  rewrite lookup_a, Hkey. rewrite Hlk, decide_True by done. simpl.
  replace (Z.to_nat (i + 1)) with (S (Z.to_nat i)) by lia.
  split.
  - rewrite len_store_lt; lia.
  - intros k. rewrite lookup_store, Hlk. case_decide; subst.
    + rewrite decide_True by done. by rewrite (count_eq_take_S _ _ _ Hkey).
    + case_decide; [|done]. by rewrite (count_eq_take_S_ne _ _ _ Hkey).
Qed.

(** The running totals. *)
Lemma accumulate_table mx count :
  -1 ≤ mx → table count mx (λ k, count_eq k l) →
  table (for_range 0 (len count - 1) accumulate count) mx (λ k, count_le k l).
Proof.
  intros Hmx [Hlen Hlk]. rewrite Hlen.
  replace (mx + 1 - 1) with mx by lia.
  destruct (decide (mx = -1)) as [->|].
  { rewrite for_range_empty by lia. split; [done|]. intros k.
    rewrite Hlk. by rewrite !decide_False by lia. }
  pose proof (for_range_inv (λ i c, len c = mx + 1 ∧ ∀ k,
      c !! k = if decide (0 ≤ k ≤ mx)
               then Some (Num (if decide (k ≤ i) then count_le k l
                               else count_eq k l))
               else None)
    0 mx accumulate count) as Hinv.
  cbv beta in Hinv. destruct Hinv as [Hlen' Hlk']; [lia| |..].
  - split; [done|]. intros k. rewrite Hlk. case_decide; [|done].
    case_decide; [|done]. assert (k = 0) as -> by lia.
    by rewrite count_le_0.
  - intros i c Hi [Hlen' Hlk']. unfold accumulate. split.
    + rewrite len_store_lt; lia.
    + intros k. rewrite lookup_store, !Hlk'.
      rewrite !(decide_True (P := 0 ≤ _ ≤ mx)) by lia.
      rewrite (decide_False (P := i + 1 ≤ i)) by lia.
      rewrite (decide_True (P := i ≤ i)) by lia. simpl.
      case_decide; subst.
      * rewrite decide_True by lia. rewrite decide_True by lia.
        rewrite count_le_succ. do 2 f_equal. lia.
      * repeat case_decide; try done; lia.
  - split; [done|]. intros k. rewrite Hlk'.
    repeat case_decide; try done; lia.
Qed.

(** The buffer of zeros. *)
Lemma aux_zeros k :
  let aux := for_range 0 (Z.of_nat N) (λ i aux, store aux i (Some 0))
               (empty_array : jsarray Z) in
  len aux = Z.of_nat N ∧
  aux !! k = if decide (0 ≤ k < Z.of_nat N) then Some 0 else None.
Proof.
  pose proof (for_range_inv (λ i c, len c = i ∧ ∀ k,
      c !! k = if decide (0 ≤ k < i) then Some 0 else None)
    0 (Z.of_nat N) (λ i aux, store aux i (Some 0)) (empty_array : jsarray Z))
    as Hinv.
  cbv beta in Hinv. destruct Hinv as [Hlen Hlk]; [lia| | |done].
  - split; [done|]. intros k'. rewrite lookup_empty_array.
    by rewrite decide_False by lia.
  - intros i c Hi [Hlen Hlk]. split.
    + rewrite len_store, bool_decide_eq_true_2; lia.
    + intros k'. rewrite lookup_store, Hlk.
      repeat case_decide; try done; lia.
Qed.

Lemma placed_S n :
  (S n ≤ N)%nat →
  placed l (S n) =
    placed l n ++
      [CountingSet (Num (slot l (N - S n))) (l !! (N - S n)%nat)].
Proof.
  intros Hn. unfold placed. cbn [seq]. rewrite reverse_cons, fmap_app.
  by replace (S (N - S n)) with (N - n)%nat by lia.
Qed.

(** The placement loop after [n] rounds. *)
Lemma place_rounds mx count aux animations (n : nat) :
  Forall (λ x, 0 ≤ x ≤ mx) l →
  table count mx (λ k, count_le k l) →
  len aux = Z.of_nat N →
  (∀ k, is_Some (aux !! k) ↔ 0 ≤ k < Z.of_nat N) →
  (n ≤ N)%nat →
  ∃ count' aux',
    for_down_n n (Z.of_nat N - 1) (place a) (count, aux, animations) =
      (count', aux', animations ++ placed l n) ∧
    table count' mx (λ k, count_le k l - count_eq k (drop (N - n) l)) ∧
    len aux' = Z.of_nat N ∧
    (∀ k, is_Some (aux' !! k) ↔ 0 ≤ k < Z.of_nat N) ∧
    (∀ j : nat, (N - n ≤ j < N)%nat → aux' !! slot l j = l !! j).
Proof.
  intros Hmx Htab Hlen Hdom. induction n as [|n IH]; intros Hn.
  { exists count, aux. simpl. rewrite app_nil_r, Nat.sub_0_r, drop_all.
    split_and!; [done| |done|done|intros; lia].
    destruct Htab as [? Hlk]. split; [done|]. intros k. rewrite Hlk.
    case_decide; [|done]. rewrite count_eq_nil. do 2 f_equal. lia. }
  destruct IH as (c1&aux1&Hrun&[Hclen Hclk]&Hlen1&Hdom1&Hslots); [lia|].
  rewrite for_down_n_snoc, Hrun.
  set (i := (N - S n)%nat).
  replace (Z.of_nat N - 1 - Z.of_nat n) with (Z.of_nat i) by lia.
  destruct (lookup_lt_is_Some_2 l i) as [v Hv]; [lia|].
  assert (Hvmx : 0 ≤ v ≤ mx).
  { rewrite Forall_lookup in Hmx. by apply (Hmx _ _ Hv). }
  assert (Hdrop : (N - n)%nat = S i) by lia.
  assert (Hpos : count_le v l - count_eq v (drop (N - n) l) - 1 = slot l i).
  { rewrite Hdrop, (slot_eq l i v Hv), count_le_split.
    rewrite (count_eq_take_drop v l i), (count_eq_drop v l i Hv). lia. }
  pose proof (slot_bounds l i) as Hb.
  unfold place. rewrite lookup_a, Hv. rewrite Hclk, decide_True by done.
  cbn [js_decr]. rewrite Hpos. cbv beta iota zeta.
  eexists _, _. split_and!.
  - unfold push. rewrite placed_S by done. fold i. rewrite Hv.
    by rewrite app_assoc.
  - split; [rewrite len_store_lt; lia|].
    intros k. rewrite lookup_store, Hclk. case_decide; subst.
    + rewrite decide_True by done. rewrite <-Hpos, Hdrop.
      rewrite (count_eq_drop k l i Hv). do 2 f_equal. lia.
    + case_decide; [|done]. rewrite Hdrop.
      by rewrite (count_eq_drop_ne k v l i Hv).
  - rewrite len_store_lt; lia.
  - intros k. rewrite lookup_store. case_decide; [|apply Hdom1].
    subst. split; [lia|by eexists].
  - intros j Hj. rewrite lookup_store. case_decide as Heq.
    + apply (slot_inj l) in Heq; [|lia..]. by subst.
    + apply Hslots. assert (j ≠ i) by (intros ->; done). lia.
Qed.

(** The copy back from the buffer. *)
Lemma copy_back (aux : jsarray Z) k :
  len aux = Z.of_nat N →
  let a' := for_range 0 (len aux) (λ i array, store array i (aux !! i)) a in
  len a' = Z.of_nat N ∧
  a' !! k = if decide (0 ≤ k < Z.of_nat N) then aux !! k else a !! k.
Proof.
  intros Hlen. rewrite Hlen.
  pose proof (for_range_inv (λ i c, len c = Z.of_nat N ∧ ∀ k,
      c !! k = if decide (0 ≤ k < i) then aux !! k else a !! k)
    0 (Z.of_nat N) (λ i array, store array i (aux !! i)) a) as Hinv.
  cbv beta in Hinv. destruct Hinv as [Hlen' Hlk]; [lia| | |done].
  - split; [done|]. intros k'. by rewrite decide_False by lia.
  - intros i c Hi [Hlen' Hlk]. split.
    + rewrite len_store_lt; lia.
    + intros k'. rewrite lookup_store, Hlk.
      repeat case_decide; subst; try done; lia.
Qed.

(** [countingSort] puts every element in its slot and records the
    placements. *)
Lemma countingSort_slots animations :
  ∃ a',
    countingSort a animations = (a', animations ++ counting_moves l) ∧
    len a' = Z.of_nat N ∧
    (∀ k, ¬ (0 ≤ k < Z.of_nat N) → a' !! k = None) ∧
    (∀ j : nat, (j < N)%nat → a' !! slot l j = l !! j).
Proof.
  destruct (count_init_table l Hnonneg) as (mx&Hmx&Hbound&Htab0).
  pose proof (count_key_table mx _ Hbound Htab0) as Htab1.
  pose proof (accumulate_table mx _ Hmx Htab1) as Htab2.
  unfold countingSort. rewrite len_array_of.
  set (count2 := for_range 0 (len _ - 1) accumulate _) in *.
  set (aux0 := for_range 0 (Z.of_nat N) (λ i aux, store aux i (Some 0))
                 empty_array).
  destruct (place_rounds mx count2 aux0 animations N)
    as (c3&aux3&Hrun&_&Hlen3&Hdom3&Hslots); [done|done|..|done|].
  { apply (aux_zeros 0). }
  { intros k. unfold aux0. destruct (aux_zeros k) as [_ ->].
    case_decide; split; [done|by eexists|by intros [??]|done]. }
  unfold for_down.
  replace (Z.to_nat (Z.of_nat N - 1 - 0 + 1)) with N by lia.
  rewrite Hrun.
  eexists. split_and!.
  - unfold counting_moves, placed. by rewrite Nat.sub_diag.
  - by apply (copy_back aux3 0).
  - intros k Hk. destruct (copy_back aux3 k Hlen3) as [_ ->].
    rewrite decide_False by done. rewrite lookup_array_of.
    case_decide; [|done]. apply lookup_ge_None_2. lia.
  - intros j Hj. pose proof (slot_bounds l j Hj).
    destruct (copy_back aux3 (slot l j) Hlen3) as [_ ->].
    rewrite decide_True by done. apply Hslots. lia.
Qed.
End counting_sort.

(** *** The sorted array and its replay *)

Section counting_result.
Context {Width Height Color : Type}.
Variable heightScale : option Z → Height.
Variable colorScale : Height → Color.
Abbreviation counting_act :=
  (counting_action (Width:=Width) heightScale colorScale).
Variable l : list Z.
Hypothesis Hnonneg : Forall (λ x, 0 ≤ x) l.
Abbreviation N := (length l).

(** An array with every element of [l] in its slot is the sorted
    array. *)
Lemma slots_sorted (a' : jsarray Z) :
  len a' = Z.of_nat N →
  (∀ k, ¬ (0 ≤ k < Z.of_nat N) → a' !! k = None) →
  (∀ j : nat, (j < N)%nat → a' !! slot l j = l !! j) →
  a' = array_of (merge_sort Z.le l).
Proof.
  intros Hlen Hout Hslots. apply sorted_array_of.
  - split_and!.
    + by rewrite len_array_of.
    + intros k Hk. rewrite Hout by lia. rewrite lookup_array_of.
      case_decide; [|done]. symmetry. apply lookup_ge_None_2. lia.
    + replace (Z.to_nat (Z.of_nat N - 1 - 0 + 1)) with N by lia.
      rewrite slice_array_of. symmetry. apply Permutation_inj. split.
      { by rewrite length_fmap, length_slice. }
      exists (λ i, if decide (i < N)%nat then Z.to_nat (slot l i) else i).
      split.
      * intros i j Heq. repeat case_decide; [|exfalso..|done].
        -- pose proof (slot_bounds l i). pose proof (slot_bounds l j).
           apply (slot_inj l); lia.
        -- pose proof (slot_bounds l i). lia.
        -- pose proof (slot_bounds l j). lia.
      * intros i. rewrite list_lookup_fmap. case_decide as Hi.
        -- pose proof (slot_bounds l i Hi).
           rewrite lookup_slice by lia.
           replace (0 + Z.of_nat (Z.to_nat (slot l i))) with (slot l i) by lia.
           rewrite Hslots by done.
           by destruct (lookup_lt_is_Some_2 l i Hi) as [x ->].
        -- rewrite !lookup_ge_None_2; [done|rewrite length_slice; lia|lia].
  - intros p q x y Hp Hpq Hq Hx Hy.
    destruct (slot_surj l (Z.to_nat p)) as (i&Hi&Hsi); [lia|].
    destruct (slot_surj l (Z.to_nat q)) as (j&Hj&Hsj); [lia|].
    rewrite Z2Nat.id in Hsi, Hsj by lia. subst p q.
    rewrite Hslots in Hx, Hy by done.
    apply (slot_le_value l i j); done.
Qed.

(** Replaying the placements on a display of the unsorted array shows
    the sorted one. *)
Lemma counting_replay (a' : jsarray Z) d e :
  len a' = Z.of_nat N →
  (∀ k, ¬ (0 ≤ k < Z.of_nat N) → a' !! k = None) →
  (∀ j : nat, (j < N)%nat → a' !! slot l j = l !! j) →
  mirror d (array_of l) →
  ∃ d', replay counting_act (counting_moves l) (d, e) = (d', e) ∧
        mirror d' a'.
Proof.
  intros Hlen Hout Hslots [Hdlen Hd].
  assert (Hdom : ∀ k, is_Some (d !! k) ↔ 0 ≤ k < Z.of_nat N).
  { intros k. specialize (Hd k). rewrite lookup_array_of in Hd.
    case_decide.
    - destruct (decide (Z.to_nat k < N)%nat).
      + destruct (lookup_lt_is_Some_2 l (Z.to_nat k)) as [x Hx]; [done|].
        rewrite Hx in Hd. destruct (d !! k); [|done]. split; [lia|by eexists].
      + rewrite lookup_ge_None_2 in Hd by lia.
        destruct (d !! k); [done|]. split; [by intros [??]|lia].
    - destruct (d !! k); [done|]. split; [by intros [??]|lia]. }
  assert (Hrounds : ∀ n : nat, (n ≤ N)%nat →
    ∃ d', replay counting_act (placed l n) (d, e) = (d', e) ∧
      len d' = Z.of_nat N ∧
      (∀ k, is_Some (d' !! k) ↔ 0 ≤ k < Z.of_nat N) ∧
      (∀ j : nat, (N - n ≤ j < N)%nat →
         value <$> (d' !! slot l j) = Some (l !! j))).
  { induction n as [|n IH]; intros Hn.
    { exists d. split_and!; [done| |done|intros; lia].
      by rewrite Hdlen, len_array_of. }
    destruct IH as (d1&Hrun&Hlen1&Hdom1&Hs1); [lia|].
    rewrite placed_S by done. rewrite replay_app, Hrun.
    set (i := (N - S n)%nat).
    pose proof (slot_bounds l i) as Hb.
    destruct (proj2 (Hdom1 (slot l i))) as [b Hb']; [lia|].
    unfold replay. cbn [foldl fst snd counting_action].
    unfold calculateBinDimension. rewrite Hb'. cbn [state_of threw].
    eexists. split_and!; [done| | |].
    - rewrite len_store_lt; lia.
    - intros k. rewrite lookup_store. case_decide; [|apply Hdom1].
      subst. split; [lia|by eexists].
    - intros j Hj. rewrite lookup_store. case_decide as Heq.
      + apply (slot_inj l) in Heq; [|lia..]. by subst.
      + apply Hs1. assert (j ≠ i) by (intros ->; done). lia. }
  destruct (Hrounds N) as (d'&Hrun&Hlen'&Hdom'&Hs'); [done|].
  exists d'. split.
  { rewrite <-Hrun. unfold counting_moves, placed. by rewrite Nat.sub_diag. }
  split; [congruence|]. intros k.
  destruct (decide (0 ≤ k < Z.of_nat N)) as [Hk|Hk].
  - destruct (slot_surj l (Z.to_nat k)) as (j&Hj&Hsj); [lia|].
    rewrite Z2Nat.id in Hsj by lia. subst k.
    rewrite Hs', Hslots by lia.
    by destruct (lookup_lt_is_Some_2 l j Hj) as [x ->].
  - rewrite Hout by done. destruct (d' !! k) eqn:E; [|done].
    destruct (proj1 (Hdom' k)); [by eexists|]. lia.
Qed.
End counting_result.

(** ** More fuel gives the same result *)

Section fuel.
Implicit Types (a : jsarray Z) (fuel : nat).

Lemma advance_start_mono fuel fuel' a pivot hi start s :
  advance_start fuel a pivot hi start = Some s → (fuel ≤ fuel')%nat →
  advance_start fuel' a pivot hi start = Some s.
Proof.
  revert fuel' start. induction fuel as [|fuel IH]; intros fuel' start H Hle;
    [done|].
  destruct fuel' as [|fuel']; [lia|]. simpl in *.
  destruct (js_le _ _); [|done]. case_bool_decide; [done|].
  apply IH; [done|lia].
Qed.

Lemma retreat_end_mono fuel fuel' a pivot end_ e :
  retreat_end fuel a pivot end_ = Some e → (fuel ≤ fuel')%nat →
  retreat_end fuel' a pivot end_ = Some e.
Proof.
  revert fuel' end_. induction fuel as [|fuel IH]; intros fuel' end_ H Hle;
    [done|].
  destruct fuel' as [|fuel']; [lia|]. simpl in *.
  destruct (js_gt _ _); [|done]. apply IH; [done|lia].
Qed.

Lemma partition_loop_mono fuel fuel' a animations pivot hi start end_ r :
  partition_loop fuel a animations pivot hi start end_ = Some r →
  (fuel ≤ fuel')%nat →
  partition_loop fuel' a animations pivot hi start end_ = Some r.
Proof.
  revert fuel' a animations start end_.
  induction fuel as [|fuel IH]; intros fuel' a animations start end_ H Hle;
    [done|].
  destruct fuel' as [|fuel']; [lia|]. cbn [partition_loop] in *.
  destruct (advance_start (S fuel) a pivot hi start) as [s|] eqn:Hs; [|done].
  rewrite (advance_start_mono _ (S fuel') _ _ _ _ _ Hs) by lia.
  cbn [mbind option_bind] in *.
  destruct (retreat_end (S fuel) a pivot end_) as [e|] eqn:He; [|done].
  rewrite (retreat_end_mono _ (S fuel') _ _ _ _ He) by lia.
  cbn [mbind option_bind] in *.
  case_bool_decide; [done|]. apply IH; [done|lia].
Qed.

Lemma partition_mono fuel fuel' a animations lo hi r :
  partition fuel a animations lo hi = Some r → (fuel ≤ fuel')%nat →
  partition fuel' a animations lo hi = Some r.
Proof.
  unfold partition. intros H Hle.
  destruct (partition_loop fuel a animations (a !! lo) hi lo hi)
    as [[[a1 l1] e]|] eqn:Hloop; [|done].
  by rewrite (partition_loop_mono _ fuel' _ _ _ _ _ _ _ Hloop Hle).
Qed.

Lemma quickSort_mono fuel fuel' a animations lo hi r :
  quickSort fuel a animations lo hi = Some r → (fuel ≤ fuel')%nat →
  quickSort fuel' a animations lo hi = Some r.
Proof.
  revert fuel' a animations lo hi r.
  induction fuel as [|fuel IH]; intros fuel' a animations lo hi r H Hle;
    [done|].
  destruct fuel' as [|fuel']; [lia|]. cbn [quickSort] in *.
  case_bool_decide; [done|].
  destruct (partition fuel a animations lo hi) as [[[a1 l1] p]|] eqn:Hp;
    [|done].
  rewrite (partition_mono _ fuel' _ _ _ _ _ Hp) by lia.
  cbn [mbind option_bind] in *.
  destruct (quickSort fuel a1 l1 lo (p - 1)) as [[a2 l2]|] eqn:Hl; [|done].
  rewrite (IH fuel' _ _ _ _ _ Hl) by lia.
  cbn [mbind option_bind] in *. apply IH; [done|lia].
Qed.

Lemma mergeSort_mono fuel fuel' a aux animations lo hi r :
  mergeSort fuel a aux animations lo hi = Some r → (fuel ≤ fuel')%nat →
  mergeSort fuel' a aux animations lo hi = Some r.
Proof.
  revert fuel' a aux animations lo hi r.
  induction fuel as [|fuel IH]; intros fuel' a aux animations lo hi r H Hle;
    [done|].
  destruct fuel' as [|fuel']; [lia|]. cbn [mergeSort] in *.
  case_bool_decide; [done|]. cbv zeta in *.
  destruct (mergeSort fuel a aux animations lo (midpoint lo hi))
    as [[[a1 x1] l1]|] eqn:H1; [|done].
  rewrite (IH fuel' _ _ _ _ _ _ H1) by lia.
  cbn [mbind option_bind] in *.
  destruct (mergeSort fuel a1 x1 l1 (midpoint lo hi + 1) hi)
    as [[[a2 x2] l2]|] eqn:H2; [|done].
  rewrite (IH fuel' _ _ _ _ _ _ H2) by lia. done.
Qed.
End fuel.

(** ** The sorts as a whole *)

Section whole_sorts.
Context {Width Height Color : Type}.
Variable heightScale : option Z → Height.
Variable colorScale : Height → Color.
Abbreviation component := (component Width Height Color).
Abbreviation recorded :=
  (recorded (Width:=Width) (Height:=Height) (Color:=Color)).
Implicit Types (a : jsarray Z) (l : list Z).

Lemma defined_on_array_of l lo hi :
  0 ≤ lo → hi < Z.of_nat (length l) → defined_on (array_of l) lo hi.
Proof.
  intros Hlo Hhi k Hk. rewrite lookup_array_of, decide_True by lia.
  apply lookup_lt_is_Some_2. lia.
Qed.

Lemma bubbleSort_recorded a animations :
  recorded bubble_action a animations
    (bubbleSort a animations).1 (bubbleSort a animations).2.
Proof.
  unfold bubbleSort. destruct (decide (0 ≤ len a - 1)) as [Hle|]; cycle 1.
  { rewrite for_down_empty by lia. apply recorded_refl. }
  pose proof (for_down_inv (λ _ st, recorded bubble_action a animations st.1 st.2)
    (len a - 1) 1 (λ i st, bubble st.1 st.2 0 i) (a, animations)) as Hinv.
  cbv beta in Hinv. apply Hinv; [lia|apply recorded_refl|].
  intros k [a1 l1] _ Hrec. simpl in *.
  eapply recorded_trans; [done|]. apply bubble_recorded.
Qed.

Lemma bubbleSort_sorts l animations :
  (bubbleSort (array_of l) animations).1 = array_of (merge_sort Z.le l).
Proof.
  apply sorted_array_of.
  - destruct (decide (1 ≤ Z.of_nat (length l))) as [Hle|]; cycle 1.
    { unfold bubbleSort. rewrite for_down_empty by (rewrite len_array_of; lia).
      apply rearranged_refl. }
    destruct (bubbleSort_passes (array_of l) animations 1) as [Hre _];
      [lia|by rewrite len_array_of| |].
    { apply defined_on_array_of; [lia|]. rewrite len_array_of. lia. }
    by rewrite len_array_of in Hre.
  - destruct (decide (1 ≤ Z.of_nat (length l))) as [Hle|]; cycle 1.
    { intros i j x y ???. lia. }
    destruct (bubbleSort_passes (array_of l) animations 1) as (_&Hsort&Hsplit);
      [lia|by rewrite len_array_of| |].
    { apply defined_on_array_of; [lia|]. rewrite len_array_of. lia. }
    rewrite len_array_of in *.
    intros i j x y Hi Hij Hj Hx Hy.
    destruct (decide (i = 0)) as [->|].
    + destruct (decide (j = 0)) as [->|].
      * unfold bubbleSort in *. rewrite len_array_of in *. simplify_eq. lia.
      * apply (Hsplit 0 j); [lia|lia|done|done].
    + apply (Hsort i j); [lia|lia|lia|done|done].
Qed.

(** Playing a log that was recorded on the displayed array. *)
Lemma play_recorded o (this : component) a a' ms :
  animations this = reverse ms →
  recorded (action_of heightScale colorScale o) a [] a' ms →
  mirror (binDimensions this) a →
  let final := play heightScale colorScale o this in
  shown (binDimensions final) = items a' ∧
  uncaught final = uncaught this ∧
  animations final = [] ∧ cleared final = true.
Proof.
  intros Hanim (ms'&Hms&Hrec) Hmirror. simpl in Hms. subst ms'.
  destruct (Hrec (binDimensions this) (uncaught this) Hmirror)
    as (d'&Hrun&Hd').
  rewrite (play_reverse heightScale colorScale o ms this Hanim).
  rewrite Hrun. simpl. split_and!; [|done..].
  by apply mirror_shown.
Qed.
End whole_sorts.

(** ** The validator *)

Section validator_proofs.
Context {Width Height Color : Type}.
Abbreviation bin := (bin Width Height Color).
Abbreviation component := (component Width Height Color).
Implicit Types (bs : list bin) (binDimensions : jsarray bin).

(** The loop records the bins of a matching prefix and stops at the
    end of the reference or at the first index whose bin differs or is
    missing; it throws only at a missing bin. *)
Lemma validate_loop_prefix (pre post : list Z) i bs binDimensions
    (validationAnimations : list (Z * Color)) :
  length bs = length pre →
  (∀ (n : nat) b, bs !! n = Some b →
     binDimensions !! (i + Z.of_nat n) = Some b ∧ value b = pre !! n) →
  (post = [] ∨
   ∀ b, binDimensions !! (i + Z.of_nat (length pre)) = Some b →
        value b ≠ post !! 0%nat) →
  validate_loop (pre ++ post) i binDimensions validationAnimations =
    (if bool_decide (post = [] ∨
                     is_Some (binDimensions !! (i + Z.of_nat (length pre))))
     then Done else Threw)
      (validationAnimations ++ imap (λ n b, (i + Z.of_nat n, color b)) bs).
Proof.
  revert i bs validationAnimations.
  induction pre as [|s pre IH]; intros i bs vs Hlen Hmatch Hstop.
  - destruct bs; [|done]. simpl. rewrite app_nil_r, Z.add_0_r in *.
    destruct post as [|s post].
    { by rewrite bool_decide_eq_true_2 by by left. }
    destruct Hstop as [?|Hne]; [done|]. simpl.
    destruct (binDimensions !! i) as [b|] eqn:Hb.
    + rewrite bool_decide_eq_false_2 by by apply Hne.
      rewrite bool_decide_eq_true_2; [done|]. right. by eexists.
    + rewrite bool_decide_eq_false_2; [done|]. by intros [?|[??]].
  - destruct bs as [|b bs]; [done|]. simpl in Hlen.
    destruct (Hmatch 0%nat b) as [Hb Hv]; [done|].
    rewrite Z.add_0_r in Hb. simpl in Hv.
    cbn [app validate_loop]. rewrite Hb, bool_decide_eq_true_2 by done.
    rewrite (IH (i + 1) bs).
    + replace (i + 1 + Z.of_nat (length pre))
        with (i + Z.of_nat (length (s :: pre))) by (simpl; lia).
      f_equal. unfold push. rewrite <-app_assoc. cbn [imap app].
      do 2 f_equal; [f_equal; lia|].
      apply imap_ext. intros n b' _. simpl. f_equal. lia.
    + lia.
    + intros n b' Hn. destruct (Hmatch (S n) b' Hn) as [Hb' Hv'].
      split; [|done]. rewrite <-Hb'. f_equal. lia.
    + destruct Hstop as [->|Hne]; [by left|]. right.
      intros b' Hb'. apply Hne. rewrite <-Hb'. f_equal. simpl. lia.
Qed.
End validator_proofs.

(** ** Runs on concrete arrays *)

(** Bubble sort on [5, 3, 1, 4, 2]: four swaps in the first pass, two in
    the second, one in the third. *)
Example bubbleSort_53142 :
  let '(array, animations) := bubbleSort (array_of [5; 3; 1; 4; 2]) [] in
  items array = Some <$> [1; 2; 3; 4; 5] ∧
  animations = [BubbleSwap 0 1; BubbleSwap 1 2; BubbleSwap 2 3; BubbleSwap 3 4;
                BubbleSwap 0 1; BubbleSwap 2 3; BubbleSwap 1 2].
Proof. vm_compute. done. Qed.

(** Merge sort on [5, 3, 1, 4, 2]: the merges of [0..1], [0..2], [3..4]
    and [0..4]. *)
Example mergeSort_53142 :
  (λ r, (items r.1.1, r.2)) <$>
    mergeSort 5 (array_of [5; 3; 1; 4; 2]) empty_array [] 0 4 =
  Some (Some <$> [1; 2; 3; 4; 5],
        [MergeSet 0 (Some 3); MergeSet 1 (Some 5);
         MergeSet 0 (Some 1); MergeSet 1 (Some 3); MergeSet 2 (Some 5);
         MergeSet 3 (Some 2); MergeSet 4 (Some 4);
         MergeSet 0 (Some 1); MergeSet 1 (Some 2); MergeSet 2 (Some 3);
         MergeSet 3 (Some 4); MergeSet 4 (Some 5)]).
Proof. vm_compute. done. Qed.

(** Quick sort on [5, 3, 1, 4, 2]: the pivot 5 goes to the end, then 2
    is placed after one exchange, then 3 stays. *)
Example quickSort_53142 :
  (λ r, (items r.1, r.2)) <$> quickSort 7 (array_of [5; 3; 1; 4; 2]) [] 0 4 =
  Some (Some <$> [1; 2; 3; 4; 5],
        [SwapPivot 0 4; SwapElement 1 2; SwapPivot 0 1; SwapPivot 2 2]).
Proof. vm_compute. done. Qed.

(** With too few rounds allowed the model of quick sort gives no
    result. *)
Example quickSort_53142_short :
  quickSort 3 (array_of [5; 3; 1; 4; 2]) [] 0 4 = None.
Proof. vm_compute. done. Qed.

(** Counting sort on [2, 2, 0, 1]: the last element is placed first, and
    the second 2 goes behind the first. *)
Example countingSort_2201 :
  let '(array, animations) := countingSort (array_of [2; 2; 0; 1]) [] in
  items array = Some <$> [0; 1; 2; 2] ∧
  animations = [CountingSet (Num 1) (Some 1); CountingSet (Num 0) (Some 0);
                CountingSet (Num 3) (Some 2); CountingSet (Num 2) (Some 2)].
Proof. vm_compute. done. Qed.

(** Counting sort on [2, -1]: [count[-1]] is [NaN], the placement of -1
    is lost, and the zero of the buffer is copied back. *)
Example countingSort_negative :
  let '(array, animations) := countingSort (array_of [2; -1]) [] in
  items array = Some <$> [2; 0] ∧
  animations = [CountingSet NaN (Some (-1)); CountingSet (Num 0) (Some 2)].
Proof. vm_compute. done. Qed.

(** [partition] called on a range past the end of the array compares
    with [undefined], exchanges the same two slots again and again, and
    has not returned after 50 rounds. *)
Example partition_undefined_pivot :
  partition 50 (array_of [1; 2]) [] 2 3 = None.
Proof. vm_compute. done. Qed.

(** ** Keys of counting sort

    [countingSort] uses the numbers of the array as indices of its
    table.  A JavaScript array has the indices [0 .. 2^32 - 2]; the
    results on the output of counting sort and on the indices it
    records are stated for keys in that range. *)

Lemma index_keys_nonneg (l : list Z) :
  Forall (λ x, 0 ≤ x < 2 ^ 32 - 1) l → Forall (λ x, 0 ≤ x) l.
Proof. intros H. eapply Forall_impl; [exact H|]. simpl. lia. Qed.

(** * The claims *)

Section claims_display.
Context {Width Height Color : Type}.
Variable heightScale : option Z → Height.
Variable colorScale : Height → Color.
Abbreviation component := (component Width Height Color).
Abbreviation recorded :=
  (recorded (Width:=Width) (Height:=Height) (Color:=Color)).

Lemma finish_by_replay o l (this : component) getArray a' aux' ms :
  mirror (binDimensions this) (array_of l) →
  recorded (action_of heightScale colorScale o) (array_of l) [] a' ms →
  a' = array_of (merge_sort Z.le l) →
  let this' := Component a' getArray (binDimensions this) (reverse ms) []
                 aux' (uncaught this) false in
  generatedArray this' = array_of (merge_sort Z.le l) ∧
  let final := play heightScale colorScale o this' in
  shown (binDimensions final) = Some <$> merge_sort Z.le l ∧
  uncaught final = uncaught this ∧
  animations final = [] ∧ cleared final = true.
Proof.
  intros Hmirror Hrec ->. intros this'. split; [done|].
  destruct (play_recorded heightScale colorScale o this' (array_of l)
              (array_of (merge_sort Z.le l)) ms) as (Hs&?&?&?);
    [done|done|done|].
  rewrite items_array_of in Hs. done.
Qed.

(** C1 (amended): for bubble, merge and quick sort on every integer
    array, and for counting sort on every array of non-negative
    integers below 2^32 - 1 (the integers that are array indices), the
    sort leaves the array equal to the reference ascending sort, and
    replaying the recorded Move Log in emission order on a display of
    the array as it stood before the sort leaves the display showing
    that same sorted array, with no tick throwing. *)
Theorem replay_sorts_the_display o l :
  (o = CountingSort → Forall (λ x, 0 ≤ x < 2 ^ 32 - 1) l) →
  sorts_by_replay (Width:=Width) heightScale colorScale o l.
Proof.
  intros Hcs this getArray fuel Hgen Hmirror Hfuel.
  unfold onOptionClicked. rewrite Hgen. destruct o.
  - destruct (bubbleSort (array_of l) []) as [a' ms] eqn:E.
    cbn [mbind option_bind]. eexists. split; [done|].
    apply finish_by_replay; [done| |].
    + pose proof (bubbleSort_recorded (Width:=Width) (Height:=Height)
                    (Color:=Color) (array_of l) []) as H.
      by rewrite E in H.
    + pose proof (bubbleSort_sorts l []) as H. by rewrite E in H.
  - destruct (mergeSort_spec (Width:=Width) heightScale colorScale fuel (array_of l)
                empty_array [] 0 (len (array_of l) - 1))
      as (a'&aux'&ms&Hrun&Hre&Hsort&Hrec).
    { lia. }
    { apply defined_on_array_of; [lia|]. rewrite len_array_of. lia. }
    { lia. }
    { rewrite len_array_of. lia. }
    rewrite Hrun. cbn [mbind option_bind]. eexists. split; [done|].
    rewrite len_array_of in *.
    apply finish_by_replay; [done|done|]. by apply sorted_array_of.
  - specialize (Hcs eq_refl). apply index_keys_nonneg in Hcs.
    destruct (countingSort_slots l Hcs []) as (a'&Hrun&Hlen&Hout&Hslots).
    rewrite Hrun. cbn [mbind option_bind]. eexists. split; [done|].
    apply finish_by_replay; [done| |].
    + exists (counting_moves l). split; [done|]. intros d e Hd.
      by apply (counting_replay (Width:=Width) heightScale colorScale l a' d e).
    + by apply slots_sorted.
  - destruct (quickSort_spec (Width:=Width) (Height:=Height) (Color:=Color)
                fuel (array_of l) [] 0 (len (array_of l) - 1))
      as (a'&ms&Hrun&Hre&Hsort&Hrec).
    { lia. }
    { apply defined_on_array_of; [lia|]. rewrite len_array_of. lia. }
    { lia. }
    { rewrite len_array_of. lia. }
    rewrite Hrun. cbn [mbind option_bind]. eexists. split; [done|].
    rewrite len_array_of in *.
    apply finish_by_replay; [done|done|]. by apply sorted_array_of.
Qed.
End claims_display.

(** C1 (as stated) fails: counting sort on the integers [2, -1] leaves
    the array [2, 0] and a log whose replay shows [2, -1]. *)
Lemma counting_sort_negative_replay :
  ¬ sorts_by_replay (Width:=unit) (λ v : option Z, v) (λ h : option Z, h)
      CountingSort [2; -1].
Proof.
  intros H.
  destruct (H (Component (array_of [2; -1]) []
                 (calculateBinDimensions (λ v, v) (λ h, h) tt
                    (array_of [2; -1]))
                 [] [] empty_array 0%nat false) [] 5%nat)
    as (this'&Hrun&_&Hshown&_).
  - reflexivity.
  - apply mirror_calculateBinDimensions.
  - simpl. lia.
  - vm_compute in Hrun. injection Hrun as <-.
    vm_compute in Hshown. discriminate.
Qed.

(** C1 (amended) for counting sort on [2, 2, 0, 1]. *)
Lemma replay_sorts_the_display_witness :
  (CountingSort = CountingSort →
   Forall (λ x, 0 ≤ x < 2 ^ 32 - 1) [2; 2; 0; 1]) ∧
  sorts_by_replay (Width:=unit) (λ v : option Z, v) (λ h : option Z, h)
    CountingSort [2; 2; 0; 1].
Proof.
  split.
  - intros _. repeat constructor; (lia || reflexivity).
  - apply (replay_sorts_the_display (λ v, v) (λ h, h) CountingSort
             [2; 2; 0; 1]).
    intros _. repeat constructor; (lia || reflexivity).
Defined.

(** C2: for every array and all in-bounds [lo ≤ hi], [partition]
    returns an index [p] of the range with the pivot at [p], every
    element of [lo .. p-1] at most the pivot and every element of
    [p+1 .. hi] at least the pivot; the array holds a permutation of its
    former elements, and nothing outside [lo .. hi] has changed. *)
Theorem partition_correct (l : list Z) (animations : list Move) lo hi
    (fuel : nat) :
  0 ≤ lo → lo ≤ hi → hi < Z.of_nat (length l) →
  hi - lo + 2 ≤ Z.of_nat fuel →
  ∃ a' animations' p pv l',
    partition fuel (array_of l) animations lo hi = Some (a', animations', p) ∧
    lo ≤ p ≤ hi ∧ a' !! p = Some pv ∧
    (∀ k, lo ≤ k ≤ p - 1 → ∃ x, a' !! k = Some x ∧ x ≤ pv) ∧
    (∀ k, p + 1 ≤ k ≤ hi → ∃ x, a' !! k = Some x ∧ pv ≤ x) ∧
    a' = array_of l' ∧ l' ≡ₚ l ∧
    (∀ k, ¬ (lo ≤ k ≤ hi) → a' !! k = array_of l !! k).
Proof.
  intros Hlo Hle Hhi Hfuel.
  destruct (partition_spec (Width:=unit) (Height:=unit) (Color:=unit)
              fuel (array_of l) animations lo hi)
    as (a'&animations'&p&pv&Hrun&Hre&Hp&Hpv&Hbelow&Habove&_);
    [done|by rewrite len_array_of|by apply defined_on_array_of|done|].
  destruct (rearranged_array_of l a' lo hi) as (l'&Ha'&Hperm); [done..|].
  pose proof (rearranged_defined _ _ _ _ Hre
                (defined_on_array_of l lo hi Hlo Hhi)) as Hdef.
  exists a', animations', p, pv, l'.
  split_and!; [done|lia|lia|done| | |done|done|apply Hre].
  - intros k Hk. destruct (Hdef k) as [x Hx]; [lia|].
    exists x. split; [done|]. apply (Hbelow k); [lia|done].
  - intros k Hk. destruct (Hdef k) as [x Hx]; [lia|].
    exists x. split; [done|]. apply Z.lt_le_incl, (Habove k); [lia|done].
Qed.

(** C2 on [5, 3, 1, 4, 2] and the whole range. *)
Lemma partition_correct_witness :
  (0 ≤ 0 ∧ 0 ≤ 4 ∧ 4 < Z.of_nat (length [5; 3; 1; 4; 2]) ∧
   4 - 0 + 2 ≤ Z.of_nat 6) ∧
  ∃ r, partition 6 (array_of [5; 3; 1; 4; 2]) [] 0 4 = Some r.
Proof.
  split; [simpl; lia|].
  destruct (partition_correct [5; 3; 1; 4; 2] [] 0 4 6)
    as (a'&animations'&p&_&_&Hrun&_); [simpl; lia..|].
  by exists (a', animations', p).
Defined.

(** C3: for every array and all in-bounds [lo ≤ hi], the scans of
    [partition] stop inside [lo .. hi], [partition] returns an index [p]
    with [lo ≤ p ≤ hi], so both recursive ranges are strictly smaller
    than [lo .. hi], and [quickSort] returns; a larger bound on the
    rounds changes no result. *)
Theorem quick_sort_terminates (l : list Z) (animations : list Move) lo hi :
  0 ≤ lo → lo ≤ hi → hi < Z.of_nat (length l) →
  (∀ fuel : nat, hi - lo + 2 ≤ Z.of_nat fuel →
     (∃ s, advance_start fuel (array_of l) (array_of l !! lo) hi lo = Some s ∧
           lo ≤ s ≤ hi) ∧
     (∃ e, retreat_end fuel (array_of l) (array_of l !! lo) hi = Some e ∧
           lo ≤ e ≤ hi) ∧
     (∃ a' animations' p,
        partition fuel (array_of l) animations lo hi
          = Some (a', animations', p) ∧
        lo ≤ p ≤ hi ∧
        (p - 1) - lo < hi - lo ∧ hi - (p + 1) < hi - lo)) ∧
  (∀ fuel : nat, hi - lo + 3 ≤ Z.of_nat fuel →
     ∃ a' animations',
       quickSort fuel (array_of l) animations lo hi = Some (a', animations')) ∧
  (∀ (fuel fuel' : nat) r, (fuel ≤ fuel')%nat →
     (partition fuel (array_of l) animations lo hi = Some r →
      partition fuel' (array_of l) animations lo hi = Some r) ∧
     ∀ r', quickSort fuel (array_of l) animations lo hi = Some r' →
           quickSort fuel' (array_of l) animations lo hi = Some r').
Proof.
  intros Hlo Hle Hhi.
  pose proof (defined_on_array_of l lo hi Hlo Hhi) as Hdef.
  destruct (Hdef lo) as [pv Hpv]; [lia|].
  split_and!.
  - intros fuel Hfuel. rewrite Hpv. split_and!.
    + destruct (advance_start_spec fuel (array_of l) pv hi lo hi)
        as (s&Hs&?&_); [lia|lia|done|by left|lia|].
      by exists s.
    + destruct (retreat_end_spec fuel (array_of l) pv hi lo)
        as (e&He&?&_); [lia|done| |lia|].
      { exists pv. split; [done|lia]. }
      by exists e.
    + destruct (partition_spec (Width:=unit) (Height:=unit) (Color:=unit)
                  fuel (array_of l) animations lo hi)
        as (a'&animations'&p&_&Hrun&_&Hp&_);
        [done|by rewrite len_array_of|done|done|].
      exists a', animations', p. split_and!; [done|lia..].
  - intros fuel Hfuel.
    destruct (quickSort_spec (Width:=unit) (Height:=unit) (Color:=unit)
                fuel (array_of l) animations lo hi)
      as (a'&animations'&Hrun&_);
      [by rewrite len_array_of|done|lia|done|].
    by exists a', animations'.
  - intros fuel fuel' r Hfuel. split.
    + intros H. by apply (partition_mono fuel).
    + intros r' H. by apply (quickSort_mono fuel).
Qed.

(** C3 on the descending array [5, 4, 3, 3, 1]. *)
Lemma quick_sort_terminates_witness :
  (0 ≤ 0 ∧ 0 ≤ 4 ∧ 4 < Z.of_nat (length [5; 4; 3; 3; 1])) ∧
  ∃ r, quickSort 7 (array_of [5; 4; 3; 3; 1]) [] 0 4 = Some r.
Proof.
  split; [simpl; lia|].
  destruct (quick_sort_terminates [5; 4; 3; 3; 1] [] 0 4) as (_&Hq&_);
    [simpl; lia..|].
  destruct (Hq 7%nat) as (a'&animations'&Hrun); [simpl; lia|].
  by exists (a', animations').
Defined.

(** C4: for every array [a] and [lo ≤ mid < hi] with [a[lo..mid]] and
    [a[mid+1..hi]] sorted ascending, [merge] leaves [a[lo..hi]] sorted
    ascending, holding the left-biased merge [M] of the two runs (on a
    tie the loop takes the element of the left run), and appends to the
    log exactly one move per index [k] of [lo .. hi], in increasing
    order of [k], carrying the value written at [k]. *)
Theorem merge_merges_sorted_runs (a aux : jsarray Z) (animations : list Move)
    lo mid hi :
  lo ≤ mid → mid < hi → hi < len a → defined_on a lo hi →
  sorted_on a lo mid → sorted_on a (mid + 1) hi →
  ∃ a' aux' L R M,
    slice a lo (length L) = Some <$> L ∧
    slice a (mid + 1) (length R) = Some <$> R ∧
    Z.of_nat (length L) = mid + 1 - lo ∧ Z.of_nat (length R) = hi - mid ∧
    M = list_merge Z.le L R ∧
    merge a aux animations lo mid hi =
      (a', aux', animations ++ merge_moves lo M) ∧
    Z.of_nat (length M) = hi - lo + 1 ∧
    slice a' lo (length M) = Some <$> M ∧
    sorted_on a' lo hi ∧ rearranged a' a lo hi ∧
    (∀ k st x, ms_i st ≤ mid → ms_j st ≤ hi →
       aux' !! ms_i st = Some x → aux' !! ms_j st = Some x →
       merge_body aux' mid hi k st =
         MergeState (store (ms_a st) k (Some x))
           (push (ms_animations st) (MergeSet k (Some x)))
           (ms_i st + 1) (ms_j st)).
Proof.
  intros Hlm Hmh Hlen Hdef HsL HsR.
  destruct (merge_sorted (Width:=unit) (Height:=unit) (Color:=unit)
              (λ _, tt) (λ _, tt) a aux animations lo mid hi)
    as (a'&aux'&L&R&HL&HR&HlenL&HlenR&Hrun&Hs&Hre&Hsort&_);
    [lia|lia|done..|].
  exists a', aux', L, R, (list_merge Z.le L R).
  split_and!; [done|done|done|done|done|done| |done|done|done|].
  - rewrite length_list_merge. lia.
  - intros k st x. apply merge_body_tie.
Qed.

(** C4 on the runs [2, 5] and [2, 7]. *)
Lemma merge_merges_sorted_runs_witness :
  (0 ≤ 1 ∧ 1 < 3 ∧ 3 < len (array_of [2; 5; 2; 7])) ∧
  ∃ r, merge (array_of [2; 5; 2; 7]) empty_array [] 0 1 3 = r.
Proof.
  split; [simpl; lia|].
  destruct (merge_merges_sorted_runs (array_of [2; 5; 2; 7]) empty_array []
              0 1 3) as (a'&aux'&L&R&M&_&_&_&_&_&Hrun&_).
  - lia.
  - lia.
  - simpl. lia.
  - apply defined_on_array_of; simpl; lia.
  - apply (slice_sorted_on (array_of [2; 5; 2; 7]) 0 [2; 5]); [reflexivity|].
    repeat constructor; lia.
  - apply (slice_sorted_on (array_of [2; 5; 2; 7]) 2 [2; 7]); [reflexivity|].
    repeat constructor; lia.
  - by eexists.
Defined.

(** The move recorded for input index [i]. *)
Lemma lookup_counting_moves (l : list Z) (i : nat) v :
  l !! i = Some v →
  counting_moves l !! (length l - 1 - i)%nat
    = Some (CountingSet (Num (slot l i)) (Some v)).
Proof.
  intros Hv. pose proof (lookup_lt_Some _ _ _ Hv) as Hi.
  unfold counting_moves.
  rewrite list_lookup_fmap, reverse_lookup by (rewrite length_seq; lia).
  rewrite length_seq.
  replace (length l - S (length l - 1 - i))%nat with i by lia.
  rewrite lookup_seq_lt by done. simpl. by rewrite Hv.
Qed.

(** C5: [countingSort] is stable: on every array of non-negative
    integers below 2^32 - 1 (the integers that are array indices), the
    placement loop runs from the last index backward, so the move for
    input index [i] is the [(N-1-i)]-th of the log; two equal elements
    are assigned output indices in the order of their input indices,
    and the output holds them there. *)
Theorem countingSort_stable (l : list Z) (animations : list Move) :
  Forall (λ x, 0 ≤ x < 2 ^ 32 - 1) l →
  ∃ a' log,
    countingSort (array_of l) animations = (a', animations ++ log) ∧
    a' = array_of (merge_sort Z.le l) ∧
    ∀ (i j : nat) v, (i < j)%nat → l !! i = Some v → l !! j = Some v →
      ∃ p q,
        log !! (length l - 1 - i)%nat = Some (CountingSet (Num p) (Some v)) ∧
        log !! (length l - 1 - j)%nat = Some (CountingSet (Num q) (Some v)) ∧
        p < q ∧ a' !! p = Some v ∧ a' !! q = Some v.
Proof.
  intros Hnonneg%index_keys_nonneg.
  destruct (countingSort_slots l Hnonneg animations)
    as (a'&Hrun&Hlen&Hout&Hslots).
  exists a', (counting_moves l). split_and!; [done|by apply slots_sorted|].
  intros i j v Hij Hi Hj.
  pose proof (lookup_lt_Some _ _ _ Hi). pose proof (lookup_lt_Some _ _ _ Hj).
  exists (slot l i), (slot l j).
  rewrite !Hslots by done.
  split_and!; [by apply lookup_counting_moves..| |done|done].
  by apply (slot_stable l i j v).
Qed.

(** C5 on [2, 2, 0, 1]. *)
Lemma countingSort_stable_witness :
  Forall (λ x, 0 ≤ x < 2 ^ 32 - 1) [2; 2; 0; 1] ∧
  ∃ r, countingSort (array_of [2; 2; 0; 1]) [] = r.
Proof.
  split; [repeat constructor; (lia || reflexivity)|].
  destruct (countingSort_stable [2; 2; 0; 1] []) as (a'&log&Hrun&_).
  - repeat constructor; (lia || reflexivity).
  - by eexists.
Defined.






Lemma omap_target_counting (l : list Z) (xs : list nat) :
  Forall (λ i, i < length l)%nat xs →
  omap target ((λ i, CountingSet (Num (slot l i)) (l !! i)) <$> xs)
    = slot l <$> xs.
Proof.
  induction 1 as [|i xs Hi _ IH]; [done|].
  rewrite !fmap_cons. cbn [omap list_omap target]. by rewrite IH.
Qed.

(** C10: on every array of [N] non-negative integers below 2^32 - 1
    (the integers that are array indices), [countingSort] records
    exactly [N] moves, each setting a numeric index to a number, and the
    target indices are the indices [0 .. N-1], each once. *)
Theorem countingSort_writes_each_index_once (l : list Z)
    (animations : list Move) :
  Forall (λ x, 0 ≤ x < 2 ^ 32 - 1) l →
  ∃ a' log,
    countingSort (array_of l) animations = (a', animations ++ log) ∧
    length log = length l ∧
    Forall (λ m, ∃ p v, m = CountingSet (Num p) (Some v)) log ∧
    omap target log ≡ₚ seqZ 0 (Z.of_nat (length l)).
Proof.
  intros Hnonneg%index_keys_nonneg.
  destruct (countingSort_slots l Hnonneg animations) as (a'&Hrun&_).
  exists a', (counting_moves l).
  assert (Hin : Forall (λ i, i < length l)%nat (reverse (seq 0 (length l)))).
  { apply Forall_forall. intros i Hi%elem_of_reverse%elem_of_seq. lia. }
  split_and!; [done|..].
  - unfold counting_moves. by rewrite length_fmap, length_reverse, length_seq.
  - unfold counting_moves. apply Forall_fmap.
    eapply Forall_impl; [exact Hin|]. intros i Hi. simpl.
    destruct (lookup_lt_is_Some_2 l i Hi) as [v ->]. by eexists _, _.
  - unfold counting_moves. rewrite omap_target_counting by done.
    rewrite fmap_reverse, reverse_Permutation. apply slots_Permutation.
Qed.

(** C10 on [3, 0, 3]. *)
Lemma countingSort_writes_each_index_once_witness :
  Forall (λ x, 0 ≤ x < 2 ^ 32 - 1) [3; 0; 3] ∧
  ∃ log, (countingSort (array_of [3; 0; 3]) []).2 = log ∧
         length log = 3%nat.
Proof.
  split; [repeat constructor; (lia || reflexivity)|].
  destruct (countingSort_writes_each_index_once [3; 0; 3] [])
    as (a'&log&Hrun&Hlen&_).
  - repeat constructor; (lia || reflexivity).
  - exists log. by rewrite Hrun.
Defined.

(** C9: the subscriber of the comparison-count subject assigns
    [comparisonCount] from itself: whatever count is emitted, the
    component, and with it the displayed comparison count, is left as it
    was. *)
Theorem comparison_count_not_propagated (newCount : Z) (this : AppComponent) :
  comparisonCount (onComparisonCount newCount this) = comparisonCount this ∧
  onComparisonCount newCount this = this.
Proof. by destruct this. Qed.

Section claims_validator.
Context {Width Height Color : Type}.
Abbreviation component := (component Width Height Color).
Abbreviation bin := (bin Width Height Color).

(** C7: [validateArray] compares the display with the ascending sort of
    the retained array from index 0 upward.  When the values of the bins
    [bs] at the indices [0 .. k-1] match the reference and either [k] is
    the length of the reference (a full match) or no bin with the
    reference's value is at [k] (the first divergence), it records a
    Validation Record for exactly the indices [0 .. k-1], in increasing
    order, each with the colour of its bin, and none beyond; it returns
    unless the display has no bin at all at [k]. *)
Theorem validateArray_marks_matching_prefix (this : component) (k : nat)
    (bs : list bin) :
  let sorted := merge_sort Z.le (generatedArrayUnsorted this) in
  length bs = k → (k ≤ length sorted)%nat →
  (∀ (n : nat) b, bs !! n = Some b →
     binDimensions this !! Z.of_nat n = Some b ∧ value b = sorted !! n) →
  (k = length sorted ∨
   ∀ b, binDimensions this !! Z.of_nat k = Some b → value b ≠ sorted !! k) →
  validationAnimations (state_of (validateArray this)) =
    validationAnimations this ++ imap (λ n b, (Z.of_nat n, color b)) bs ∧
  binDimensions (state_of (validateArray this)) = binDimensions this ∧
  generatedArrayUnsorted (state_of (validateArray this)) = sorted ∧
  (k = length sorted ∨ is_Some (binDimensions this !! Z.of_nat k) →
   validateArray this = Done (state_of (validateArray this))).
Proof.
  intros sorted Hbs Hk Hmatch Hstop.
  assert (Hloop : validate_loop sorted 0 (binDimensions this)
                    (validationAnimations this) =
                  (if bool_decide (drop k sorted = [] ∨
                                   is_Some (binDimensions this !! Z.of_nat k))
                   then Done else Threw)
                    (validationAnimations this ++
                       imap (λ n b, (0 + Z.of_nat n, color b)) bs)).
  { rewrite <-(take_drop k sorted) at 1.
    rewrite (validate_loop_prefix (take k sorted) (drop k sorted) 0 bs).
    - by rewrite length_take_le, Z.add_0_l by lia.
    - rewrite length_take_le; lia.
    - intros n b Hn. pose proof (lookup_lt_Some _ _ _ Hn).
      destruct (Hmatch n b Hn) as [Hb Hv]. rewrite Z.add_0_l.
      split; [done|]. rewrite lookup_take_lt by lia. done.
    - rewrite length_take_le, Z.add_0_l by lia.
      destruct Hstop as [->|Hne]; [left; apply drop_all|].
      right. intros b Hb. rewrite lookup_drop, Nat.add_0_r. by apply Hne. }
  unfold validateArray. cbv zeta. fold sorted. rewrite Hloop.
  case_bool_decide as Hdone; simpl.
  - split_and!; done.
  - split_and!; [done..|]. intros [->|?].
    + destruct Hdone. left. apply drop_all.
    + destruct Hdone. by right.
Qed.
End claims_validator.

(** C7 on a display showing [1, 3, 2] against the reference [1, 2, 3]. *)
Lemma validateArray_marks_matching_prefix_witness :
  let this :=
    Component (array_of [1; 2; 3]) [3; 1; 2]
      (array_of [Bin (Some 1) tt tt 10; Bin (Some 3) tt tt 30;
                 Bin (Some 2) tt tt 20])
      [] [] empty_array 0%nat true in
  (length [Bin (Some 1) tt tt 10] = 1%nat ∧
   (1 ≤ length (merge_sort Z.le [3; 1; 2]%Z))%nat) ∧
  validationAnimations (state_of (validateArray this)) = [(0, 10)].
Proof.
  intros this. split; [split; [reflexivity|vm_compute; lia]|].
  destruct (validateArray_marks_matching_prefix this 1
              [Bin (Some 1) tt tt 10]) as (Hlog&_).
  - reflexivity.
  - vm_compute. lia.
  - intros [|n] b Hn; [|done]. injection Hn as <-. split; reflexivity.
  - right. intros b Hb. vm_compute in Hb. injection Hb as <-.
    vm_compute. discriminate.
  - by rewrite Hlog.
Defined.

Lemma bubbleSort_until_step (a : jsarray Z) (animations : list Move) i :
  i ≤ len a - 1 →
  bubbleSort_until a animations i =
    bubble (bubbleSort_until a animations (i + 1)).1
           (bubbleSort_until a animations (i + 1)).2 0 i.
Proof.
  intros Hi. unfold bubbleSort_until, for_down.
  replace (Z.to_nat (len a - 1 - i + 1))
    with (S (Z.to_nat (len a - 1 - (i + 1) + 1))) by lia.
  rewrite for_down_n_snoc. f_equal. lia.
Qed.

(** A pass puts the maximum of the range at its upper end. *)
Lemma bubble_places_maximum (a : jsarray Z) (animations : list Move) i :
  0 ≤ i → i < len a → defined_on a 0 i →
  ∃ m, (bubble a animations 0 i).1 !! i = Some m ∧
       Some m ∈ slice a 0 (Z.to_nat (i + 1)) ∧
       ∀ k x, 0 ≤ k ≤ i → a !! k = Some x → x ≤ m.
Proof.
  intros Hi Hlen Hdef.
  destruct (bubble_pass a animations 0 i) as [Hre Hmax]; [done..|].
  set (a' := (bubble a animations 0 i).1) in *.
  pose proof (rearranged_defined _ _ _ _ Hre Hdef) as Hdef'.
  destruct (Hdef' i) as [m Hm]; [lia|].
  exists m. split_and!; [done| |].
  - destruct Hre as (_&_&Hperm).
    replace (i - 0 + 1) with (i + 1) in Hperm by lia.
    rewrite <-Hperm. apply list_elem_of_lookup. exists (Z.to_nat i).
    rewrite lookup_slice by lia. do 2 f_equal.
    by replace (0 + Z.of_nat (Z.to_nat i)) with i by lia.
  - intros k x Hk Hx.
    apply (rearranged_Forall (λ v, ∀ x, v = Some x → x ≤ m) a a' 0 i
             (rearranged_sym _ _ _ _ Hre)) with k; [|done|done].
    intros k' Hk' x' Hx'. by apply (Hmax k').
Qed.

(** C8: the outer index of [bubbleSort] descends from [N-1] to 1, each
    pass being [bubble(array, 0, i)]; on every array such a pass places
    the maximum of [array[0..i]] at index [i]; and after the pass with
    outer index [i] the suffix [array[i..N-1]] is sorted and holds
    elements that are at least every element before it. *)
Theorem bubble_passes_settle_the_suffix (l : list Z) (animations : list Move)
    i :
  1 ≤ i → i < Z.of_nat (length l) →
  let N := Z.of_nat (length l) in
  let before := bubbleSort_until (array_of l) animations (i + 1) in
  let after := bubbleSort_until (array_of l) animations i in
  bubbleSort (array_of l) animations
    = bubbleSort_until (array_of l) animations 1 ∧
  bubbleSort_until (array_of l) animations N = (array_of l, animations) ∧
  after = bubble before.1 before.2 0 i ∧
  (∀ (l0 : list Z) (animations0 : list Move), i < Z.of_nat (length l0) →
     ∃ m, (bubble (array_of l0) animations0 0 i).1 !! i = Some m ∧
          Some m ∈ slice (array_of l0) 0 (Z.to_nat (i + 1)) ∧
          ∀ k x, 0 ≤ k ≤ i → array_of l0 !! k = Some x → x ≤ m) ∧
  sorted_on after.1 i (N - 1) ∧
  (∀ p q x y, 0 ≤ p < i → i ≤ q < N →
     after.1 !! p = Some x → after.1 !! q = Some y → x ≤ y) ∧
  ∃ l', after.1 = array_of l' ∧ l' ≡ₚ l.
Proof.
  intros Hi HiN N before after.
  destruct (bubbleSort_passes (array_of l) animations i) as (Hre&Hsort&Hsplit);
    [lia|rewrite len_array_of; lia| |].
  { apply defined_on_array_of; [lia|]. rewrite len_array_of. lia. }
  rewrite len_array_of in *.
  split_and!.
  - reflexivity.
  - unfold bubbleSort_until. rewrite len_array_of.
    by rewrite for_down_empty by (unfold N; lia).
  - apply bubbleSort_until_step. rewrite len_array_of. lia.
  - intros l0 animations0 Hl0. apply bubble_places_maximum; [lia| |].
    + by rewrite len_array_of.
    + apply defined_on_array_of; lia.
  - exact Hsort.
  - exact Hsplit.
  - apply (rearranged_array_of l after.1 0 (N - 1)); [lia|unfold N; lia|].
    exact Hre.
Qed.

(** C8 for the pass with outer index 3 on [5, 3, 1, 4, 2]. *)
Lemma bubble_passes_settle_the_suffix_witness :
  (1 ≤ 3 ∧ 3 < Z.of_nat (length [5; 3; 1; 4; 2])) ∧
  sorted_on (bubbleSort_until (array_of [5; 3; 1; 4; 2]) [] 3).1 3 4.
Proof.
  split; [simpl; lia|].
  apply (bubble_passes_settle_the_suffix [5; 3; 1; 4; 2] [] 3); simpl; lia.
Defined.

(** * Further properties *)

(** ** Loops *)

Section loops_preserve.
Context {S : Type}.
Implicit Types (body : Z → S → S).

Lemma for_up_preserves (P : S → Prop) n i body s :
  (∀ k s, P s → P (body k s)) → P s → P (for_up n i body s).
Proof.
  intros Hstep. revert i s. induction n as [|n IH]; intros i s Hs; [done|].
  simpl. apply IH, Hstep, Hs.
Qed.

Lemma for_range_preserves (P : S → Prop) from to body s :
  (∀ k s, P s → P (body k s)) → P s → P (for_range from to body s).
Proof. apply for_up_preserves. Qed.

Lemma for_down_n_preserves (P : S → Prop) n i body s :
  (∀ k s, P s → P (body k s)) → P s → P (for_down_n n i body s).
Proof.
  intros Hstep. revert i s. induction n as [|n IH]; intros i s Hs; [done|].
  simpl. apply IH, Hstep, Hs.
Qed.

Lemma for_down_preserves (P : S → Prop) from to body s :
  (∀ k s, P s → P (body k s)) → P s → P (for_down from to body s).
Proof. apply for_down_n_preserves. Qed.
End loops_preserve.

(** ** The swaps of bubble sort *)

Section bubble_inversions.
Implicit Types (l p s : list Z).

Lemma inversions_app_swap p x y s :
  y < x → inversions (p ++ x :: y :: s) = S (inversions (p ++ y :: x :: s)).
Proof.
  intros Hlt. induction p as [|q p IH]; simpl.
  - rewrite !filter_cons. rewrite decide_True by done.
    rewrite decide_False by lia. simpl. lia.
  - rewrite IH. f_equal.
    assert (E : p ++ x :: y :: s ≡ₚ p ++ y :: x :: s).
    { apply Permutation_app_head, perm_swap. }
    rewrite E. lia.
Qed.

Lemma filter_nil_Forall {A} (P : A → Prop) `{∀ x, Decision (P x)}
    (xs : list A) :
  filter P xs = [] ↔ Forall (λ x, ¬ P x) xs.
Proof.
  induction xs as [|x xs IH]; [by split|].
  rewrite filter_cons, Forall_cons. case_decide.
  - split; [done|]. by intros [??].
  - rewrite IH. tauto.
Qed.

Lemma inversions_sorted l : StronglySorted Z.le l ↔ inversions l = 0%nat.
Proof.
  induction l as [|x l IH]; simpl.
  - split; [done|constructor].
  - split.
    + intros H. apply StronglySorted_inv in H as [Hs Hx].
      apply IH in Hs. rewrite Hs.
      rewrite (proj2 (filter_nil_Forall _ _)); [done|].
      eapply Forall_impl; [exact Hx|]. simpl. lia.
    + intros H.
      assert (H1 : filter (λ y, y < x) l = []) by (apply length_zero_iff_nil; lia).
      assert (H2 : inversions l = 0%nat) by lia.
      constructor; [by apply IH|].
      apply filter_nil_Forall in H1.
      eapply Forall_impl; [exact H1|]. simpl. lia.
Qed.

(** Exchanging two neighbours of a dense array. *)
Lemma swap_array_of_adjacent p x y s :
  swap (array_of (p ++ x :: y :: s)) (Z.of_nat (length p))
       (Z.of_nat (length p) + 1)
    = array_of (p ++ y :: x :: s).
Proof.
  apply jsarray_eq.
  - rewrite len_swap; rewrite ?len_array_of, ?length_app; simpl; lia.
  - intros k. rewrite lookup_swap, !lookup_array_of.
    replace (Z.of_nat (length p) + 1) with (Z.of_nat (S (length p))) by lia.
    rewrite !(decide_True (P:=0 ≤ Z.of_nat _)) by lia. rewrite !Nat2Z.id.
    destruct (decide (k = Z.of_nat (S (length p)))) as [->|Hk1].
    { rewrite decide_True, Nat2Z.id by lia.
      rewrite !lookup_app_r by lia.
      replace (S (length p) - length p)%nat with 1%nat by lia.
      by rewrite Nat.sub_diag. }
    destruct (decide (k = Z.of_nat (length p))) as [->|Hk2].
    { rewrite decide_True, Nat2Z.id by lia.
      rewrite !lookup_app_r by lia.
      replace (S (length p) - length p)%nat with 1%nat by lia.
      by rewrite Nat.sub_diag. }
    case_decide; [|done].
    destruct (decide (Z.to_nat k < length p)%nat).
    { by rewrite !lookup_app_l by done. }
    rewrite !lookup_app_r by lia.
    destruct (Z.to_nat k - length p)%nat as [|[|m]] eqn:E; [lia|lia|done].
Qed.

(** A step of a bubble pass keeps the array dense and pays for every
    move it records with one inversion. *)
Lemma bubble_body_inversions i l animations :
  ∃ l', (bubble_body i (array_of l, animations)).1 = array_of l' ∧
        length l' = length l ∧
        (inversions l' + length (bubble_body i (array_of l, animations)).2
          = inversions l + length animations)%nat.
Proof.
  unfold bubble_body.
  destruct (array_of l !! i) as [x|] eqn:Hx; [|by exists l].
  destruct (array_of l !! (i + 1)) as [y|] eqn:Hy; [|by exists l].
  rewrite js_gt_Some. case_bool_decide as Hlt; [|by exists l].
  rewrite lookup_array_of in Hx, Hy.
  destruct (decide (0 ≤ i)) as [Hi|]; [|done].
  rewrite decide_True in Hy by lia.
  replace (Z.to_nat (i + 1)) with (S (Z.to_nat i)) in Hy by lia.
  pose proof (take_drop_middle _ _ _ Hx) as E.
  assert (Hd : drop (S (Z.to_nat i)) l = y :: drop (S (S (Z.to_nat i))) l).
  { by apply drop_S. }
  rewrite Hd in E.
  assert (Hlen : length (take (Z.to_nat i) l) = Z.to_nat i).
  { apply length_take_le. apply lookup_lt_Some in Hx. lia. }
  clear Hd Hx Hy. revert E Hlen.
  generalize (take (Z.to_nat i) l) (drop (S (S (Z.to_nat i))) l).
  intros p s <- Hlen. exists (p ++ y :: x :: s).
  simpl. split_and!.
  - replace i with (Z.of_nat (length p)) by lia.
    apply swap_array_of_adjacent.
  - rewrite !length_app. simpl. lia.
  - rewrite (inversions_app_swap _ x y) by done.
    unfold push. rewrite length_app. simpl. lia.
Qed.

Lemma bubble_inversions l animations lo hi :
  paid l animations (bubble (array_of l) animations lo hi).
Proof.
  unfold bubble. apply for_range_preserves.
  - intros k [a m] (l1&E&Hlen&Hinv). cbn [fst snd] in *. subst a.
    destruct (bubble_body_inversions k l1 m) as (l2&E2&Hlen2&Hinv2).
    exists l2. split_and!; [done|congruence|congruence].
  - by exists l.
Qed.

Lemma bubbleSort_inversions l animations :
  paid l animations (bubbleSort (array_of l) animations).
Proof.
  unfold bubbleSort. apply for_down_preserves.
  - intros k [a m] (l1&E&Hlen&Hinv). cbn [fst snd] in *. subst a.
    destruct (bubble_inversions l1 m 0 k) as (l2&E2&Hlen2&Hinv2).
    exists l2. split_and!; [done|congruence|congruence].
  - by exists l.
Qed.

Lemma array_of_inj {A} (l1 l2 : list A) : array_of l1 = array_of l2 → l1 = l2.
Proof.
  intros E. apply (f_equal items) in E. rewrite !items_array_of in E.
  by apply (inj (fmap Some)) in E.
Qed.

Lemma inversions_bound l :
  (2 * inversions l ≤ length l * (length l - 1))%nat.
Proof.
  induction l as [|x l IH]; simpl; [lia|].
  pose proof (length_filter (λ y, y < x) l). nia.
Qed.
End bubble_inversions.

(** X1: the moves a bubble sort records are as many as its input has
    inversions (pairs of positions whose numbers descend), so at most
    N(N-1)/2; the log is left as it was exactly when the input already
    ascends. *)
Theorem bubbleSort_records_inversions (l : list Z) (animations : list Move) :
  let log := (bubbleSort (array_of l) animations).2 in
  length log = (length animations + inversions l)%nat ∧
  (2 * (length log - length animations) ≤ length l * (length l - 1))%nat ∧
  (log = animations ↔ StronglySorted Z.le l).
Proof.
  intros log.
  destruct (bubbleSort_inversions l animations) as (l'&Hl'&_&Hinv).
  rewrite bubbleSort_sorts in Hl'. apply array_of_inj in Hl'. subst l'.
  assert (Hs : inversions (merge_sort Z.le l) = 0%nat).
  { apply inversions_sorted, Sorted_StronglySorted; [apply _|].
    apply Sorted_merge_sort; apply _. }
  fold log in Hinv. rewrite Hs in Hinv.
  destruct (bubbleSort_recorded (Width:=unit) (Height:=unit) (Color:=unit)
              (array_of l) animations) as (ms&Hms&_).
  fold log in Hms.
  pose proof (inversions_bound l).
  split_and!; [lia|lia|].
  rewrite inversions_sorted. split.
  - intros E. rewrite E in Hinv. lia.
  - intros E. rewrite Hms in Hinv |- *. rewrite length_app in Hinv.
    destruct ms; [by rewrite app_nil_r|simpl in Hinv; lia].
Qed.

(** ** The display and the players *)

Section display_extras.
Context {Width Height Color : Type}.
Variable heightScale : option Z → Height.
Variable colorScale : Height → Color.
Abbreviation bin := (bin Width Height Color).
Abbreviation component := (component Width Height Color).

(** X2: [calculateBinDimensions] rebuilds the display from the array
    alone: one bin for each index below the array's length and none
    elsewhere, the bin at [k] holding the element at [k], its scaled
    height and the colour of that height. *)
Theorem calculateBinDimensions_bins (fixedWidth : Width) (a : jsarray Z) :
  let d := calculateBinDimensions heightScale colorScale fixedWidth a in
  len d = Z.max 0 (len a) ∧
  ∀ k, if decide (0 ≤ k < len a)
       then ∃ b, d !! k = Some b ∧ value b = a !! k ∧
                 height b = heightScale (a !! k) ∧
                 color b = colorScale (heightScale (a !! k))
       else d !! k = None.
Proof.
  intros d. unfold d, calculateBinDimensions.
  set (body := λ i binDimensions, store binDimensions i _).
  destruct (decide (0 ≤ len a)) as [Hlen|Hlen]; cycle 1.
  { rewrite for_range_empty by lia. split; [simpl; lia|].
    intros k. rewrite decide_False by lia. apply lookup_empty_array. }
  pose proof (for_range_inv (λ i (d : jsarray bin), len d = i ∧ ∀ k,
      if decide (0 ≤ k < i)
      then ∃ b, d !! k = Some b ∧ value b = a !! k ∧
                height b = heightScale (a !! k) ∧
                color b = colorScale (heightScale (a !! k))
      else d !! k = None) 0 (len a) body empty_array Hlen) as Hinv.
  cbv beta in Hinv. destruct Hinv as [Hl Hk].
  - split; [done|]. intros k. rewrite decide_False by lia.
    apply lookup_empty_array.
  - intros i d' Hi [Hl Hd]. split.
    + unfold body. rewrite len_store, bool_decide_eq_true_2; lia.
    + intros k. unfold body. rewrite lookup_store.
      specialize (Hd k). destruct (decide (i = k)) as [->|].
      * rewrite decide_True by lia. by eexists.
      * destruct (decide (0 ≤ k < i)).
        -- by rewrite decide_True by lia.
        -- by rewrite decide_False by lia.
  - split; [lia|done].
Qed.

Lemma ticks_take n o ms (this : component) :
  animations this = reverse ms → (n ≤ length ms)%nat →
  let s := ticks heightScale colorScale n o this in
  let r := replay (action_of heightScale colorScale o) (take n ms)
             (binDimensions this, uncaught this) in
  animations s = reverse (drop n ms) ∧
  binDimensions s = r.1 ∧ uncaught s = r.2 ∧
  ((1 ≤ n)%nat → cleared s = false).
Proof.
  revert this ms. induction n as [|n IH]; intros this ms Hthis Hn.
  - simpl. split_and!; [done|done|done|lia].
  - destruct ms as [|m ms]; [simpl in Hn; lia|].
    cbn [ticks take drop].
    set (this' := tick heightScale colorScale o this).
    assert (E : this' = 
      let r := action_of heightScale colorScale o m (binDimensions this) in
      Component (generatedArray this) (generatedArrayUnsorted this)
        (state_of r) (reverse ms) (validationAnimations this)
        (auxiliaryArray this)
        (if threw r then S (uncaught this) else uncaught this) false).
    { unfold this', tick. rewrite Hthis, reverse_cons. unfold pop.
      by rewrite last_snoc, removelast_last. }
    destruct (IH this' ms) as (H1&H2&H3&H4).
    { by rewrite E. }
    { simpl in Hn. lia. }
    split_and!; [done| | |].
    + rewrite H2, E. done.
    + rewrite H3, E. done.
    + intros _. destruct n as [|n']; [|apply H4; lia].
      simpl. by rewrite E.
Qed.

(** X3: a player pops the reversed log from its end, so it applies the
    moves in the order they were recorded: after [n] ticks the first
    [n] moves have been applied and the rest is still queued, the
    interval is not cleared while moves are left, and the tick after
    the last move clears it. *)
Theorem player_applies_moves_in_recorded_order o (ms : list Move)
    (this : component) :
  animations this = reverse ms →
  (∀ n, (n ≤ length ms)%nat →
     let s := ticks heightScale colorScale n o this in
     animations s = reverse (drop n ms) ∧
     (binDimensions s, uncaught s) =
       replay (action_of heightScale colorScale o) (take n ms)
         (binDimensions this, uncaught this) ∧
     ((1 ≤ n)%nat → cleared s = false)) ∧
  let final := play heightScale colorScale o this in
  animations final = [] ∧ cleared final = true ∧
  (binDimensions final, uncaught final) =
    replay (action_of heightScale colorScale o) ms
      (binDimensions this, uncaught this).
Proof.
  intros Hthis. split.
  - intros n Hn. destruct (ticks_take n o ms this Hthis Hn) as (H1&H2&H3&H4).
    split_and!; [done| |done].
    rewrite H2, H3. by destruct (replay _ _ _).
  - rewrite (play_reverse heightScale colorScale o ms this Hthis). simpl.
    split_and!; [done|done|]. by destruct (replay _ _ _).
Qed.
End display_extras.

(** X3 on the log of a bubble sort of [2, 1]. *)
Lemma player_applies_moves_in_recorded_order_witness :
  let this :=
    Component (array_of [1; 2]) [2; 1]
      (array_of [Bin (Some 2) tt tt tt; Bin (Some 1) tt tt tt])
      (reverse [BubbleSwap 0 1]) [] empty_array 0%nat false in
  animations this = reverse [BubbleSwap 0 1] ∧
  cleared (play (λ _, tt) (λ _, tt) BubbleSort this) = true.
Proof.
  intros this. split; [reflexivity|].
  apply (player_applies_moves_in_recorded_order (λ _, tt) (λ _, tt)
           BubbleSort [BubbleSwap 0 1] this). reflexivity.
Defined.

(** ** Counting sort on arbitrary integers *)

Section counting_any.
Variable l : list Z.
Variable mx : Z.
Hypothesis Hmx : Forall (λ x, x ≤ mx) l.







End counting_any.


(** ** Quick sort on an array with a hole *)

Lemma partition_loop_no_pivot fuel (a : jsarray Z) animations lo hi :
  lo < hi → partition_loop fuel a animations None hi lo hi = None.
Proof.
  intros Hlt. revert a animations.
  induction fuel as [|fuel IH]; intros a animations; [done|].
  cbn [partition_loop advance_start retreat_end].
  replace (js_le (a !! lo) None) with false by by destruct (a !! lo).
  replace (js_gt (a !! hi) None) with false by by destruct (a !! hi).
  cbn [mbind option_bind]. rewrite bool_decide_eq_false_2 by lia.
  apply IH.
Qed.

(** X17: [partition] does not return when the slot of the pivot is
    empty.  On a range of at least two indices whose first slot reads
    [undefined], neither scan moves and the loop exchanges [lo] and [hi]
    for ever; so [partition], and [quickSort] with it, returns for no
    bound on its loops. *)
Theorem partition_never_returns_without_a_pivot (a : jsarray Z)
    (animations : list Move) (lo hi : Z) (fuel : nat) :
  a !! lo = None → lo < hi →
  partition fuel a animations lo hi = None ∧
  quickSort fuel a animations lo hi = None.
Proof.
  intros Hlo Hlt.
  assert (Hp : ∀ fuel', partition fuel' a animations lo hi = None).
  { intros fuel'. unfold partition. rewrite Hlo.
    by rewrite partition_loop_no_pivot. }
  split; [apply Hp|].
  destruct fuel as [|fuel]; [done|].
  cbn [quickSort]. rewrite bool_decide_eq_false_2 by lia.
  by rewrite Hp.
Qed.

(** X17 on the array [[ , 1]], whose slot 0 is empty. *)
Lemma partition_never_returns_without_a_pivot_witness :
  store empty_array 1 (Some 1) !! 0 = None ∧ 0 < 1 ∧
  quickSort 1000 (store empty_array 1 (Some 1)) [] 0 1 = None.
Proof.
  split_and!; [reflexivity|lia|].
  apply (partition_never_returns_without_a_pivot _ [] 0 1 1000);
    [reflexivity|lia].
Defined.

(** ** The buffer of merge sort *)

Section merge_buffer.
Implicit Types (a aux : jsarray Z) (lo mid hi : Z).

(** [merge] reads the buffer only where it has just copied the
    range. *)
Lemma merge_buffer_irrelevant a aux1 aux2 animations lo mid hi :
  lo ≤ mid + 1 → mid ≤ hi → hi < len a → defined_on a lo hi →
  ∃ a' x1 x2 animations',
    merge a aux1 animations lo mid hi = (a', x1, animations') ∧
    merge a aux2 animations lo mid hi = (a', x2, animations') ∧
    rearranged a' a lo hi.
Proof.
  intros Hlm Hmh Hlen Hdef.
  destruct (defined_slice a lo (Z.to_nat (mid + 1 - lo))) as (L&HlenL&HL).
  { intros k Hk. apply Hdef. lia. }
  destruct (defined_slice a (mid + 1) (Z.to_nat (hi - mid))) as (R&HlenR&HR).
  { intros k Hk. apply Hdef. lia. }
  destruct (merge_spec (Width:=unit) (Height:=unit) (Color:=unit)
              (λ _, tt) (λ _, tt) a aux1 animations lo mid hi L R)
    as (a1&x1&Hrun1&Hlen1&Hout1&Hs1&_); [done|lia|lia|done|done|].
  destruct (merge_spec (Width:=unit) (Height:=unit) (Color:=unit)
              (λ _, tt) (λ _, tt) a aux2 animations lo mid hi L R)
    as (a2&x2&Hrun2&Hlen2&Hout2&Hs2&_); [done|lia|lia|done|done|].
  pose proof (length_list_merge L R) as HM.
  assert (a2 = a1) as ->.
  { apply jsarray_eq; [congruence|]. intros k.
    destruct (decide (lo ≤ k ≤ hi)) as [Hk|Hk].
    - replace k with (lo + Z.of_nat (Z.to_nat (k - lo))) by lia.
      rewrite (slice_Some_lookup a1 lo _ _ Hs1) by lia.
      by rewrite (slice_Some_lookup a2 lo _ _ Hs2) by lia.
    - by rewrite Hout1, Hout2. }
  exists a1, x1, x2, (animations ++ merge_moves lo (list_merge Z.le L R)).
  split_and!; [done|done|split_and!; [done|done|]].
  replace (Z.to_nat (hi - lo + 1))
    with (length (list_merge Z.le L R)) by lia.
  rewrite Hs1, HM, slice_app, HL, merge_Permutation, fmap_app.
  replace (lo + Z.of_nat (length L)) with (mid + 1) by lia.
  by rewrite HR.
Qed.

Lemma mergeSort_buffer_irrelevant fuel a aux1 aux2 animations lo hi :
  hi < len a → defined_on a lo hi →
  (1 ≤ fuel)%nat → hi - lo + 1 ≤ Z.of_nat fuel →
  ∃ a' x1 x2 animations',
    mergeSort fuel a aux1 animations lo hi = Some (a', x1, animations') ∧
    mergeSort fuel a aux2 animations lo hi = Some (a', x2, animations') ∧
    rearranged a' a lo hi.
Proof.
  revert a aux1 aux2 animations lo hi.
  induction fuel as [|fuel IH];
    intros a aux1 aux2 animations lo hi Hlen Hdef H1 Hf; [lia|].
  cbn [mergeSort]. case_bool_decide as Hle.
  { exists a, aux1, aux2, animations.
    split_and!; [done|done|apply rearranged_refl]. }
  pose proof (midpoint_bounds lo hi) as Hmid.
  set (mid := midpoint lo hi) in *.
  destruct (IH a aux1 aux2 animations lo mid)
    as (a1&x1&y1&l1&Hrun1&Hrun1'&Hre1); [lia| |lia|lia|].
  { intros k Hk. apply Hdef. lia. }
  rewrite Hrun1, Hrun1'. cbn [mbind option_bind].
  assert (Hre1' : rearranged a1 a lo hi).
  { eapply rearranged_widen; [| |done]; lia. }
  pose proof (rearranged_defined _ _ _ _ Hre1' Hdef) as Hdef1.
  assert (Hlen1 : len a1 = len a) by apply Hre1.
  destruct (IH a1 x1 y1 l1 (mid + 1) hi)
    as (a2&x2&y2&l2&Hrun2&Hrun2'&Hre2); [lia| |lia|lia|].
  { intros k Hk. apply Hdef1. lia. }
  rewrite Hrun2, Hrun2'. cbn [mbind option_bind].
  assert (Hre2' : rearranged a2 a1 lo hi).
  { eapply rearranged_widen; [| |done]; lia. }
  pose proof (rearranged_defined _ _ _ _ Hre2' Hdef1) as Hdef2.
  assert (Hlen2 : len a2 = len a1) by apply Hre2.
  destruct (merge_buffer_irrelevant a2 x2 y2 l2 lo mid hi)
    as (a3&x3&y3&l3&Hrun3&Hrun3'&Hre3); [lia|lia|lia|done|].
  rewrite Hrun3, Hrun3'. exists a3, x3, y3, l3.
  split_and!; [done|done|].
  eapply rearranged_trans; [done|]. by eapply rearranged_trans.
Qed.
End merge_buffer.

(** X5: the auxiliary array of merge sort is scratch space: whatever
    it holds when [mergeSort] starts, the sorted array and the recorded
    log come out the same. *)
Theorem mergeSort_ignores_the_buffer (l : list Z) (aux1 aux2 : jsarray Z)
    (animations : list Move) (fuel : nat) :
  (length l + 1 ≤ fuel)%nat →
  ∃ x1 x2 animations',
    mergeSort fuel (array_of l) aux1 animations 0 (len (array_of l) - 1)
      = Some (array_of (merge_sort Z.le l), x1, animations') ∧
    mergeSort fuel (array_of l) aux2 animations 0 (len (array_of l) - 1)
      = Some (array_of (merge_sort Z.le l), x2, animations').
Proof.
  intros Hfuel. rewrite len_array_of.
  destruct (mergeSort_buffer_irrelevant fuel (array_of l) aux1 aux2 animations
              0 (Z.of_nat (length l) - 1))
    as (a'&x1&x2&l'&Hrun1&Hrun2&_).
  { rewrite len_array_of. lia. }
  { apply defined_on_array_of; lia. }
  { lia. }
  { lia. }
  destruct (mergeSort_spec (Width:=unit) (Height:=unit) (Color:=unit)
              (λ _, tt) (λ _, tt) fuel (array_of l) aux1 animations
              0 (Z.of_nat (length l) - 1))
    as (a''&x''&l''&Hrun&Hre&Hsort&_).
  { rewrite len_array_of. lia. }
  { apply defined_on_array_of; lia. }
  { lia. }
  { lia. }
  rewrite Hrun1 in Hrun. simplify_eq.
  apply sorted_array_of in Hre; [|done]. subst.
  by exists x'', x2, l''.
Qed.

(** X5 on [3, 1, 2] with an empty and a used buffer. *)
Lemma mergeSort_ignores_the_buffer_witness :
  (length [3; 1; 2]%Z + 1 ≤ 4)%nat ∧
  (λ r, (r.1.1, r.2)) <$>
    mergeSort 4 (array_of [3; 1; 2]) empty_array [] 0 2 =
  (λ r, (r.1.1, r.2)) <$>
    mergeSort 4 (array_of [3; 1; 2]) (array_of [9; 9; 9; 9]) [] 0 2.
Proof.
  split; [simpl; lia|].
  destruct (mergeSort_ignores_the_buffer [3; 1; 2] empty_array
              (array_of [9; 9; 9; 9]) [] 4) as (x1&x2&log&H1&H2).
  - simpl; lia.
  - change (len (array_of [3; 1; 2]) - 1) with 2 in H1, H2.
    by rewrite H1, H2.
Defined.

(** ** The length of the log of merge sort *)

Section merge_length.
Implicit Types (a aux : jsarray Z) (lo mid hi : Z).

Lemma log2_up_half n :
  2 ≤ n → Z.log2_up ((n + 1) `div` 2) ≤ Z.log2_up n - 1.
Proof.
  intros Hn. pose proof (Z.log2_up_spec n ltac:(lia)) as [_ Hle].
  pose proof (Z.log2_up_pos n ltac:(lia)) as Hpos.
  apply Z.log2_up_le_pow2.
  { apply Z.div_str_pos. lia. }
  replace (Z.log2_up n) with (Z.succ (Z.log2_up n - 1)) in Hle by lia.
  rewrite Z.pow_succ_r in Hle by lia.
  generalize dependent (2 ^ (Z.log2_up n - 1)). intros P HP. Z.div_mod_to_equations. lia.
Qed.

Lemma merge_log_length_bound fuel n :
  0 ≤ merge_log_length fuel n ≤ n * Z.log2_up n.
Proof.
  revert n. induction fuel as [|fuel IH]; intros n; simpl.
  { destruct (decide (0 ≤ n)).
    - pose proof (Z.log2_up_nonneg n). nia.
    - rewrite Z.log2_up_nonpos by lia. lia. }
  case_bool_decide as Hn.
  { destruct (decide (0 ≤ n)).
    - pose proof (Z.log2_up_nonneg n). nia.
    - rewrite Z.log2_up_nonpos by lia. lia. }
  pose proof (IH ((n + 1) `div` 2)) as H1. pose proof (IH (n `div` 2)) as H2.
  pose proof (log2_up_half n ltac:(lia)) as Hl1.
  assert (Hl2 : Z.log2_up (n `div` 2) ≤ Z.log2_up n - 1).
  { etrans; [|exact Hl1]. apply Z.log2_up_le_mono.
    apply Z.div_le_mono; lia. }
  assert (Hsum : (n + 1) `div` 2 + n `div` 2 = n)
    by (Z.div_mod_to_equations; lia).
  assert (0 ≤ (n + 1) `div` 2) by (apply Z.div_pos; lia).
  assert (0 ≤ n `div` 2) by (apply Z.div_pos; lia).
  pose proof (Z.log2_up_nonneg ((n + 1) `div` 2)).
  pose proof (Z.log2_up_nonneg (n `div` 2)).
  split; [lia|]. nia.
Qed.

Lemma length_merge_moves lo (M : list Z) :
  length (merge_moves lo M) = length M.
Proof. unfold merge_moves. by rewrite length_imap. Qed.

Lemma mergeSort_log_length fuel a aux animations lo hi :
  hi < len a → defined_on a lo hi →
  (1 ≤ fuel)%nat → hi - lo + 1 ≤ Z.of_nat fuel →
  ∃ a' aux' animations',
    mergeSort fuel a aux animations lo hi = Some (a', aux', animations') ∧
    rearranged a' a lo hi ∧
    Z.of_nat (length animations') =
      Z.of_nat (length animations) + merge_log_length fuel (hi - lo + 1).
Proof.
  revert a aux animations lo hi.
  induction fuel as [|fuel IH];
    intros a aux animations lo hi Hlen Hdef H1 Hf; [lia|].
  cbn [mergeSort merge_log_length]. case_bool_decide as Hle.
  { exists a, aux, animations.
    rewrite bool_decide_eq_true_2 by lia.
    split_and!; [done|apply rearranged_refl|lia]. }
  rewrite bool_decide_eq_false_2 by lia.
  pose proof (midpoint_bounds lo hi) as Hmid.
  assert (Eleft : midpoint lo hi - lo + 1 = (hi - lo + 1 + 1) `div` 2)
    by (unfold midpoint; Z.div_mod_to_equations; lia).
  assert (Eright : hi - (midpoint lo hi + 1) + 1 = (hi - lo + 1) `div` 2)
    by (unfold midpoint; Z.div_mod_to_equations; lia).
  set (mid := midpoint lo hi) in *.
  destruct (IH a aux animations lo mid)
    as (a1&x1&l1&Hrun1&Hre1&Hl1); [lia| |lia|lia|].
  { intros k Hk. apply Hdef. lia. }
  rewrite Hrun1. cbn [mbind option_bind].
  assert (Hre1' : rearranged a1 a lo hi).
  { eapply rearranged_widen; [| |done]; lia. }
  pose proof (rearranged_defined _ _ _ _ Hre1' Hdef) as Hdef1.
  assert (Hlen1 : len a1 = len a) by apply Hre1.
  destruct (IH a1 x1 l1 (mid + 1) hi)
    as (a2&x2&l2&Hrun2&Hre2&Hl2); [lia| |lia|lia|].
  { intros k Hk. apply Hdef1. lia. }
  rewrite Hrun2. cbn [mbind option_bind].
  assert (Hre2' : rearranged a2 a1 lo hi).
  { eapply rearranged_widen; [| |done]; lia. }
  pose proof (rearranged_defined _ _ _ _ Hre2' Hdef1) as Hdef2.
  assert (Hlen2 : len a2 = len a1) by apply Hre2.
  destruct (defined_slice a2 lo (Z.to_nat (mid + 1 - lo))) as (L&HlenL&HL).
  { intros k Hk. apply Hdef2. lia. }
  destruct (defined_slice a2 (mid + 1) (Z.to_nat (hi - mid)))
    as (R&HlenR&HR).
  { intros k Hk. apply Hdef2. lia. }
  destruct (merge_spec (Width:=unit) (Height:=unit) (Color:=unit)
              (λ _, tt) (λ _, tt) a2 x2 l2 lo mid hi L R)
    as (a3&x3&Hrun3&Hlen3&Hout3&Hs3&_); [lia|lia|lia|done|done|].
  pose proof (length_list_merge L R) as HM.
  rewrite Hrun3. eexists a3, x3, _. split_and!; [done| |].
  - eapply rearranged_trans; [|by eapply rearranged_trans].
    split_and!; [done|done|].
    replace (Z.to_nat (hi - lo + 1))
      with (length (list_merge Z.le L R)) by lia.
    rewrite Hs3, HM, slice_app, HL, merge_Permutation, fmap_app.
    replace (lo + Z.of_nat (length L)) with (mid + 1) by lia.
    by rewrite HR.
  - rewrite length_app, length_merge_moves, HM.
    rewrite Eleft in Hl1. rewrite Eright in Hl2. lia.
Qed.
End merge_length.

(** X18: the length of the merge sort animation depends only on the
    length of the array, and is at most N ⌈log2 N⌉: [mergeSort] records
    the same number of moves on any two arrays of [N] integers, and at
    most [N * Z.log2_up N] of them. *)
Theorem mergeSort_log_length_bound (l1 l2 : list Z) (aux1 aux2 : jsarray Z)
    (fuel : nat) :
  length l1 = length l2 → (length l1 + 1 ≤ fuel)%nat →
  ∃ a1 x1 log1 a2 x2 log2,
    mergeSort fuel (array_of l1) aux1 [] 0 (len (array_of l1) - 1)
      = Some (a1, x1, log1) ∧
    mergeSort fuel (array_of l2) aux2 [] 0 (len (array_of l2) - 1)
      = Some (a2, x2, log2) ∧
    length log1 = length log2 ∧
    Z.of_nat (length log1)
      ≤ Z.of_nat (length l1) * Z.log2_up (Z.of_nat (length l1)).
Proof.
  intros Hlen Hfuel. rewrite !len_array_of.
  destruct (mergeSort_log_length fuel (array_of l1) aux1 []
              0 (Z.of_nat (length l1) - 1)) as (a1&x1&log1&Hrun1&_&Hl1).
  { rewrite len_array_of. lia. }
  { apply defined_on_array_of; lia. }
  { lia. }
  { lia. }
  destruct (mergeSort_log_length fuel (array_of l2) aux2 []
              0 (Z.of_nat (length l2) - 1)) as (a2&x2&log2&Hrun2&_&Hl2).
  { rewrite len_array_of. lia. }
  { apply defined_on_array_of; lia. }
  { lia. }
  { lia. }
  exists a1, x1, log1, a2, x2, log2. split_and!; [done|done| |].
  - rewrite <-Hlen in Hl2. simpl in *. lia.
  - simpl in Hl1. rewrite Hl1.
    replace (Z.of_nat (length l1) - 1 - 0 + 1) with (Z.of_nat (length l1))
      by lia.
    apply merge_log_length_bound.
Qed.

(** X18 on [3, 1, 2] and [5, 5, 5]. *)
Lemma mergeSort_log_length_bound_witness :
  length [3; 1; 2]%Z = length [5; 5; 5]%Z ∧
  (length [3; 1; 2]%Z + 1 ≤ 4)%nat ∧
  ∃ r, mergeSort 4 (array_of [3; 1; 2]) empty_array [] 0 2 = Some r ∧
       Z.of_nat (length r.2) ≤ 3 * Z.log2_up 3.
Proof.
  split_and!; [reflexivity|simpl; lia|].
  destruct (mergeSort_log_length_bound [3; 1; 2] [5; 5; 5] empty_array
              empty_array 4) as (a1&x1&log1&_&_&_&Hrun&_&_&Hle);
    [reflexivity|simpl; lia|].
  exists (a1, x1, log1). split; [exact Hrun|exact Hle].
Defined.

(** ** The validation animation *)

Lemma well_formed_array_of {A} (l : list A) : well_formed (array_of l).
Proof.
  intros k [x Hx]. rewrite lookup_array_of in Hx. rewrite len_array_of.
  case_decide; [|done]. apply lookup_lt_Some in Hx. lia.
Qed.

Section validation_proofs.
Context {Width Height Color : Type}.
Variable green : Color.
Abbreviation bin := (bin Width Height Color).
Abbreviation component := (component Width Height Color).
Abbreviation validation := (validation Width Height Color).
Implicit Types (d : jsarray bin) (s : validation) (q : list (Z * Color)).

Lemma mirror_well_formed d (a : jsarray Z) :
  mirror d a → well_formed a → well_formed d.
Proof.
  intros [Hlen Hlk] Ha k [b Hb]. rewrite Hlen. apply Ha.
  specialize (Hlk k). rewrite Hb in Hlk.
  destruct (a !! k); [by eexists|done].
Qed.

(** What the loop of [validateArray] adds: the indices from [i] on, in
    order, each with the colour of its bin. *)
Lemma validate_loop_records sorted i d q :
  ∃ recs, state_of (validate_loop sorted i d q) = q ++ recs ∧
    recs.*1 = seqZ i (Z.of_nat (length recs)) ∧
    (length recs ≤ length sorted)%nat ∧
    ∀ k c, (k, c) ∈ recs → ∃ b, d !! k = Some b ∧ color b = c.
Proof.
  revert i q. induction sorted as [|x sorted IH]; intros i q.
  { exists []. simpl. rewrite app_nil_r. split_and!; [done|done|done|].
    intros k c Hk. by apply elem_of_nil in Hk. }
  cbn [validate_loop]. destruct (d !! i) as [b|] eqn:Hb; cycle 1.
  { exists []. simpl. rewrite app_nil_r. split_and!; [done|done|lia|].
    intros k c Hk. by apply elem_of_nil in Hk. }
  case_bool_decide; cycle 1.
  { exists []. simpl. rewrite app_nil_r. split_and!; [done|done|lia|].
    intros k c Hk. by apply elem_of_nil in Hk. }
  destruct (IH (i + 1) (push q (i, color b))) as (recs&E&Hfst&Hlen&Hcol).
  exists ((i, color b) :: recs). split_and!.
  - rewrite E. unfold push. by rewrite <-app_assoc.
  - cbn [fmap list_fmap length]. rewrite Hfst.
    rewrite Nat2Z.inj_succ. rewrite (seqZ_cons i) by lia.
    simpl. do 2 f_equal. lia.
  - simpl. lia.
  - intros k c [Hk|Hk]%elem_of_cons; [|by apply Hcol].
    simplify_eq. by exists b.
Qed.

(** When the display shows the reference, every index is recorded. *)
Lemma validate_loop_all sorted i d q :
  (∀ (n : nat) x, sorted !! n = Some x →
     ∃ b, d !! (i + Z.of_nat n) = Some b ∧ value b = Some x) →
  ∃ recs, validate_loop sorted i d q = Done (q ++ recs) ∧
    recs.*1 = seqZ i (Z.of_nat (length sorted)).
Proof.
  revert i q. induction sorted as [|x sorted IH]; intros i q Hall.
  { exists []. simpl. by rewrite app_nil_r. }
  cbn [validate_loop]. destruct (Hall 0%nat x) as (b&Hb&Hv); [done|].
  rewrite Z.add_0_r in Hb. rewrite Hb, bool_decide_eq_true_2 by done.
  destruct (IH (i + 1) (push q (i, color b))) as (recs&E&Hfst).
  { intros n y Hy. destruct (Hall (S n) y Hy) as (b'&Hb'&Hv').
    exists b'. split; [|done]. rewrite <-Hb'. f_equal. lia. }
  exists ((i, color b) :: recs). split.
  - rewrite E. unfold push. by rewrite <-app_assoc.
  - cbn [fmap list_fmap length]. rewrite Hfst.
    rewrite Nat2Z.inj_succ. rewrite (seqZ_cons i) by lia.
    simpl. do 2 f_equal. lia.
Qed.

Ltac fields :=
  cbn [v_binDimensions v_validationAnimations timeouts running validated
       v_uncaught state_of threw fst snd] in *.

Lemma pop_snoc {A} (l : list A) x : pop (l ++ [x]) = (Some x, l).
Proof. unfold pop. by rewrite last_snoc, removelast_last. Qed.

Lemma snoc_cases {A} (l : list A) : l = [] ∨ ∃ l' x, l = l' ++ [x].
Proof.
  destruct l as [|x l' _] using rev_ind; [by left|right; by eexists _, _].
Qed.

Lemma in_flight_tick d0 s :
  well_formed d0 → in_flight green d0 s → running s = true →
  in_flight green d0 (animateValidation_tick green s) ∧
  match v_validationAnimations s with
  | [] => running (animateValidation_tick green s) = false ∧
          timeouts (animateValidation_tick green s) = timeouts s
  | _ :: _ =>
      ∃ x, running (animateValidation_tick green s) = true ∧
        timeouts (animateValidation_tick green s) = timeouts s ++ [x] ∧
        length (v_validationAnimations (animateValidation_tick green s))
          = pred (length (v_validationAnimations s))
  end.
Proof.
  intros Hwf (Hlen&Hnd&Hrec&Hlk&Hun&Hval&Hq) Hrun.
  unfold animateValidation_tick.
  destruct s as [d q ts r v u].
  cbn [v_binDimensions v_validationAnimations timeouts running validated
       v_uncaught] in *. subst r u v.
  destruct (snoc_cases q) as [->|(q'&[i c]&->)].
  { simpl. split; [|done]. split_and!; fields; done. }
  rewrite pop_snoc.
  destruct (Hrec i c) as (b&Hb&Hc).
  { apply elem_of_app. left. apply elem_of_app. right.
    by apply list_elem_of_singleton. }
  assert (Hperm : (q' ++ [(i, c)]).*1 ++ ts.*1 ≡ₚ i :: q'.*1 ++ ts.*1).
  { rewrite fmap_app, <-app_assoc. cbn [fmap list_fmap app fst].
    by rewrite <-Permutation_middle. }
  rewrite Hperm in Hnd. apply NoDup_cons in Hnd as [Hi Hnd].
  assert (Hdi : d !! i = Some b).
  { rewrite Hlk, decide_False; [done|]. intros ?. apply Hi.
    apply elem_of_app. by right. }
  unfold set_color. rewrite Hdi. split.
  - split_and!; fields; try done.
    + rewrite len_store_lt; [done|]. rewrite Hlen. apply Hwf. by eexists.
    + unfold push. rewrite fmap_app. simpl.
      rewrite (Permutation_app_comm ts.*1). simpl.
      rewrite <-Permutation_middle. by apply NoDup_cons.
    + intros k c' Hk. apply Hrec. unfold push in Hk.
      rewrite !elem_of_app in Hk |- *. rewrite list_elem_of_singleton in *.
      tauto.
    + intros k. rewrite lookup_store. unfold push. rewrite fmap_app. simpl.
      destruct (decide (i = k)) as [<-|Hne].
      * rewrite decide_True; [by rewrite Hb|].
        apply elem_of_app. right. by apply list_elem_of_singleton.
      * rewrite Hlk. destruct (decide (k ∈ ts.*1)) as [Hin|Hin].
        -- rewrite decide_True; [done|]. apply elem_of_app. by left.
        -- rewrite decide_False; [done|].
           intros [?|?%list_elem_of_singleton]%elem_of_app; done.
  - destruct (q' ++ [(i, c)]) eqn:E.
    { by destruct q'. }
    rewrite <-E. exists (i, c). simpl. split_and!; [done|done|].
    rewrite length_app. simpl. lia.
Qed.

Lemma in_flight_restore d0 s n t :
  well_formed d0 → in_flight green d0 s → timeouts s !! n = Some t →
  in_flight green d0
    (restore t (Validation (v_binDimensions s) (v_validationAnimations s)
                  (delete n (timeouts s)) (running s) (validated s)
                  (v_uncaught s))).
Proof.
  intros Hwf (Hlen&Hnd&Hrec&Hlk&Hun&Hval&Hq) Hn.
  destruct s as [d q ts r v u]; fields. destruct t as [i c].
  pose proof (delete_take_drop ts n) as Hdel.
  pose proof (take_drop_middle _ _ _ Hn) as Hts.
  set (ts1 := take n ts) in *. set (ts2 := drop (S n) ts) in *.
  rewrite Hdel. clearbody ts1 ts2. subst ts. clear Hdel Hn.
  destruct (Hrec i c) as (b&Hb&Hc).
  { rewrite !elem_of_app, elem_of_cons. tauto. }
  assert (Hperm : q.*1 ++ (ts1 ++ (i, c) :: ts2).*1
                    ≡ₚ i :: q.*1 ++ (ts1 ++ ts2).*1).
  { rewrite !fmap_app. simpl. by rewrite <-!Permutation_middle. }
  rewrite Hperm in Hnd. apply NoDup_cons in Hnd as [Hi Hnd].
  assert (Hdi : d !! i = Some (recolor green b)).
  { rewrite Hlk, decide_True; [by rewrite Hb|].
    rewrite fmap_app. simpl. rewrite elem_of_app, elem_of_cons. tauto. }
  unfold restore, set_color. fields. rewrite Hdi. fields.
  split_and!; fields; try done.
  - rewrite len_store_lt; [done|]. rewrite Hlen. apply Hwf. by eexists.
  - intros k c' Hk. apply Hrec.
    rewrite !elem_of_app in Hk |- *. rewrite elem_of_cons. tauto.
  - intros k. rewrite lookup_store.
    destruct (decide (i = k)) as [<-|Hne].
    + rewrite decide_False.
      * rewrite Hb. f_equal. destruct b. simpl in *. by subst.
      * intros ?. apply Hi. apply elem_of_app. by right.
    + rewrite Hlk. rewrite !fmap_app. simpl.
      destruct (decide (k ∈ ts1.*1 ++ ts2.*1)) as [Hin|Hin].
      * rewrite decide_True; [done|].
        rewrite elem_of_app, elem_of_cons. rewrite elem_of_app in Hin. tauto.
      * rewrite decide_False; [done|].
        rewrite elem_of_app, elem_of_cons.
        intros [Hk|[Hk|Hk]]; [|by subst|]; apply Hin, elem_of_app; tauto.
Qed.

Lemma in_flight_fire d0 s t s' :
  well_formed d0 → in_flight green d0 s → fire green t s = Some s' →
  in_flight green d0 s'.
Proof.
  intros Hwf Hs. destruct t as [|n]; simpl.
  - destruct (running s) eqn:Hrun; [|done]. intros [= <-].
    by apply in_flight_tick.
  - destruct (timeouts s !! n) as [t|] eqn:Hn; [|done]. simpl.
    intros [= <-]. by apply in_flight_restore.
Qed.

Lemma in_flight_run d0 schedule s s' :
  well_formed d0 → in_flight green d0 s → run green schedule s = Some s' →
  in_flight green d0 s'.
Proof.
  intros Hwf. revert s. induction schedule as [|t schedule IH]; intros s Hs.
  - by intros [= <-].
  - simpl. destruct (fire green t s) as [s1|] eqn:E; [|done]. simpl.
    apply IH. by eapply in_flight_fire.
Qed.

(** Once no timeout is pending the display is as it was. *)
Lemma in_flight_quiescent d0 s :
  in_flight green d0 s → timeouts s = [] → v_binDimensions s = d0.
Proof.
  intros (Hlen&_&_&Hlk&_) Hts. apply jsarray_eq; [done|].
  intros k. rewrite Hlk, Hts. by rewrite decide_False by apply not_elem_of_nil.
Qed.

(** The schedule that lets every timeout fire before the next tick
    runs to the end. *)
Lemma alternate_runs d0 s :
  well_formed d0 → in_flight green d0 s → running s = true → timeouts s = [] →
  ∃ s', run green (alternate (length (v_validationAnimations s))) s = Some s' ∧
        running s' = false ∧ timeouts s' = [].
Proof.
  intros Hwf.
  remember (length (v_validationAnimations s)) as n eqn:Hn.
  revert s Hn. induction n as [|n IH]; intros s Hn Hs Hrun Hts.
  - destruct (in_flight_tick d0 s Hwf Hs Hrun) as [_ Hstep].
    destruct (v_validationAnimations s); [|done].
    destruct Hstep as [H1 H2]. simpl. rewrite Hrun. simpl.
    eexists. split; [done|]. split; [done|congruence].
  - destruct (in_flight_tick d0 s Hwf Hs Hrun) as [Hs1 Hstep].
    destruct (v_validationAnimations s) as [|y q] eqn:Eq; [done|].
    destruct Hstep as (x&H1&H2&H3).
    cbn [alternate run fire]. rewrite Hrun. cbn [mbind option_bind].
    set (s1 := animateValidation_tick green s) in *.
    assert (Hx : timeouts s1 !! 0%nat = Some x) by by rewrite H2, Hts.
    rewrite Hx. cbn [mbind option_bind].
    set (s2 := restore x _).
    assert (Hs2 : in_flight green d0 s2) by by apply in_flight_restore.
    destruct (IH s2) as (s'&Hrun'&?&?); [|done|done| |by exists s'].
    + unfold s2, restore. fields. rewrite H3. cbn [length pred] in *. lia.
    + unfold s2, restore. fields. by rewrite H2, Hts.
Qed.

(** The animation as [validate] starts it. *)
Lemma validate_in_flight (this : component) s0 :
  validationAnimations this = [] → validate this = Done s0 →
  in_flight green (binDimensions this) s0 ∧ running s0 = true ∧ timeouts s0 = [].
Proof.
  intros Hempty. unfold validate, validateArray.
  destruct (validate_loop_records
              (merge_sort Z.le (generatedArrayUnsorted this)) 0
              (binDimensions this) (validationAnimations this))
    as (recs&E&Hfst&_&Hcol).
  destruct (threw _); [done|]. intros [= <-]. simpl.
  rewrite E, Hempty. simpl. split; [|done].
  split_and!; simpl; try done.
  - rewrite app_nil_r, fmap_reverse, Hfst, reverse_Permutation.
    apply NoDup_seqZ.
  - intros i c Hi. rewrite app_nil_r, elem_of_reverse in Hi. by apply Hcol.
Qed.

(** X6: the validation animation ends with the display as it found it.
    In whatever order the ticks of the interval and the timeouts fire,
    once the interval is cleared and no timeout is pending every bin has
    its colour back, [validatedSubj] has emitted exactly once, the log
    is empty and no callback threw; and the timers can always run to
    that end. *)
Theorem validation_restores_the_colours (this : component) s0 :
  well_formed (binDimensions this) →
  validationAnimations this = [] →
  validate this = Done s0 →
  (∀ schedule s,
     run green schedule s0 = Some s → running s = false → timeouts s = [] →
     v_binDimensions s = binDimensions this ∧ validated s = 1%nat ∧
     v_validationAnimations s = [] ∧ v_uncaught s = 0%nat) ∧
  ∃ schedule s,
    run green schedule s0 = Some s ∧ running s = false ∧ timeouts s = [].
Proof.
  intros Hwf Hempty Hval.
  destruct (validate_in_flight this s0 Hempty Hval) as (Hs0&Hrun0&Hts0).
  split.
  - intros schedule s Hrun Hstop Hts.
    pose proof (in_flight_run _ _ _ _ Hwf Hs0 Hrun) as Hs.
    split; [by apply in_flight_quiescent|].
    destruct Hs as (_&_&_&_&Hun&Hv&Hq). rewrite Hstop in Hv.
    split_and!; [done|by apply Hq|done].
  - destruct (alternate_runs _ s0 Hwf Hs0 Hrun0 Hts0) as (s&?&?&?).
    by eexists _, s.
Qed.
End validation_proofs.

(** X6 on a display of [1, 2] in the colours 10 and 20, with green as 0:
    both ticks fire, then the timeouts in the opposite order, then the
    tick that finds the log empty. *)
Lemma validation_restores_the_colours_witness :
  let d := array_of [Bin (Some 1) tt tt 10; Bin (Some 2) tt tt 20] in
  let this := Component (array_of [1; 2]) [2; 1] d [] [] empty_array
                0%nat true in
  let s0 := Validation d [(1, 20); (0, 10)] [] true 0%nat 0%nat in
  let schedule := [IntervalFires; IntervalFires; TimeoutFires 1;
                   TimeoutFires 0; IntervalFires] in
  well_formed d ∧ validate this = Done s0 ∧
  ∃ s, run 0 schedule s0 = Some s ∧ v_binDimensions s = d ∧
       validated s = 1%nat.
Proof.
  intros d this s0 schedule.
  assert (Hwf : well_formed d) by apply well_formed_array_of.
  assert (Hval : validate this = Done s0) by (vm_compute; reflexivity).
  split_and!; [done|done|].
  destruct (validation_restores_the_colours 0 this s0 Hwf eq_refl Hval)
    as [Hend _].
  destruct (run 0 schedule s0) as [s|] eqn:Hrun; [|by vm_compute in Hrun].
  exists s. split; [done|].
  destruct (Hend schedule s Hrun) as (H1&H2&_).
  - vm_compute in Hrun. by injection Hrun as <-.
  - vm_compute in Hrun. by injection Hrun as <-.
  - done.
Defined.

(** ** From the click to the end of the validation *)

Section pipeline.
Context {Width Height Color : Type}.
Variable heightScale : option Z → Height.
Variable colorScale : Height → Color.
Variable green : Color.
Abbreviation component := (component Width Height Color).
Abbreviation recorded :=
  (recorded (Width:=Width) (Height:=Height) (Color:=Color)).

(** What a click leaves behind: the sorted array and, reversed, a log
    that takes a display of the old array to one of the sorted array. *)
Lemma onOptionClicked_recorded o l (this : component) getArray fuel :
  (o = CountingSort → Forall (λ x, 0 ≤ x) l) →
  generatedArray this = array_of l →
  (length l + 3 ≤ fuel)%nat →
  ∃ aux' ms,
    onOptionClicked fuel o getArray this =
      Some (Component (array_of (merge_sort Z.le l)) getArray
              (binDimensions this) (reverse ms) [] aux' (uncaught this)
              false) ∧
    recorded (action_of heightScale colorScale o) (array_of l) []
      (array_of (merge_sort Z.le l)) ms.
Proof.
  intros Hcs Hgen Hfuel. unfold onOptionClicked. rewrite Hgen. destruct o.
  - destruct (bubbleSort (array_of l) []) as [a' ms] eqn:E.
    cbn [mbind option_bind].
    pose proof (bubbleSort_sorts l []) as Hs. rewrite E in Hs. simpl in Hs.
    pose proof (bubbleSort_recorded (Width:=Width) (Height:=Height)
                  (Color:=Color) (array_of l) []) as Hrec.
    rewrite E in Hrec. subst a'. by eexists _, _.
  - destruct (mergeSort_spec (Width:=Width) heightScale colorScale fuel
                (array_of l) empty_array [] 0 (len (array_of l) - 1))
      as (a'&aux'&ms&Hrun&Hre&Hsort&Hrec).
    { lia. }
    { apply defined_on_array_of; [lia|]. rewrite len_array_of. lia. }
    { lia. }
    { rewrite len_array_of. lia. }
    rewrite Hrun. cbn [mbind option_bind]. rewrite len_array_of in *.
    apply sorted_array_of in Hre; [|done]. subst a'. by eexists _, _.
  - specialize (Hcs eq_refl).
    destruct (countingSort_slots l Hcs []) as (a'&Hrun&Hlen&Hout&Hslots).
    rewrite Hrun. cbn [mbind option_bind].
    pose proof (slots_sorted l a' Hlen Hout Hslots) as ->.
    eexists _, _. split; [done|].
    exists (counting_moves l). split; [done|]. intros d e Hd.
    by apply (counting_replay (Width:=Width) heightScale colorScale l _ d e).
  - destruct (quickSort_spec (Width:=Width) (Height:=Height) (Color:=Color)
                fuel (array_of l) [] 0 (len (array_of l) - 1))
      as (a'&ms&Hrun&Hre&Hsort&Hrec).
    { lia. }
    { apply defined_on_array_of; [lia|]. rewrite len_array_of. lia. }
    { lia. }
    { rewrite len_array_of. lia. }
    rewrite Hrun. cbn [mbind option_bind]. rewrite len_array_of in *.
    apply sorted_array_of in Hre; [|done]. subst a'. by eexists _, _.
Qed.

(** X7: from the click to the end of the validation.  When
    [arrayService.getArray()] returns the numbers the array held before
    the sort, a click on an option (counting sort: on non-negative
    numbers below 2^32 - 1, the integers that are array indices)
    followed by the replay makes [validate] queue every index
    [N-1 .. 0] for highlighting; and however the timers of the
    validation animation interleave, it ends with the display showing
    the sorted array, [validatedSubj] emitted exactly once and no
    callback having thrown. *)
Theorem sort_replay_validate o (l : list Z) (this : component) (fuel : nat) :
  (o = CountingSort → Forall (λ x, 0 ≤ x < 2 ^ 32 - 1) l) →
  generatedArray this = array_of l →
  mirror (binDimensions this) (array_of l) →
  (length l + 3 ≤ fuel)%nat →
  ∃ this' s0,
    onOptionClicked fuel o l this = Some this' ∧
    validate (play heightScale colorScale o this') = Done s0 ∧
    (v_validationAnimations s0).*1
      = reverse (seqZ 0 (Z.of_nat (length l))) ∧
    ∀ schedule s,
      run green schedule s0 = Some s → running s = false → timeouts s = [] →
      shown (v_binDimensions s) = Some <$> merge_sort Z.le l ∧
      validated s = 1%nat ∧ v_uncaught s = 0%nat.
Proof.
  intros Hcs Hgen Hmirror Hfuel.
  assert (Hcs' : o = CountingSort → Forall (λ x, 0 ≤ x) l)
    by (intros Ho; by apply index_keys_nonneg, Hcs).
  destruct (onOptionClicked_recorded o l this l fuel Hcs' Hgen Hfuel)
    as (aux'&ms&Hclick&ms'&Hms&Hrec).
  simpl in Hms. subst ms'.
  destruct (Hrec (binDimensions this) (uncaught this) Hmirror)
    as (d'&Hrun&Hd').
  rewrite Hclick.
  set (this' := Component _ _ _ (reverse ms) _ _ _ _).
  pose proof (play_reverse heightScale colorScale o ms this' eq_refl) as Hplay.
  cbn [this' binDimensions uncaught generatedArray generatedArrayUnsorted
       validationAnimations auxiliaryArray] in Hplay.
  rewrite Hrun in Hplay. cbn [fst snd] in Hplay.
  set (final := play heightScale colorScale o this') in *.
  set (sorted := merge_sort Z.le l) in *.
  assert (Hlen : length sorted = length l).
  { unfold sorted. by rewrite merge_sort_Permutation. }
  destruct (validate_loop_all sorted 0 d' []) as (recs&Hloop&Hfst).
  { intros n x Hx. destruct Hd' as [_ Hlk]. specialize (Hlk (Z.of_nat n)).
    rewrite lookup_array_of_nat, Hx in Hlk. rewrite Z.add_0_l.
    destruct (d' !! Z.of_nat n) as [b|]; [|done].
    exists b. split; [done|]. simpl in Hlk. congruence. }
  assert (Hval : validate final =
            Done (Validation d' (reverse recs) [] true 0%nat 0%nat)).
  { unfold validate, validateArray. rewrite Hplay.
    cbn [generatedArrayUnsorted binDimensions validationAnimations].
    fold sorted. by rewrite Hloop. }
  exists this', (Validation d' (reverse recs) [] true 0%nat 0%nat).
  split_and!; [done|exact Hval| |].
  - cbn [v_validationAnimations]. rewrite fmap_reverse, Hfst, Hlen. done.
  - intros schedule s Hsched Hstop Hts.
    assert (Hempty : validationAnimations final = []) by by rewrite Hplay.
    destruct (validate_in_flight green final _ Hempty Hval) as (Hs0&_&_).
    rewrite Hplay in Hs0. cbn [binDimensions] in Hs0.
    assert (Hwf : well_formed d').
    { eapply mirror_well_formed; [done|]. apply well_formed_array_of. }
    pose proof (in_flight_run green d' _ _ _ Hwf Hs0 Hsched) as Hs.
    rewrite (in_flight_quiescent green d' s Hs Hts).
    destruct Hs as (_&_&_&_&Hun&Hv&_). rewrite Hstop in Hv.
    split_and!; [|done|done].
    rewrite (mirror_shown _ _ Hd'). apply items_array_of.
Qed.
End pipeline.

(** X7 for a counting sort of [2, 1]. *)
Lemma sort_replay_validate_witness :
  let d := calculateBinDimensions (λ v : option Z, v) (λ h : option Z, h) tt
             (array_of [2; 1]) in
  let this := Component (array_of [2; 1]) [] d [] [] empty_array 0%nat true in
  Forall (λ x, 0 ≤ x < 2 ^ 32 - 1) [2; 1] ∧
  mirror d (array_of [2; 1]) ∧ (length [2; 1]%Z + 3 ≤ 5)%nat ∧
  ∃ this' s0,
    onOptionClicked 5 CountingSort [2; 1] this = Some this' ∧
    validate (play (λ v, v) (λ h, h) CountingSort this') = Done s0 ∧
    (v_validationAnimations s0).*1 = [1; 0].
Proof.
  intros d this.
  assert (Hkeys : Forall (λ x, 0 ≤ x < 2 ^ 32 - 1) [2; 1])
    by (repeat constructor; (lia || reflexivity)).
  assert (Hd : mirror d (array_of [2; 1]))
    by apply mirror_calculateBinDimensions.
  split_and!; [done|done|simpl; lia|].
  destruct (sort_replay_validate (λ v, v) (λ h, h) None CountingSort [2; 1]
              this 5) as (this'&s0&H1&H2&H3&_); [done|done|done|simpl; lia|].
  by exists this', s0.
Defined.

(** ** The shape of the display *)

Section player_frame.
Context {Width Height Color : Type}.
Variable heightScale : option Z → Height.
Variable colorScale : Height → Color.
Abbreviation bin := (bin Width Height Color).
Implicit Types (d : jsarray bin).

Lemma same_bins_well_formed d' d :
  same_bins d' d → well_formed d → well_formed d'.
Proof.
  intros [Hlen Hk] Hwf k [b Hb]. rewrite Hlen. apply Hwf.
  specialize (Hk k). rewrite Hb in Hk. destruct (d !! k); [by eexists|done].
Qed.

Lemma calculateBinDimension_same_bins i v d :
  well_formed d →
  same_bins (state_of (calculateBinDimension heightScale colorScale i v d)) d.
Proof.
  intros Hwf. unfold calculateBinDimension.
  destruct (d !! i) as [b|] eqn:Hb; [|done]. simpl. split.
  - rewrite len_store_lt; [done|]. apply Hwf. by eexists.
  - intros k. rewrite lookup_store. case_decide; [|done]. subst.
    by rewrite Hb.
Qed.

Lemma copy_action_same_bins o m d :
  o = MergeSort ∨ o = CountingSort → well_formed d →
  same_bins (state_of (action_of heightScale colorScale o m d)) d.
Proof.
  intros [-> | ->] Hwf; simpl.
  - destruct m as [? ?|? ?|[?|] ?|? ?|? ?]; simpl; try done;
      by apply calculateBinDimension_same_bins.
  - destruct m as [? ?|? ?|[?|] ?|? ?|? ?]; simpl; try done;
      by apply calculateBinDimension_same_bins.
Qed.

Lemma swap_action_done o m d :
  o = BubbleSort ∨ o = QuickSort →
  threw (action_of heightScale colorScale o m d) = false.
Proof. intros [-> | ->]; by destruct m. Qed.

(** X14: what the players never do, whatever log they are given.  The
    players of bubble and quick sort never throw.  The players of merge
    and counting sort never add or remove a bin and never change a
    width: each tick either updates the bin it names or throws and
    leaves the display as it is. *)
Theorem players_keep_the_display_in_shape o (ms : list Move)
    (d : jsarray bin) (e : nat) :
  let r := replay (action_of heightScale colorScale o) ms (d, e) in
  (o = BubbleSort ∨ o = QuickSort → r.2 = e) ∧
  (o = MergeSort ∨ o = CountingSort → well_formed d →
     len r.1 = len d ∧
     (∀ k, width <$> r.1 !! k = width <$> d !! k) ∧
     (e ≤ r.2 ≤ e + length ms)%nat).
Proof.
  intros r. unfold r. clear r. split.
  - intros Ho. revert d e. induction ms as [|m ms IH]; intros d e; [done|].
    unfold replay in *. cbn [foldl fst snd].
    rewrite (swap_action_done o m d Ho). apply IH.
  - intros Ho. revert d e. induction ms as [|m ms IH]; intros d e Hwf.
    { simpl. split; [done|split; [done|lia]]. }
    unfold replay in *. cbn [foldl fst snd].
    pose proof (copy_action_same_bins o m d Ho Hwf) as Hsame.
    destruct (IH (state_of (action_of heightScale colorScale o m d))
                (if threw (action_of heightScale colorScale o m d)
                 then S e else e)) as (H1&H2&H3).
    { by eapply same_bins_well_formed. }
    destruct Hsame as [Hlen Hk]. split; [|split].
    + by rewrite H1.
    + intros k. by rewrite H2.
    + cbn [length]. destruct (threw _); lia.
Qed.
End player_frame.

(** X14 on a log of merge sort with a move at an index without bin. *)
Lemma players_keep_the_display_in_shape_witness :
  let d := array_of [Bin (Some 2) 7 tt tt; Bin (Some 1) 7 tt tt] in
  (MergeSort = MergeSort ∨ MergeSort = CountingSort) ∧ well_formed d ∧
  len (replay (action_of (λ _, tt) (λ _, tt) MergeSort)
         [MergeSet 0 (Some 1); MergeSet 5 (Some 2)] (d, 0%nat)).1 = 2.
Proof.
  intros d. split_and!; [by left|apply well_formed_array_of|].
  apply (players_keep_the_display_in_shape (λ _, tt) (λ _, tt) MergeSort
           [MergeSet 0 (Some 1); MergeSet 5 (Some 2)] d 0%nat);
    [by left|apply well_formed_array_of].
Defined.

(** ** The counter service *)

Lemma js_succ_range n : 0 ≤ n ≤ 2 ^ 53 → js_succ n = Z.min (2 ^ 53) (n + 1).
Proof. intros Hn. unfold js_succ. case_bool_decide; lia. Qed.

Lemma calls_of_cons c c' cs :
  calls_of c (c' :: cs) = (if decide (c' = c) then 1 else 0) + calls_of c cs.
Proof.
  unfold calls_of. rewrite filter_cons. case_decide; simpl; lia.
Qed.

Lemma calls_of_nonneg c cs : 0 ≤ calls_of c cs.
Proof. unfold calls_of. lia. Qed.

Lemma counts_after_calls (this : CounterService) (cs : list counter_call) :
  Call_reset ∉ cs →
  0 ≤ numberOfComparisons this ≤ 2 ^ 53 →
  0 ≤ numberOfArrayAccess this ≤ 2 ^ 53 →
  foldl call this cs =
    Counter
      (Z.min (2 ^ 53)
         (numberOfComparisons this + calls_of Call_incrementComparisonCount cs))
      (Z.min (2 ^ 53)
         (numberOfArrayAccess this + calls_of Call_incrementArrayAccessCount cs)).
Proof.
  revert this. induction cs as [|c cs IH]; intros [m n] Hno Hm Hn; simpl in *.
  { unfold calls_of. simpl. f_equal; lia. }
  apply not_elem_of_cons in Hno as [Hc Hno].
  pose proof (calls_of_nonneg Call_incrementComparisonCount cs).
  pose proof (calls_of_nonneg Call_incrementArrayAccessCount cs).
  destruct c; [| |done].
  - unfold incrementComparisonCount. simpl. rewrite IH; simpl.
    + rewrite !calls_of_cons, js_succ_range by done.
      repeat case_decide; try done. f_equal; lia.
    + done.
    + rewrite js_succ_range by done. lia.
    + done.
  - unfold incrementArrayAccessCount. simpl. rewrite IH; simpl.
    + rewrite !calls_of_cons, js_succ_range by done.
      repeat case_decide; try done. f_equal; lia.
    + done.
    + done.
    + rewrite js_succ_range by done. lia.
Qed.

(** X8: the two counters of [CounterService] are independent and count
    from the last [reset]: after a [reset] and any interleaving of
    increments, each getter returns the number of increments of its own
    counter (which stops at 2^53, where a JavaScript number no longer
    grows by one). *)
Theorem counters_count_since_reset (this : CounterService)
    (cs : list counter_call) :
  Call_reset ∉ cs →
  let this' := foldl call (reset this) cs in
  getComparisonCount this'
    = Z.min (2 ^ 53) (calls_of Call_incrementComparisonCount cs) ∧
  getArrayAccessCount this'
    = Z.min (2 ^ 53) (calls_of Call_incrementArrayAccessCount cs).
Proof.
  intros Hno this'. unfold this'.
  rewrite counts_after_calls; [|done|simpl; lia..]. simpl. done.
Qed.

(** X8 on two comparisons and an array access. *)
Lemma counters_count_since_reset_witness :
  (Call_reset ∉ [Call_incrementComparisonCount; Call_incrementArrayAccessCount;
                 Call_incrementComparisonCount]) ∧
  getComparisonCount
    (foldl call (reset (Counter 7 9))
       [Call_incrementComparisonCount; Call_incrementArrayAccessCount;
        Call_incrementComparisonCount]) = 2.
Proof.
  assert (H : Call_reset ∉ [Call_incrementComparisonCount;
                Call_incrementArrayAccessCount;
                Call_incrementComparisonCount]).
  { intros H. repeat (apply elem_of_cons in H as [H|H]; [done|]).
    by apply elem_of_nil in H. }
  split; [exact H|].
  destruct (counters_count_since_reset (Counter 7 9) _ H) as [-> _].
  reflexivity.
Defined.

(** ** The root component *)

Lemma default_last_cons {A} (a x : A) (l : list A) :
  default a (last (x :: l)) = default x (last l).
Proof.
  revert a x. induction l as [|y l IH]; intros a x; [done|].
  change (last (x :: y :: l)) with (last (y :: l)).
  by rewrite (IH a y), (IH x y).
Qed.

Lemma app_react_comparisonCount st e :
  comparisonCount (app_react st e).1 = 0 ∨
  comparisonCount (app_react st e).1 = comparisonCount st.1.
Proof. destruct st as [[] ?], e; simpl; auto. Qed.

(** X9: the comparison count on display never shows a count.  From
    the initial component, whatever is emitted on the four subjects and
    however the slider is moved, [comparisonCount] is 0. *)
Theorem comparisonCount_is_always_zero (es : list app_event)
    (counterService : CounterService) :
  comparisonCount (foldl app_react (new_AppComponent, counterService) es).1
    = 0.
Proof.
  assert (H : ∀ st, comparisonCount st.1 = 0 →
            comparisonCount (foldl app_react st es).1 = 0).
  { induction es as [|e es IH]; intros st Hst; [done|].
    simpl. apply IH.
    destruct (app_react_comparisonCount st e) as [?|?]; congruence. }
  by apply H.
Qed.

Lemma app_after_click es st :
  OptionClickedEmitted ∉ es →
  comparisonCount st.1 = 0 →
  let st' := foldl app_react st es in
  arrayAccessCount st'.1 = default (arrayAccessCount st.1)
                             (last (access_updates es)) ∧
  comparisonCount st'.1 = 0 ∧
  optionClicked st'.1 =
    (if decide (ValidatedEmitted ∈ es) then false else optionClicked st.1) ∧
  st'.2 = st.2.
Proof.
  revert st. induction es as [|e es IH]; intros st Hno Hst; [done|].
  apply not_elem_of_cons in Hno as [He Hno].
  cbn [foldl]. cbv zeta in *.
  destruct (IH (app_react st e) Hno) as (H1&H2&H3&H4).
  { destruct (app_react_comparisonCount st e) as [?|?]; congruence. }
  rewrite H1, H2, H3, H4. clear IH H1 H2 H3 H4.
  destruct st as [[oc ac cc sz] cs].
  assert (Hv : ∀ e' : app_event, e' ≠ ValidatedEmitted →
            ValidatedEmitted ∈ e' :: es ↔ ValidatedEmitted ∈ es).
  { intros e' Hne. rewrite elem_of_cons.
    split; [intros [?|?]; [congruence|done]|by right]. }
  destruct e; try done; unfold access_updates; cbn [omap list_omap app_react
    fst snd onArrayAccessCount onComparisonCount onValidatedSubj onRangeChange
    arrayAccessCount comparisonCount optionClicked currentArraySize].
  - fold (access_updates es). rewrite default_last_cons.
    split_and!; [done|done| |done].
    symmetry. apply decide_ext, Hv. done.
  - split_and!; [done|done| |done]. symmetry. apply decide_ext, Hv. done.
  - split_and!; [done|done| |done].
    rewrite (decide_True (P:=ValidatedEmitted ∈ ValidatedEmitted :: es)).
    + by destruct (decide _).
    + apply elem_of_cons. by left.
  - split_and!; [done|done| |done]. symmetry. apply decide_ext, Hv. done.
Qed.

(** X10: a click on an option resets what the root component shows.
    After the emission on [optionClickedSubj], and until the next one,
    the counters of the service are as [reset] left them, the array
    access count shown is the last one emitted since the click (0 if
    none), and [optionClicked] stays set until [validatedSubj] emits. *)
Theorem option_click_resets_the_counts (es es' : list app_event)
    (st : AppComponent * CounterService) :
  OptionClickedEmitted ∉ es' →
  let st' := foldl app_react st (es ++ OptionClickedEmitted :: es') in
  st'.2 = Counter 0 0 ∧
  arrayAccessCount st'.1 = default 0 (last (access_updates es')) ∧
  comparisonCount st'.1 = 0 ∧
  optionClicked st'.1 = bool_decide (ValidatedEmitted ∉ es').
Proof.
  intros Hno st'. unfold st'. rewrite foldl_app. cbn [foldl].
  set (st0 := foldl app_react st es).
  destruct (app_after_click es' (app_react st0 OptionClickedEmitted) Hno)
    as (H1&H2&H3&H4).
  { by destruct st0. }
  rewrite H1, H2, H3, H4. destruct st0 as [[] ?]. simpl.
  split_and!; [done|done|done|].
  destruct (decide (ValidatedEmitted ∈ es')).
  - by rewrite bool_decide_eq_false_2 by auto.
  - by rewrite bool_decide_eq_true_2.
Qed.

(** X10 on a click followed by two emitted access counts. *)
Lemma option_click_resets_the_counts_witness :
  (OptionClickedEmitted ∉
     [UpdateArrayAccessCount 3; UpdateArrayAccessCount 8]) ∧
  arrayAccessCount
    (foldl app_react (App false 5 0 150, Counter 4 4)
       ([ValidatedEmitted] ++
        OptionClickedEmitted ::
          [UpdateArrayAccessCount 3; UpdateArrayAccessCount 8])).1 = 8.
Proof.
  assert (H : OptionClickedEmitted ∉
                [UpdateArrayAccessCount 3; UpdateArrayAccessCount 8]).
  { intros H. repeat (apply elem_of_cons in H as [H|H]; [done|]).
    by apply elem_of_nil in H. }
  split; [exact H|].
  destruct (option_click_resets_the_counts [ValidatedEmitted] _
              (App false 5 0 150, Counter 4 4) H) as (_&->&_).
  reflexivity.
Defined.

Lemma currentArraySize_follows_the_slider st es :
  currentArraySize (foldl app_react st es).1
    = default (currentArraySize st.1) (last (range_changes es)).
Proof.
  revert st. induction es as [|e es IH]; intros st; [done|].
  cbn [foldl]. rewrite IH. destruct st as [[oc ac cc sz] cs].
  destruct e; try done.
  unfold range_changes. cbn [omap list_omap]. fold (range_changes es).
  by rewrite default_last_cons.
Qed.

(** X11: the Generate Array button asks for the size the slider shows:
    [onGenerateArray] emits the value of the last [onRangeChange], and
    150 when the slider has not been moved, whatever else was emitted
    in between. *)
Theorem generate_uses_the_last_slider_value (es : list app_event)
    (counterService : CounterService) :
  onGenerateArray (foldl app_react (new_AppComponent, counterService) es).1
    = default 150 (last (range_changes es)).
Proof.
  unfold onGenerateArray. by rewrite currentArraySize_follows_the_slider.
Qed.

(** ** The option buttons *)

Module OptionsProofs.
Import Options.

Lemma position_lookup (r : button_ref) (index : Z) :
  0 ≤ index →
  [bubble_button; merge_button; counting_button; quick_button]
    !! Z.to_nat index = Some r →
  position r = index.
Proof.
  intros Hi Hr.
  destruct (Z.to_nat index) as [|[|[|[|n]]]] eqn:E; simplify_eq/=; lia.
Qed.

Lemma idle_initial :
  idle (ngAfterViewInit new_OptionsComponent,
        Document (Button false false) (Button false false)
          (Button false false) (Button false false)).
Proof. split_and!; [done|by intros []|by intros []|done]. Qed.

Lemma idle_slider st v : idle st → idle (onSliderChange st v).
Proof.
  destruct st as [this [[a0 d0] [a1 d1] [a2 d2] [a3 d3]]].
  intros (Hrefs&Hact&Hdis&Hb). unfold onSliderChange.
  destruct (js_gt (Some v) (Some 200)) eqn:E.
  - split_and!; [done| | |done].
    + intros r. specialize (Hact r). by destruct r.
    + intros r Hr. specialize (Hdis r Hr). by destruct r.
  - split_and!; [done| | |done].
    + intros r. specialize (Hact r). by destruct r.
    + intros r Hr. specialize (Hdis r Hr). by destruct r.
Qed.

Lemma sorting_click st index r :
  idle st → 0 ≤ index →
  buttonLocalRefs st.1 !! Z.to_nat index = Some r →
  disabled (element r st.2) = false →
  sorting index (onOptionClicked index st).1.
Proof.
  destruct st as [[ai sz refs] [[a0 d0] [a1 d1] [a2 d2] [a3 d3]]].
  intros (Hrefs&Hact&Hdis&Hb) Hi Hr Hen. simpl in Hrefs. subst refs.
  pose proof (position_lookup r index Hi Hr) as Hpos.
  pose proof (Hact bubble_button) as A0. pose proof (Hact merge_button) as A1.
  pose proof (Hact counting_button) as A2. pose proof (Hact quick_button) as A3.
  pose proof (Hdis merge_button) as D1. pose proof (Hdis counting_button) as D2.
  pose proof (Hdis quick_button) as D3.
  simpl in *. subst a0 a1 a2 a3.
  rewrite D1, D2, D3 in * by done. clear D1 D2 D3 Hact Hdis.
  unfold onOptionClicked, for_buttons, for_range. simpl.
  destruct r; simpl in Hpos; subst index; simpl in *;
    (split_and!; [done|done|by intros []|by intros []|done || lia]).
Qed.

Lemma sorting_slider st index v :
  sorting index st → sorting index (onSliderChange st v).
Proof.
  destruct st as [this [[a0 d0] [a1 d1] [a2 d2] [a3 d3]]].
  intros (Hrefs&Hai&Hact&Hdis&Hb). unfold onSliderChange.
  destruct (js_gt (Some v) (Some 200)) eqn:E.
  - split_and!; [done|done| | |done].
    + intros r. specialize (Hact r). by destruct r.
    + intros r Hr. specialize (Hdis r Hr). by destruct r.
  - split_and!; [done|done| | |done].
    + intros r. specialize (Hact r). by destruct r.
    + intros r Hr. specialize (Hdis r Hr). by destruct r.
Qed.

Lemma sorting_sliders st index vs :
  sorting index st → sorting index (foldl onSliderChange st vs).
Proof.
  revert st. induction vs as [|v vs IH]; intros st Hst; [done|].
  simpl. by apply IH, sorting_slider.
Qed.

Lemma idle_validated st index :
  0 ≤ index < 4 → sorting index st → idle (onValidated st).
Proof.
  destruct st as [[ai sz refs] [[a0 d0] [a1 d1] [a2 d2] [a3 d3]]].
  intros Hi (Hrefs&Hai&Hact&Hdis&Hb). simpl in Hrefs, Hai. subst refs ai.
  pose proof (Hact bubble_button) as A0. pose proof (Hact merge_button) as A1.
  pose proof (Hact counting_button) as A2. pose proof (Hact quick_button) as A3.
  pose proof (Hdis merge_button) as D1. pose proof (Hdis counting_button) as D2.
  pose proof (Hdis quick_button) as D3.
  simpl in *. subst a0 a1 a2 a3.
  rewrite D1, D2, D3 in * by done. clear D1 D2 D3 Hact Hdis.
  unfold onValidated, for_buttons, for_range. simpl.
  assert (Hc : index = 0 ∨ index = 1 ∨ index = 2 ∨ index = 3) by lia.
  destruct Hc as [->|[->|[->| ->]]]; simpl in *.
  - rewrite Hb by done. destruct (js_gt sz (Some 200)) eqn:E; simpl;
      (split_and!; [done|by intros []|by intros []|done]).
  - destruct (js_gt sz (Some 200)) eqn:E; simpl;
      (split_and!; [done|by intros []|by intros []|done]).
  - destruct (js_gt sz (Some 200)) eqn:E; simpl;
      (split_and!; [done|by intros []|by intros []|done]).
  - destruct (js_gt sz (Some 200)) eqn:E; simpl;
      (split_and!; [done|by intros []|by intros []|done]).
Qed.
End OptionsProofs.

(** X12: a sort run gives the option buttons back.  From the idle
    state, a click on an enabled button emits its option and starts the
    run: that button is active and the other buttons of merge, counting
    and quick sort are disabled, however the slider is moved meanwhile;
    and when [validatedSubj] emits the buttons are idle again, the
    button of bubble sort disabled exactly when the array size is above
    200. *)
Theorem option_buttons_return_to_idle
    (st : Options.OptionsComponent * Options.document) (index : Z)
    (r : Options.button_ref) (vs : list Z) :
  Options.idle st →
  0 ≤ index →
  Options.buttonLocalRefs st.1 !! Z.to_nat index = Some r →
  Options.disabled (Options.element r st.2) = false →
  let clicked := Options.onOptionClicked index st in
  let during := foldl Options.onSliderChange clicked.1 vs in
  is_Some clicked.2 ∧
  Options.sorting index during ∧
  Options.idle (Options.onValidated during).
Proof.
  intros Hidle Hi Hr Hen clicked during.
  pose proof (OptionsProofs.sorting_click st index r Hidle Hi Hr Hen) as Hs.
  pose proof (OptionsProofs.sorting_sliders _ index vs Hs) as Hd.
  assert (Hlt : 0 ≤ index < 4).
  { destruct st as [this doc]. destruct Hidle as (Hrefs&_). simpl in Hr.
    rewrite Hrefs in Hr. apply lookup_lt_Some in Hr. simpl in Hr. lia. }
  split_and!; [|done|by apply (OptionsProofs.idle_validated _ index)].
  unfold clicked, Options.onOptionClicked. destruct st as [this doc].
  cbn [snd]. rewrite bool_decide_eq_true_2 by done.
  apply lookup_lt_is_Some. simpl. lia.
Qed.

(** X12 on a click on Merge Sort in the initial state, with the slider
    moved to 250 during the run. *)
Lemma option_buttons_return_to_idle_witness :
  let st := (Options.ngAfterViewInit Options.new_OptionsComponent,
             Options.Document (Options.Button false false)
               (Options.Button false false) (Options.Button false false)
               (Options.Button false false)) in
  Options.idle st ∧
  Options.disabled
    (Options.bubbleSortButton
       (Options.onValidated
          (foldl Options.onSliderChange (Options.onOptionClicked 1 st).1
             [250])).2) = true.
Proof.
  intros st. split; [apply OptionsProofs.idle_initial|].
  destruct (option_buttons_return_to_idle st 1 Options.merge_button [250])
    as (_&_&Hidle).
  - apply OptionsProofs.idle_initial.
  - lia.
  - reflexivity.
  - reflexivity.
  - destruct (Options.onValidated _) as [this doc] eqn:E.
    destruct Hidle as (_&_&_&Hb). cbn [snd]. rewrite Hb.
    apply (f_equal fst) in E. vm_compute in E. by subst this.
Defined.

(** X13: the slider can enable the button of bubble sort while another
    sort is running.  During the run of another option, after the
    slider is moved to a size of at most 200 the button of bubble sort
    is enabled, while the running option is still the active one. *)
Theorem slider_enables_bubble_sort_during_a_run
    (st : Options.OptionsComponent * Options.document) (index : Z)
    (vs : list Z) (v : Z) :
  Options.sorting index st → index ≠ 0 → v ≤ 200 →
  let during := foldl Options.onSliderChange st (vs ++ [v]) in
  Options.sorting index during ∧
  Options.disabled (Options.bubbleSortButton during.2) = false.
Proof.
  intros Hs Hne Hv during. split.
  - by apply OptionsProofs.sorting_sliders.
  - unfold during. rewrite foldl_app. simpl.
    destruct (foldl Options.onSliderChange st vs) as [this doc].
    unfold Options.onSliderChange. rewrite js_gt_Some.
    rewrite bool_decide_eq_false_2 by lia. done.
Qed.

(** X13 for a run of merge sort and the slider moved to 180. *)
Lemma slider_enables_bubble_sort_during_a_run_witness :
  let st := (Options.onOptionClicked 1
               (Options.ngAfterViewInit Options.new_OptionsComponent,
                Options.Document (Options.Button false false)
                  (Options.Button false false) (Options.Button false false)
                  (Options.Button false false))).1 in
  Options.sorting 1 st ∧ 1 ≠ 0 ∧ 180 ≤ 200 ∧
  Options.disabled
    (Options.bubbleSortButton
       (foldl Options.onSliderChange st ([250] ++ [180])).2) = false.
Proof.
  intros st.
  assert (Hs : Options.sorting 1 st).
  { apply (OptionsProofs.sorting_click _ 1 Options.merge_button);
      [apply OptionsProofs.idle_initial|lia|reflexivity|reflexivity]. }
  split_and!; [done|lia|lia|].
  apply (slider_enables_bubble_sort_during_a_run st 1 [250] 180); [done|lia|lia].
Defined.

(** ** Subscriptions *)

Lemma filter_drops (id : nat) (s : subject) (l l' : list (nat * subject)) :
  Forall (λ o, (o.1 < id)%nat) l →
  Forall (λ o, (id < o.1)%nat) l' →
  filter (λ o, o.1 ≠ id) (l ++ (id, s) :: l') = l ++ l'.
Proof.
  intros Hl Hl'. rewrite filter_app, filter_cons. simpl.
  rewrite decide_False by (intros ?; done).
  f_equal.
  - clear Hl'. induction Hl as [|o l Ho _ IH]; [done|].
    rewrite filter_cons, decide_True by lia. by rewrite IH.
  - clear Hl. induction Hl' as [|o l' Ho _ IH]; [done|].
    rewrite filter_cons, decide_True by lia. by rewrite IH.
Qed.

(** X15: the visualizer and the root component close in [ngOnDestroy]
    exactly the subscriptions they opened in [ngOnInit]: afterwards the
    subjects have the observers they had before, and no call throws. *)
Theorem components_unsubscribe_what_they_subscribed (b : subjects) :
  numbered b →
  (∃ b', visualizer_ngOnDestroy (visualizer_ngOnInit b).1
           (visualizer_ngOnInit b).2 = Done b' ∧
         observers b' = observers b) ∧
  (∃ b', app_ngOnDestroy (app_ngOnInit b).1 (app_ngOnInit b).2 = Done b' ∧
         observers b' = observers b).
Proof.
  intros Hb. destruct b as [l n]. unfold numbered in Hb. simpl in Hb.
  split.
  - eexists. split; [reflexivity|]. simpl.
    rewrite <-!app_assoc. simpl.
    rewrite (filter_drops n) by (repeat constructor; simpl; done || lia).
    rewrite (filter_drops (S n));
      [|eapply Forall_impl; [exact Hb|]; simpl; intros; lia
       |repeat constructor; simpl; lia].
    rewrite <-(app_nil_r l) at 2.
    apply (filter_drops (S (S n)));
      [eapply Forall_impl; [exact Hb|]; simpl; intros; lia|constructor].
  - eexists. split; [reflexivity|]. simpl.
    rewrite <-!app_assoc. simpl.
    rewrite (filter_drops n) by (repeat constructor; simpl; done || lia).
    rewrite (filter_drops (S n));
      [|eapply Forall_impl; [exact Hb|]; simpl; intros; lia
       |repeat constructor; simpl; lia].
    rewrite (filter_drops (S (S n)));
      [|eapply Forall_impl; [exact Hb|]; simpl; intros; lia
       |repeat constructor; simpl; lia].
    rewrite <-(app_nil_r l) at 2.
    apply (filter_drops (S (S (S n))));
      [eapply Forall_impl; [exact Hb|]; simpl; intros; lia|constructor].
Qed.

(** X15 from the subjects without observers. *)
Lemma components_unsubscribe_what_they_subscribed_witness :
  numbered (Subjects [] 0) ∧
  ∃ b', visualizer_ngOnDestroy (visualizer_ngOnInit (Subjects [] 0)).1
          (visualizer_ngOnInit (Subjects [] 0)).2 = Done b' ∧
        observers b' = [].
Proof.
  split; [constructor|].
  apply (components_unsubscribe_what_they_subscribed (Subjects [] 0)).
  constructor.
Defined.

(** X16: the options component leaves its subscription to
    [sliderChangeSubj] open.  [ngOnInit] keeps only the subscription to
    [validatedSubj], so after [ngOnDestroy] the observer of the slider
    is still there; the [ngOnDestroy] of [unnamed/part_000], which
    unsubscribes a field that is never assigned, throws at that call
    and leaves the same observer behind. *)
Theorem options_leaves_the_slider_subscription_open (b : subjects) :
  numbered b →
  let this := (options_ngOnInit b).1 in
  let b1 := (options_ngOnInit b).2 in
  let left := observers b ++ [(S (next_subscription b), sliderChangeSubj)] in
  (∃ b', options_ngOnDestroy this b1 = Done b' ∧ observers b' = left) ∧
  (∃ b', options_ngOnDestroy_part_000 this b1 = Threw b' ∧
         observers b' = left).
Proof.
  intros Hb. destruct b as [l n]. unfold numbered in Hb. simpl in Hb.
  assert (E : filter (λ o : nat * subject, o.1 ≠ n)
                ((l ++ [(n, validatedSubj)]) ++ [(S n, sliderChangeSubj)])
              = l ++ [(S n, sliderChangeSubj)]).
  { rewrite <-app_assoc. simpl.
    apply (filter_drops n); [done|repeat constructor; simpl; lia]. }
  split.
  - eexists. split; [reflexivity|]. simpl. exact E.
  - eexists. split; [reflexivity|]. simpl. exact E.
Qed.

(** X16 from the subjects without observers. *)
Lemma options_leaves_the_slider_subscription_open_witness :
  numbered (Subjects [] 0) ∧
  ∃ b', options_ngOnDestroy (options_ngOnInit (Subjects [] 0)).1
          (options_ngOnInit (Subjects [] 0)).2 = Done b' ∧
        observers b' = [(1%nat, sliderChangeSubj)].
Proof.
  split; [constructor|].
  apply (options_leaves_the_slider_subscription_open (Subjects [] 0)).
  constructor.
Defined.
